(** * DHALSIM PLC runtime: a shallow embedding and its verified properties

    Two Python sources are embedded here:
    - [dhalsim/python2/generic_plc.py]  (module [GenericPLC] below),
    - [ICS_topologies/enhanced_ctown_topology/plc2.py]  (module [PLC2]).

    Python objects are explicit records, exceptions are an error type,
    methods that touch the tag store, the network or the sqlite database are
    functions in a state-and-exception monad over an explicit [World]. *)

From Stdlib Require Import ZArith Ascii String List Bool Lia.
From stdpp Require Import base option list gmap strings fin_maps.

Local Open Scope Z_scope.
Local Open Scope string_scope.
Local Open Scope list_scope.

(** ** Python values and strings *)

Module Py.

(** [decimal.Decimal]: a coefficient and a power-of-ten exponent. *)
Record Decimal := mkDecimal { coefficient : Z; exponent : Z }.

Definition Decimal_of_int (z : Z) : Decimal := mkDecimal z 0.

(** The Python values that occur in the configuration and as arguments. *)
Inductive pyval :=
| VNone
| VBool (b : bool)
| VInt (z : Z)
| VDec (d : Decimal)
| VStr (s : string)
| VList (l : list string).

(** [str.lower()] on a Python 2 byte string: only A-Z change. *)
Definition ascii_lower (c : ascii) : ascii :=
  let n := nat_of_ascii c in
  if (Nat.leb 65 n && Nat.leb n 90)%bool then ascii_of_nat (n + 32) else c.

Fixpoint lower (s : string) : string :=
  match s with
  | EmptyString => EmptyString
  | String c r => String (ascii_lower c) (lower r)
  end.

(** [isinstance(value, basestring) and value.lower() == lit] *)
Definition is_str_lower (value : pyval) (lit : string) : bool :=
  match value with
  | VStr s => String.eqb (lower s) lit
  | _ => false
  end.

(** [bool(x)] *)
Definition py_bool (v : pyval) : bool :=
  match v with
  | VNone => false
  | VBool b => b
  | VInt z => negb (z =? 0)%Z
  | VDec d => negb (coefficient d =? 0)%Z
  | VStr s => negb (String.eqb s EmptyString)
  | VList l => match l with [] => false | _ => true end
  end.

(** Exceptions raised by the embedded code. *)
Inductive exn :=
| TagDoesNotExist (msg : string)
| InvalidControlValue (value : pyval)
| KeyError (key : string)
| IndexError
| TypeError
| AttributeError
| ValueError
| OverflowError
| IOError (msg : string).

Inductive result (A : Type) :=
| Ok (a : A)
| Raise (e : exn).
Arguments Ok {A} a.
Arguments Raise {A} e.

(** What [int(...)] is applied to: a bool, an int (Python 2 ints and longs,
    of any size), or an object of another type. Of the latter only what
    [int] makes of it matters to the caller, so it is given by that
    outcome: [int('1')] and [int(Decimal('1.7'))] are 1, [int('x')] raises
    [ValueError], [int(None)] raises [TypeError]. *)
Inductive int_arg :=
| OfBool (b : bool)
| OfInt (z : Z)
| OfObject (outcome : result Z).

(** [int(x)] *)
Definition py_int (x : int_arg) : result Z :=
  match x with
  | OfBool b => Ok (if b then 1 else 0)
  | OfInt z => Ok z
  | OfObject outcome => outcome
  end.

End Py.
Import Py.

(** Pure fallible code runs in [result]. *)
Global Instance result_ret : MRet result := @Ok.
Global Instance result_bind : MBind result := fun A B f m =>
  match m with
  | Ok a => f a
  | Raise e => Raise e
  end.

(** A configuration entry is a Python dict from key to value. *)
Abbreviation pydict := (gmap string pyval).

(** [d[k]] *)
Definition getitem (d : pydict) (k : string) : result pyval :=
  match d !! k with
  | Some v => Ok v
  | None => Raise (KeyError k)
  end.

(** [d["type"].lower()] *)
Definition type_lower (d : pydict) : result string :=
  v ← getitem d "type";
  match v with
  | VStr s => Ok (lower s)
  | _ => Raise AttributeError
  end.

(** ** generic_plc.py *)

Module GenericPLC.

(** *** Rule entities

    [entities.control] and [entities.attack] are imported by the source;
    each object keeps the constructor arguments it is created with. *)

Inductive Control :=
| AboveControl (actuator action dependant value : pyval)
| BelowControl (actuator action dependant value : pyval)
| TimeControl (actuator action value : pyval).

Inductive Attack :=
| TimeAttack (name actuators command start end_ : pyval)
| TriggerAboveAttack (name actuators command sensor value : pyval)
| TriggerBelowAttack (name actuators command sensor value : pyval)
| TriggerBetweenAttack (name actuators command sensor lower_value upper_value : pyval).

(** *** create_controls

    One pass of the loop body: three independent [if] statements, each
    re-reading [control["type"].lower()], constructor arguments looked up
    left to right, [ret.append] at the end of each taken branch. *)
Definition create_controls_body (ret : list Control) (control : pydict)
  : result (list Control) :=
  t1 ← type_lower control;
  ret1 ← (if String.eqb t1 "above" then
            actuator ← getitem control "actuator";
            action ← getitem control "action";
            dependant ← getitem control "dependant";
            value ← getitem control "value";
            mret (ret ++ [AboveControl actuator action dependant value])
          else mret ret);
  t2 ← type_lower control;
  ret2 ← (if String.eqb t2 "below" then
            actuator ← getitem control "actuator";
            action ← getitem control "action";
            dependant ← getitem control "dependant";
            value ← getitem control "value";
            mret (ret1 ++ [BelowControl actuator action dependant value])
          else mret ret1);
  t3 ← type_lower control;
  if String.eqb t3 "time" then
    actuator ← getitem control "actuator";
    action ← getitem control "action";
    value ← getitem control "value";
    mret (ret2 ++ [TimeControl actuator action value])
  else mret ret2.

Fixpoint create_controls_loop (ret : list Control) (controls_list : list pydict)
  : result (list Control) :=
  match controls_list with
  | [] => mret ret
  | control :: rest =>
      ret' ← create_controls_body ret control;
      create_controls_loop ret' rest
  end.

Definition create_controls (controls_list : list pydict) : result (list Control) :=
  create_controls_loop [] controls_list.

(** *** create_attacks: an [if]/[elif] chain, no [else]. *)
Definition create_attacks_body (attacks : list Attack) (attack : pydict)
  : result (list Attack) :=
  t1 ← type_lower attack;
  if String.eqb t1 "time" then
    name ← getitem attack "name";
    actuators ← getitem attack "actuators";
    command ← getitem attack "command";
    start ← getitem attack "start";
    end_ ← getitem attack "end";
    mret (attacks ++ [TimeAttack name actuators command start end_])
  else
    t2 ← type_lower attack;
    if String.eqb t2 "above" then
      name ← getitem attack "name";
      actuators ← getitem attack "actuators";
      command ← getitem attack "command";
      sensor ← getitem attack "sensor";
      value ← getitem attack "value";
      mret (attacks ++ [TriggerAboveAttack name actuators command sensor value])
    else
      t3 ← type_lower attack;
      if String.eqb t3 "below" then
        name ← getitem attack "name";
        actuators ← getitem attack "actuators";
        command ← getitem attack "command";
        sensor ← getitem attack "sensor";
        value ← getitem attack "value";
        mret (attacks ++ [TriggerBelowAttack name actuators command sensor value])
      else
        t4 ← type_lower attack;
        if String.eqb t4 "between" then
          name ← getitem attack "name";
          actuators ← getitem attack "actuators";
          command ← getitem attack "command";
          sensor ← getitem attack "sensor";
          lower_value ← getitem attack "lower_value";
          upper_value ← getitem attack "upper_value";
          mret (attacks ++ [TriggerBetweenAttack name actuators command sensor
                                                 lower_value upper_value])
        else mret attacks.

Fixpoint create_attacks_loop (attacks : list Attack) (attack_list : list pydict)
  : result (list Attack) :=
  match attack_list with
  | [] => mret attacks
  | attack :: rest =>
      attacks' ← create_attacks_body attacks attack;
      create_attacks_loop attacks' rest
  end.

Definition create_attacks (attack_list : list pydict) : result (list Attack) :=
  create_attacks_loop [] attack_list.

(** *** The world a PLC process acts on *)

(** The sqlite database shared with the physical-process simulator:
    table [sync(name, flag)] and table [master_time(id, time)]. *)
Record Tables := mkTables {
  sync : list (string * Z);
  master_time : list (Z * Z)
}.

(** What the process does, in program order. [EvControl] and [EvAttack]
    mark the calls [control.apply(self)] and [attack.apply(self)]. *)
Inductive event :=
| EvReceive (what : string * Z) (address : string)
| EvGetSync (flag : bool)
| EvSleep (milliseconds : Z)
| EvExecuteUpdateSync (flag : Z) (name : string)
| EvCommit
| EvControl (c : Control)
| EvAttack (a : Attack).

(** Modelled from the spec: the tag store behind [self.get]/[self.set] and
    the peer read behind [self.receive] belong to the protocol layer that
    generic_plc.py inherits. The store maps a tag [(name, 1)] to its value, a
    [set] is visible to every later [get]; a network read is answered by the
    peer at the given address. [db] is the database file as committed,
    [txn] the open transaction of this process's connection, if any. *)
Record World := mkWorld {
  tags : gmap (string * Z) Decimal;
  network : string -> string * Z -> result Decimal;
  db : Tables;
  txn : option Tables;
  trace : list event
}.

Definition with_tags (f : gmap (string * Z) Decimal -> gmap (string * Z) Decimal)
  (w : World) : World :=
  mkWorld (f (tags w)) (network w) (db w) (txn w) (trace w).

Definition with_db (d : Tables) (t : option Tables) (w : World) : World :=
  mkWorld (tags w) (network w) d t (trace w).

Definition with_event (e : event) (w : World) : World :=
  mkWorld (tags w) (network w) (db w) (txn w) (trace w ++ [e]).

(** Methods run in a state-and-exception monad: a raised exception keeps
    the effects made before it. *)
Definition M (A : Type) : Type := World -> result A * World.

#[global] Instance M_ret : MRet M := fun A a w => (Ok a, w).
#[global] Instance M_bind : MBind M := fun A B f m w =>
  match m w with
  | (Ok a, w') => f a w'
  | (Raise e, w') => (Raise e, w')
  end.

Definition raise {A} (e : exn) : M A := fun w => (Raise e, w).
Definition lift {A} (r : result A) : M A := fun w => (r, w).
Definition emit (e : event) : M unit := fun w => (Ok tt, with_event e w).

(** [for x in l: body(x)] *)
Fixpoint for_each {A} (l : list A) (body : A -> M unit) : M unit :=
  match l with
  | [] => mret tt
  | x :: rest => body x ≫= fun _ => for_each rest body
  end.

(** Modelled from the spec: [self.get(what)] of the inherited protocol
    layer, already converted by [Decimal(...)]; a tag without a value has
    nothing to convert. *)
Definition get (what : string * Z) : M Decimal := fun w =>
  match tags w !! what with
  | Some v => (Ok v, w)
  | None => (Raise TypeError, w)
  end.

(** Modelled from the spec: [self.set(what, value)] of the inherited
    protocol layer. *)
Definition set (what : string * Z) (value : Z) : M unit := fun w =>
  (Ok tt, with_tags (insert what (Decimal_of_int value)) w).

(** Modelled from the spec: [self.receive(what, address)] of the inherited
    protocol layer, already converted by [Decimal(...)]: one request to the
    peer, which answers or fails. *)
Definition receive (what : string * Z) (address : string) : M Decimal := fun w =>
  (network w address what, with_event (EvReceive what address) w).

(** *** The PLC object *)

(** One entry of the [plcs] section of the intermediate YAML. The
    constructor treats the keys [sensors] and [actuators] as optional
    ([if 'sensors' not in self.intermediate_plc]), so an entry may lack
    either. *)
Record plc_data := mkPlcData {
  name : string;
  public_ip : string;
  sensors : option (list string);
  actuators : option (list string)
}.

(** The fields of [self] that the methods read. [plc_sensors] and
    [plc_actuators] are [self.intermediate_plc["sensors"]] and
    [self.intermediate_plc["actuators"]], which the constructor sets to an
    empty list when the YAML entry has none; [plc_name] is
    [self.intermediate_plc["name"]]; [intermediate_yaml_plcs] is
    [self.intermediate_yaml["plcs"]]. *)
Record GenericPLC := mkGenericPLC {
  yaml_index : Z;
  intermediate_yaml_plcs : list plc_data;
  plc_name : string;
  plc_sensors : list string;
  plc_actuators : list string;
  controls : list Control;
  attacks : list Attack
}.

(** The constructor's treatment of the topology: [self.intermediate_plc]
    is the entry at [yaml_index], and a missing [sensors] or [actuators] key
    is given an empty list in that entry, in place, so that the entry in
    [self.intermediate_yaml["plcs"]] has it too. The other entries stay as
    loaded. [cs] and [ats] are the rule lists built from the entry. *)
Definition own_entry (d : plc_data) : plc_data :=
  mkPlcData (name d) (public_ip d)
    (Some (default [] (sensors d))) (Some (default [] (actuators d))).

Definition attach (plcs : list plc_data) (index : nat)
  (cs : list Control) (ats : list Attack) : result GenericPLC :=
  match plcs !! index with
  | None => Raise IndexError
  | Some d =>
      Ok (mkGenericPLC (Z.of_nat index) (<[index := own_entry d]> plcs) (name d)
            (default [] (sensors d)) (default [] (actuators d)) cs ats)
  end.

(** [tag in l] *)
Definition py_in (tag : string) (l : list string) : bool :=
  bool_decide (tag ∈ l).

(** [tag in plc_data["sensors"] or tag in plc_data["actuators"]]: the
    right operand is evaluated only when the left one is false. *)
Definition declares (tag : string) (plc_data : plc_data) : M bool :=
  match sensors plc_data with
  | None => raise (KeyError "sensors")
  | Some ss =>
      if py_in tag ss then mret true
      else match actuators plc_data with
           | None => raise (KeyError "actuators")
           | Some acts => mret (py_in tag acts)
           end
  end.

(** The [for i, plc_data in enumerate(...)] loop of [get_tag], from
    position [i] on. *)
Fixpoint get_tag_scan (self : GenericPLC) (tag : string) (i : nat)
  (plcs : list plc_data) : M Decimal :=
  match plcs with
  | [] => raise (TagDoesNotExist tag)
  | plc_data :: rest =>
      if (Z.of_nat i =? yaml_index self)%Z then get_tag_scan self tag (S i) rest
      else
        found ← declares tag plc_data;
        if found : bool then receive (tag, 1%Z) (public_ip plc_data)
        else get_tag_scan self tag (S i) rest
  end.

Definition get_tag (self : GenericPLC) (tag : string) : M Decimal :=
  if (py_in tag (plc_sensors self) || py_in tag (plc_actuators self))%bool
  then get (tag, 1%Z)
  else get_tag_scan self tag 0 (intermediate_yaml_plcs self).

Definition set_tag (self : GenericPLC) (tag : string) (value : pyval) : M unit :=
  value' ← (if is_str_lower value "closed" then mret 0%Z
            else if is_str_lower value "open" then mret 1%Z
            else raise (InvalidControlValue value));
  if (py_in tag (plc_sensors self) || py_in tag (plc_actuators self))%bool
  then set (tag, 1%Z) value'
  else raise (TagDoesNotExist (tag +:+ " cannot be set from " +:+ plc_name self)).

(** *** The sync table and the master clock *)

(** What a statement on this connection sees: its own open transaction, or
    the committed database. *)
Definition view (w : World) : Tables :=
  match txn w with
  | Some t => t
  | None => db w
  end.

(** [cur.fetchone()[0]] after a [SELECT col FROM t WHERE key IS k]: the
    first matching row; subscripting [None] when there is none. *)
Definition fetchone_0 {K} `{EqDecision K} (rows : list (K * Z)) (k : K) : result Z :=
  match filter (fun row => row.1 = k) rows with
  | row :: _ => Ok row.2
  | [] => Raise TypeError
  end.

Definition get_master_clock (self : GenericPLC) : M Z := fun w =>
  (fetchone_0 (master_time (view w)) 1%Z, w).

Definition get_sync (self : GenericPLC) : M bool := fun w =>
  match fetchone_0 (sync (view w)) (plc_name self) with
  | Ok flag =>
      let flag := py_bool (VInt flag) in
      (Ok flag, with_event (EvGetSync flag) w)
  | Raise e => (Raise e, w)
  end.

(** [UPDATE sync SET flag=? WHERE name IS ?] *)
Definition update_sync (flag : Z) (who : string) (rows : list (string * Z))
  : list (string * Z) :=
  map (fun row => if decide (row.1 = who) then (row.1, flag) else row) rows.

(** An integer parameter is bound as an sqlite INTEGER, a signed 64-bit
    number; the binding refuses any other int. *)
Definition in_int64 (v : Z) : bool := ((- 2 ^ 63 <=? v) && (v <? 2 ^ 63))%Z.

(** [self.cur.execute("UPDATE sync SET flag=? WHERE name IS ?", (flag, who))]:
    when the flag cannot be bound the statement raises [OverflowError] and
    is not run. *)
Definition execute_update_sync (flag : Z) (who : string) : M unit := fun w =>
  if in_int64 flag then
    let t := view w in
    (Ok tt, with_event (EvExecuteUpdateSync flag who)
              (with_db (db w) (Some (mkTables (update_sync flag who (sync t))
                                              (master_time t))) w))
  else (Raise OverflowError, w).

(** [self.conn.commit()] *)
Definition commit : M unit := fun w =>
  (Ok tt, with_event EvCommit (with_db (view w) None w)).

Definition set_sync (self : GenericPLC) (flag : int_arg) : M unit :=
  match py_int flag with
  | Raise e => raise e
  | Ok v =>
      execute_update_sync v (plc_name self);;
      commit
  end.

(** [time.sleep(0.01)]: ten milliseconds. *)
Definition sleep_10ms : M unit := emit (EvSleep 10).

(** *** Rule application and the main loop *)

Definition control_actuator (c : Control) : pyval :=
  match c with
  | AboveControl actuator _ _ _ | BelowControl actuator _ _ _
  | TimeControl actuator _ _ => actuator
  end.

Definition control_action (c : Control) : pyval :=
  match c with
  | AboveControl _ action _ _ | BelowControl _ action _ _
  | TimeControl _ action _ => action
  end.

Definition attack_actuators (a : Attack) : pyval :=
  match a with
  | TimeAttack _ actuators _ _ _ | TriggerAboveAttack _ actuators _ _ _
  | TriggerBelowAttack _ actuators _ _ _
  | TriggerBetweenAttack _ actuators _ _ _ _ => actuators
  end.

Definition attack_command (a : Attack) : pyval :=
  match a with
  | TimeAttack _ _ command _ _ | TriggerAboveAttack _ _ command _ _
  | TriggerBelowAttack _ _ command _ _
  | TriggerBetweenAttack _ _ command _ _ _ => command
  end.

(** The actuators an attack writes: the list it was configured with, or
    the single actuator named. *)
Definition attack_targets (a : Attack) : result (list string) :=
  match attack_actuators a with
  | VList l => Ok l
  | VStr s => Ok [s]
  | _ => Raise TypeError
  end.

(** The simulator and the other PLC processes change the committed
    database between two polls of this process. *)
Definition interfere (e : Tables -> Tables) : M unit := fun w =>
  (Ok tt, with_db (e (db w)) (txn w) w).

(** What a rule can read when it evaluates its trigger condition: the
    local tag values, the answers of the peers, and the database. *)
Record Observable := mkObservable {
  seen_tags : gmap (string * Z) Decimal;
  seen_network : string -> string * Z -> result Decimal;
  seen_tables : Tables
}.

Definition observe (w : World) : Observable :=
  mkObservable (tags w) (network w) (view w).

Section RuleEngine.

(** The trigger conditions of the rule types are a plug-in of the rule
    engine: whether a rule's condition holds is a function of what the
    rule can read at the instant of evaluation, and the evaluation fails
    when a tag it reads does not resolve. *)
Variable control_condition : Control -> GenericPLC -> Observable -> result bool.
Variable attack_condition : Attack -> GenericPLC -> Observable -> result bool.

(** Modelled from the spec: [Control.apply] of [entities.control], which
    is not part of the sources at hand. The rule computes whether its
    trigger condition is true right now and, if so, writes its target
    actuator through [set_tag]; failures propagate to the caller. *)
Definition control_apply (c : Control) (self : GenericPLC) : M unit :=
  triggered ← (fun w => (control_condition c self (observe w), w));
  if triggered : bool then
    match control_actuator c with
    | VStr actuator => set_tag self actuator (control_action c)
    | _ => raise TypeError
    end
  else mret tt.

(** Modelled from the spec: [DeviceAttack.apply] of [entities.attack],
    which is not part of the sources at hand. An active attack writes its
    command to its actuators through [set_tag]. *)
Definition attack_apply (a : Attack) (self : GenericPLC) : M unit :=
  triggered ← (fun w => (attack_condition a self (observe w), w));
  if triggered : bool then
    actuators ← lift (attack_targets a);
    for_each actuators (fun actuator => set_tag self actuator (attack_command a))
  else mret tt.

(** [while self.get_sync(): time.sleep(0.01)]. The loop is run against
    [env], what the rest of the testbed does to the database before each
    poll; [None] when the flag is still set after the last of them. *)
Fixpoint wait_for_release (self : GenericPLC) (env : list (Tables -> Tables))
  : M (option (list (Tables -> Tables))) :=
  match env with
  | [] => mret None
  | e :: env' =>
      interfere e;;
      flag ← get_sync self;
      if flag : bool then sleep_10ms;; wait_for_release self env'
      else mret (Some env')
  end.

(** [for control in cs: control.apply(self)] *)
Definition apply_controls (self : GenericPLC) (cs : list Control) : M unit :=
  for_each cs (fun control =>
    emit (EvControl control);; control_apply control self).

(** [for attack in ats: attack.apply(self)] *)
Definition apply_attacks (self : GenericPLC) (ats : list Attack) : M unit :=
  for_each ats (fun attack =>
    emit (EvAttack attack);; attack_apply attack self).

(** The two loops of the [while True] body, one after the other. *)
Definition apply_rules (self : GenericPLC) : M unit :=
  apply_controls self (controls self);;
  apply_attacks self (attacks self).

(** One pass of the body of [while True]. *)
Definition main_loop_iteration (self : GenericPLC) (env : list (Tables -> Tables))
  : M (option (list (Tables -> Tables))) :=
  released ← wait_for_release self env;
  match released with
  | None => mret None
  | Some env' =>
      apply_rules self;;
      set_sync self (OfInt 1);;
      mret (Some env')
  end.

(** [main_loop]: at most [iterations] passes; [test_break] leaves after
    the first. *)
Fixpoint main_loop (iterations : nat) (self : GenericPLC) (test_break : bool)
  (env : list (Tables -> Tables)) : M unit :=
  match iterations with
  | O => mret tt
  | S n =>
      r ← main_loop_iteration self env;
      match r with
      | None => mret tt
      | Some env' => if test_break then mret tt else main_loop n self test_break env'
      end
  end.

End RuleEngine.

End GenericPLC.

(** ** plc2.py *)

Module PLC2.

(** A cell of the telemetry table. *)
Inductive cell :=
| CStr (s : string)
| CInt (z : Z)
| CDatetime (microseconds : Z)
| CDecimal (d : Decimal).

(** What [csv.writer(f).writerows(rows)] leaves in a file opened with
    mode ['w']: the rows as comma-delimited text, one line per row; or,
    when the write fails after the file was opened (and so emptied), some
    leading part of that text, possibly none of it. *)
Inductive file_content :=
| CsvText (rows : list (list cell))
| PartOf (rows : list (list cell)).

(** What the file system does to [write_output]: it takes the write, or
    [open] raises [IOError] (no directory, no permission), or the write
    or the closing flush raises it after the file was opened. *)
Inductive disk :=
| Written
| OpenFails (msg : string)
| WriteFails (msg : string).

Definition refused (d : disk) : bool :=
  match d with
  | Written => false
  | _ => true
  end.

(** Where a signal reaches the main loop: between two statements, outside
    the [try] block; or inside the [try] block of the statement that runs
    next, with the value [self.t1] has been assigned there, if the
    assignment was already done. *)
Inductive landing :=
| BetweenStatements
| InTry (assigned : option Decimal).

(** How a signal handler ends: at [sys.exit(code)], or with an exception
    that surfaces in the code it interrupted. *)
Inductive handler_end :=
| SysExit (code : Z)
| Propagates (e : exn).

Inductive signal := SIGINT | SIGTERM.

Inductive status :=
| Running
| Exited (code : Z)
| Aborted.

(** The statement of the [while True] body that runs next. *)
Inductive program_point :=
| AtGet        (* try: with self.lock: self.t1 = Decimal(self.get(T1)) *)
| AtIncrement  (* self.local_time += 1 *)
| AtAppend     (* self.saved_tank_levels.append([...]) *)
| AtReset.     (* get_error_counter = 0 *)

(** The process: the attributes of [self], the locals of [main_loop], the
    installed signal handlers and what the process has printed and written. *)
Record Process := mkProcess {
  local_time : Z;
  reader : bool;
  saved_tank_levels : list (list cell);
  t1 : option Decimal;
  get_error_counter : Z;
  at_point : program_point;
  sigint_handler_installed : bool;
  sigterm_handler_installed : bool;
  stdout : list string;
  files : gmap string file_content;
  state : status
}.

Definition get_error_counter_limit : Z := 100.

Definition output_path : string := "output/plc2_saved_tank_levels_received.csv".

Definition header : list cell := [CStr "iteration"; CStr "timestamp"; CStr "T1"].

(** A process before [pre_loop]: no handler installed, nothing written. *)
Definition boot (fs : gmap string file_content) : Process :=
  mkProcess 0 false [] None 0 AtGet false false [] fs Running.

Definition print (line : string) (p : Process) : Process :=
  mkProcess (local_time p) (reader p) (saved_tank_levels p) (t1 p)
    (get_error_counter p) (at_point p) (sigint_handler_installed p)
    (sigterm_handler_installed p) (stdout p ++ [line]) (files p) (state p).

Definition set_state (s : status) (p : Process) : Process :=
  mkProcess (local_time p) (reader p) (saved_tank_levels p) (t1 p)
    (get_error_counter p) (at_point p) (sigint_handler_installed p)
    (sigterm_handler_installed p) (stdout p) (files p) s.

Definition set_loop (counter : Z) (pt : program_point) (p : Process) : Process :=
  mkProcess (local_time p) (reader p) (saved_tank_levels p) (t1 p)
    counter pt (sigint_handler_installed p)
    (sigterm_handler_installed p) (stdout p) (files p) (state p).

Definition set_file (content : file_content) (p : Process) : Process :=
  mkProcess (local_time p) (reader p) (saved_tank_levels p) (t1 p)
    (get_error_counter p) (at_point p) (sigint_handler_installed p)
    (sigterm_handler_installed p) (stdout p)
    (<[output_path := content]> (files p)) (state p).

(** [write_output]: the message is printed, then the whole of
    [saved_tank_levels] replaces the file, if the file system takes it. *)
Definition write_output (d : disk) (p : Process) : result unit * Process :=
  let p := print "DEBUG plc2 shutdown" p in
  match d with
  | Written => (Ok tt, set_file (CsvText (saved_tank_levels p)) p)
  | OpenFails msg => (Raise (IOError msg), p)
  | WriteFails msg => (Raise (IOError msg), set_file (PartOf (saved_tank_levels p)) p)
  end.

(** [sigint_handler]: [self.write_output()] then [sys.exit(0)], which is
    not reached when [write_output] raises. *)
Definition sigint_handler (d : disk) (p : Process) : handler_end * Process :=
  match write_output d p with
  | (Ok _, p) => (SysExit 0, p)
  | (Raise e, p) => (Propagates e, p)
  end.

(** [pre_loop], given what [self.get(T1)] answers. A failing read is not
    caught: the process ends there, handlers already installed. *)
Definition pre_loop (first_read : result Decimal) (p : Process) : Process :=
  let p := print "DEBUG: plc2 enters pre_loop" p in
  let p := mkProcess 0 true [header] (t1 p) (get_error_counter p) (at_point p)
             true true (stdout p) (files p) (state p) in
  match first_read with
  | Ok v =>
      mkProcess (local_time p) (reader p) (saved_tank_levels p) (Some v)
        (get_error_counter p) (at_point p) (sigint_handler_installed p)
        (sigterm_handler_installed p) (stdout p) (files p) (state p)
  | Raise _ => set_state Aborted p
  end.

(** What the environment supplies to one statement: the answer of
    [self.get(T1)] and the value of [datetime.now()]. *)
Record input := mkInput {
  read : result Decimal;
  now : Z
}.

(** One statement of the loop body. *)
Definition step (i : input) (p : Process) : Process :=
  match state p with
  | Running =>
      match at_point p with
      | AtGet =>
          match read i with
          | Ok v =>
              mkProcess (local_time p) (reader p) (saved_tank_levels p) (Some v)
                (get_error_counter p) AtIncrement (sigint_handler_installed p)
                (sigterm_handler_installed p) (stdout p) (files p) (state p)
          | Raise _ =>
              let counter := (get_error_counter p + 1)%Z in
              if (counter <? get_error_counter_limit)%Z then set_loop counter AtGet p
              else
                set_state (Exited 0)
                  (print "PLC process encountered errors, aborting process"
                     (set_loop counter AtGet p))
          end
      | AtIncrement =>
          mkProcess (local_time p + 1) (reader p) (saved_tank_levels p) (t1 p)
            (get_error_counter p) AtAppend (sigint_handler_installed p)
            (sigterm_handler_installed p) (stdout p) (files p) (state p)
      | AtAppend =>
          match t1 p with
          | Some v =>
              let row := [CInt (local_time p); CDatetime (now i); CDecimal v] in
              mkProcess (local_time p) (reader p) (saved_tank_levels p ++ [row])
                (t1 p) (get_error_counter p) AtReset (sigint_handler_installed p)
                (sigterm_handler_installed p) (stdout p) (files p) (state p)
          | None => set_state Aborted p
          end
      | AtReset => set_loop 0 AtGet p
      end
  | _ => p
  end.

(** One pass of the [while True] body: a failed read goes back to the top
    ([continue]) or exits; a successful one runs the three statements after
    the [try]. *)
Definition main_loop_iteration (i : input) (p : Process) : Process :=
  match read i with
  | Raise _ => step i p
  | Ok _ => step i (step i (step i (step i p)))
  end.

Fixpoint main_loop_from (inputs : list input) (p : Process) : Process :=
  match inputs with
  | [] => p
  | i :: rest => main_loop_from rest (main_loop_iteration i p)
  end.

(** [main_loop], run against the answers of the environment: the locals
    are initialised, then the body repeats. *)
Definition main_loop (inputs : list input) (p : Process) : Process :=
  main_loop_from inputs (set_loop 0 AtGet p).

(** The process seen statement by statement, with signals arriving between
    statements. *)
Inductive occurrence :=
| Statement (i : input)
| Signal (s : signal) (d : disk) (at_ : landing).

(** The assignment of the [try] block, when the signal comes after it. *)
Definition assign_t1 (assigned : option Decimal) (p : Process) : Process :=
  match assigned with
  | Some v =>
      mkProcess (local_time p) (reader p) (saved_tank_levels p) (Some v)
        (get_error_counter p) (at_point p) (sigint_handler_installed p)
        (sigterm_handler_installed p) (stdout p) (files p) (state p)
  | None => p
  end.

(** An exception of the handler surfaces where the signal landed. Inside
    the [try] block it is caught by [except Exception], as a failed read
    is: the counter goes up and the loop continues, or exits at the limit.
    Anywhere else nothing catches it and the process ends with it. *)
Definition surface (e : exn) (at_ : landing) (p : Process) : Process :=
  match at_, at_point p with
  | InTry _, AtGet => step (mkInput (Raise e) 0) p
  | _, _ => set_state Aborted p
  end.

(** Delivery of a signal: the installed handler runs, and the process
    exits where the handler reaches [sys.exit]; without a handler the
    process is ended by the default action. A signal can land inside the
    [try] block only when the [try] statement is the one that runs next. *)
Definition deliver (s : signal) (d : disk) (at_ : landing) (p : Process) : Process :=
  match state p with
  | Running =>
      let installed := match s with
                       | SIGINT => sigint_handler_installed p
                       | SIGTERM => sigterm_handler_installed p
                       end in
      if installed then
        let p := match at_, at_point p with
                 | InTry assigned, AtGet => assign_t1 assigned p
                 | _, _ => p
                 end in
        match sigint_handler d p with
        | (SysExit code, p) => set_state (Exited code) p
        | (Propagates e, p) => surface e at_ p
        end
      else set_state Aborted p
  | _ => p
  end.

Definition occur (o : occurrence) (p : Process) : Process :=
  match o with
  | Statement i => step i p
  | Signal s d at_ => deliver s d at_ p
  end.

Definition run (os : list occurrence) (p : Process) : Process :=
  fold_left (fun p o => occur o p) os p.

(** *** The two threads of the process

    [pre_loop] starts [send_system_state] in a second thread; both threads
    use [self.t1]. The view below keeps what matters for the lock: who holds
    [self.lock], where each thread is, and every access to [self.t1] together
    with the holder of the lock at that instant. *)

Inductive thread := MainLoop | SendSystemState.

Inductive main_point :=
| MEnter     (* with self.lock: -- acquire *)
| MAssign    (* self.t1 = Decimal(self.get(T1)) *)
| MExit      (* end of the with block -- release *)
| MAfter.    (* self.saved_tank_levels.append([..., self.t1]) *)

Inductive sender_point :=
| SWhile     (* while self.reader: *)
| SSend.     (* self.send(T1, self.t1, ENIP_LISTEN_PLC_ADDR) *)

Inductive access_kind := ReadT1 | WriteT1.

Record access := mkAccess {
  by_thread : thread;
  kind : access_kind;
  lock_holder : option thread
}.

Record Threads := mkThreads {
  lock : option thread;
  main_at : main_point;
  sender_at : sender_point;
  shared_t1 : Decimal;
  sent : list Decimal;
  accesses : list access
}.

(** One atomic step of the main loop; [answer] is what [self.get(T1)]
    returns when the step is the assignment. A thread that waits for the
    lock does not move. *)
Definition main_step (answer : result Decimal) (s : Threads) : Threads :=
  match main_at s with
  | MEnter =>
      match lock s with
      | None => mkThreads (Some MainLoop) MAssign (sender_at s) (shared_t1 s)
                  (sent s) (accesses s)
      | Some _ => s
      end
  | MAssign =>
      match answer with
      | Ok v => mkThreads (lock s) MExit (sender_at s) v (sent s)
                  (accesses s ++ [mkAccess MainLoop WriteT1 (lock s)])
      | Raise _ => mkThreads None MEnter (sender_at s) (shared_t1 s) (sent s)
                     (accesses s)
      end
  | MExit => mkThreads None MAfter (sender_at s) (shared_t1 s) (sent s) (accesses s)
  | MAfter => mkThreads (lock s) MEnter (sender_at s) (shared_t1 s) (sent s)
                (accesses s ++ [mkAccess MainLoop ReadT1 (lock s)])
  end.

(** One atomic step of [send_system_state]: no statement of it touches
    [self.lock]. *)
Definition sender_step (s : Threads) : Threads :=
  match sender_at s with
  | SWhile => mkThreads (lock s) (main_at s) SSend (shared_t1 s) (sent s) (accesses s)
  | SSend => mkThreads (lock s) (main_at s) SWhile (shared_t1 s)
               (sent s ++ [shared_t1 s])
               (accesses s ++ [mkAccess SendSystemState ReadT1 (lock s)])
  end.

(** A schedule picks the thread that moves next. *)
Inductive move :=
| Main (answer : result Decimal)
| Sender.

Definition thread_step (m : move) (s : Threads) : Threads :=
  match m with
  | Main answer => main_step answer s
  | Sender => sender_step s
  end.

Definition interleave (schedule : list move) (s : Threads) : Threads :=
  fold_left (fun s m => thread_step m s) schedule s.

(** The threads right after [thread.start_new_thread]. *)
Definition started (v : Decimal) : Threads :=
  mkThreads None MEnter SWhile v [] [].

(** An access is guarded when its thread holds the lock at that instant. *)
Definition guarded (a : access) : bool :=
  match lock_holder a with
  | Some MainLoop => match by_thread a with MainLoop => true | _ => false end
  | Some SendSystemState =>
      match by_thread a with SendSystemState => true | _ => false end
  | None => false
  end.

(** *** Vocabulary of the statements about plc2.py *)

(** The rows a run of complete passes adds to the table: one per pass
    with a successful read, numbered from [n + 1], with the time and the
    value of that pass. *)
Fixpoint telemetry (n : Z) (inputs : list input) : list (list cell) :=
  match inputs with
  | [] => []
  | i :: rest =>
      match read i with
      | Ok v => [CInt (n + 1); CDatetime (now i); CDecimal v] :: telemetry (n + 1) rest
      | Raise _ => telemetry n rest
      end
  end.


Definition failed (i : input) : Prop := exists e, read i = Raise e.


(** The process that enters [main_loop] after a [pre_loop] whose read
    answered [v0], over the files [fs]. *)
Definition entered (fs : gmap string file_content) (v0 : Decimal) : Process :=
  set_loop 0 AtGet (pre_loop (Ok v0) (boot fs)).

(** The discipline of the lock as the code has it: the sender never holds
    it, the main loop holds it from the entry of the [with] block to its
    exit, every write of the main loop is guarded and no access of the
    sender is. *)
Definition lock_discipline (s : Threads) : Prop :=
  lock s <> Some SendSystemState /\
  (main_at s = MAssign \/ main_at s = MExit -> lock s = Some MainLoop) /\
  Forall (fun a => match by_thread a, kind a with
                   | MainLoop, WriteT1 => guarded a = true
                   | MainLoop, ReadT1 => True
                   | SendSystemState, _ => guarded a = false
                   end) (accesses s).

End PLC2.

(** ** Vocabulary of the statements *)

Module Spec.
Import GenericPLC.

(** The binary value [set_tag] stores for a control value, if any. *)
Definition control_value (value : pyval) : option Z :=
  if is_str_lower value "closed" then Some 0%Z
  else if is_str_lower value "open" then Some 1%Z
  else None.

(** A PLC owns the tags of its own sensors and actuators lists. *)
Definition owns (self : GenericPLC) (tag : string) : Prop :=
  tag ∈ plc_sensors self ∨ tag ∈ plc_actuators self.

(** A descriptor declares a tag when one of its lists has it. *)
Definition declares_tag (tag : string) (d : plc_data) : bool :=
  (py_in tag (default [] (sensors d)) || py_in tag (default [] (actuators d)))%bool.

(** A descriptor that carries both lists. *)
Definition has_lists (d : plc_data) : Prop :=
  is_Some (sensors d) ∧ is_Some (actuators d).

(** The first descriptor that declares [tag], in list order from position
    [i] on, the position [own] left out. *)
Fixpoint first_declaring (own : Z) (tag : string) (i : nat) (plcs : list plc_data)
  : option plc_data :=
  match plcs with
  | [] => None
  | d :: rest =>
      if (negb (Z.of_nat i =? own)%Z && declares_tag tag d)%bool then Some d
      else first_declaring own tag (S i) rest
  end.

(** A control writes the actuator it names; an attack writes each of its
    actuators. *)
Definition control_writes (c : Control) (actuator : string) : Prop :=
  control_actuator c = VStr actuator.

Definition attack_writes (a : Attack) (actuator : string) : Prop :=
  exists targets, attack_targets a = Ok targets /\ actuator ∈ targets.

(** [k] polls that read the flag as set, each followed by the sleep. *)
Fixpoint polls (k : nat) : list event :=
  match k with
  | O => []
  | S k' => EvGetSync true :: EvSleep 10 :: polls k'
  end.

(** The world once the rest of the testbed has made [changes] to the
    committed database, and what a poll of the own flag reads there. *)
Definition after_changes (changes : list (Tables -> Tables)) (w : World) : World :=
  with_db (fold_left (fun t e => e t) changes (db w)) (txn w) w.

Definition poll_reads (self : GenericPLC) (changes : list (Tables -> Tables))
  (w : World) : result Z :=
  fetchone_0 (sync (view (after_changes changes w))) (plc_name self).

(** The rules of a PLC in the order one pass calls them: the controls,
    then the attacks. *)
Inductive rule :=
| OfControl (c : Control)
| OfAttack (a : Attack).

Definition rules_of (self : GenericPLC) : list rule :=
  map OfControl (controls self) ++ map OfAttack (attacks self).

Definition rule_event (r : rule) : event :=
  match r with
  | OfControl c => EvControl c
  | OfAttack a => EvAttack a
  end.

(** The events that record the call of a rule. *)
Definition is_rule_call (ev : event) : bool :=
  match ev with
  | EvControl _ | EvAttack _ => true
  | _ => false
  end.

Definition rule_writes (r : rule) (actuator : string) : Prop :=
  match r with
  | OfControl c => control_writes c actuator
  | OfAttack a => attack_writes a actuator
  end.

(** The value a rule writes when it fires. *)
Definition rule_value (r : rule) : pyval :=
  match r with
  | OfControl c => control_action c
  | OfAttack a => attack_command a
  end.

(** A rule that can be applied without an error once its condition is
    known: it names actuators of this PLC and carries a control value. *)
Definition well_configured (self : GenericPLC) (r : rule) : Prop :=
  is_Some (control_value (rule_value r)) /\
  match r with
  | OfControl c => exists actuator, control_writes c actuator /\ owns self actuator
  | OfAttack a =>
      exists targets, attack_targets a = Ok targets /\
                      forall t, t ∈ targets -> owns self t
  end.

Section Rules.

Variable control_condition : Control -> GenericPLC -> Observable -> result bool.
Variable attack_condition : Attack -> GenericPLC -> Observable -> result bool.
Variable self : GenericPLC.

(** What the rule's condition evaluates to in a world. *)
Definition rule_condition (r : rule) (w : World) : result bool :=
  match r with
  | OfControl c => control_condition c self (observe w)
  | OfAttack a => attack_condition a self (observe w)
  end.

(** One turn of a loop of [main_loop] over the rule. *)
Definition rule_call (r : rule) : M unit :=
  match r with
  | OfControl c => emit (EvControl c);; control_apply control_condition c self
  | OfAttack a => emit (EvAttack a);; attack_apply attack_condition a self
  end.

(** The rules called one after the other, each in the world the one
    before it left. *)
Definition rule_calls (rules : list rule) : M unit := for_each rules rule_call.

End Rules.

(** The rule types the two factories know. *)
Definition control_types : list string := ["above"; "below"; "time"].
Definition attack_types : list string := ["time"; "above"; "below"; "between"].

(** The entry has a string under [type] whose lowercase is one of [types]. *)
Definition has_type_in (types : list string) (entry : pydict) : bool :=
  match type_lower entry with
  | Ok t => bool_decide (t ∈ types)
  | Raise _ => false
  end.

(** The control described by a configuration entry, if it describes one. *)
Definition control_of (entry : pydict) : option Control :=
  match type_lower entry with
  | Ok "above" =>
      actuator ← entry !! "actuator"; action ← entry !! "action";
      dependant ← entry !! "dependant"; value ← entry !! "value";
      Some (AboveControl actuator action dependant value)
  | Ok "below" =>
      actuator ← entry !! "actuator"; action ← entry !! "action";
      dependant ← entry !! "dependant"; value ← entry !! "value";
      Some (BelowControl actuator action dependant value)
  | Ok "time" =>
      actuator ← entry !! "actuator"; action ← entry !! "action";
      value ← entry !! "value";
      Some (TimeControl actuator action value)
  | _ => None
  end.

(** The attack described by a configuration entry, if it describes one. *)
Definition attack_of (entry : pydict) : option Attack :=
  match type_lower entry with
  | Ok "time" =>
      name ← entry !! "name"; actuators ← entry !! "actuators";
      command ← entry !! "command"; start ← entry !! "start";
      end_ ← entry !! "end";
      Some (TimeAttack name actuators command start end_)
  | Ok "above" =>
      name ← entry !! "name"; actuators ← entry !! "actuators";
      command ← entry !! "command"; sensor ← entry !! "sensor";
      value ← entry !! "value";
      Some (TriggerAboveAttack name actuators command sensor value)
  | Ok "below" =>
      name ← entry !! "name"; actuators ← entry !! "actuators";
      command ← entry !! "command"; sensor ← entry !! "sensor";
      value ← entry !! "value";
      Some (TriggerBelowAttack name actuators command sensor value)
  | Ok "between" =>
      name ← entry !! "name"; actuators ← entry !! "actuators";
      command ← entry !! "command"; sensor ← entry !! "sensor";
      lower_value ← entry !! "lower_value"; upper_value ← entry !! "upper_value";
      Some (TriggerBetweenAttack name actuators command sensor lower_value upper_value)
  | _ => None
  end.

(** A world without peers, with an empty database. *)
Definition quiet_world (store : gmap (string * Z) Decimal) : World :=
  mkWorld store (fun _ _ => Raise (IOError "no peer")) (mkTables [] []) None [].

End Spec.

(** ** Configurations and runs used to exercise the statements *)

Module Examples.
Import GenericPLC Spec.

Definition plc1_data : plc_data :=
  mkPlcData "PLC1" "10.0.0.1" (Some ["T1"]) (Some ["P1"]).

(** PLC1 alone: sensor T1, pump P1, no rules. *)
Definition plc1 : GenericPLC :=
  mkGenericPLC 0 [plc1_data] "PLC1" ["T1"] ["P1"] [] [].

(** An entry of the topology without an [actuators] key. *)
Definition plc2_no_actuators : plc_data :=
  mkPlcData "PLC2" "10.0.0.2" (Some ["T2"]) None.

Definition plc3_data : plc_data :=
  mkPlcData "PLC3" "10.0.0.3" (Some ["T3"]) (Some ["V3"]).

(** PLC1 in a topology whose second entry has no [actuators] key. *)
Definition plc1_of_three : GenericPLC :=
  mkGenericPLC 0 [plc1_data; plc2_no_actuators; plc3_data] "PLC1" ["T1"] ["P1"] [] [].

(** PLC1 in a topology whose entries all carry both lists. *)
Definition plc1_of_two : GenericPLC :=
  mkGenericPLC 0 [plc1_data; plc3_data] "PLC1" ["T1"] ["P1"] [] [].

(** A world in which every peer answers 7.5 for every tag. *)
Definition answering_world : World :=
  mkWorld {[ ("T1", 1%Z) := mkDecimal 125 (-1) ]} (fun _ _ => Ok (mkDecimal 75 (-1)))
          (mkTables [] []) None [].

(** PLC1 and PLC2 wait for the next step, PLC3 has signalled; the clock
    is at 41. *)
Definition idle_tables : Tables :=
  mkTables [("PLC1", 0%Z); ("PLC2", 0%Z); ("PLC3", 1%Z)] [(1%Z, 41%Z)].

Definition idle_world : World :=
  mkWorld ∅ (fun _ _ => Raise (IOError "no peer")) idle_tables None [].

(** PLC1 and PLC2 have signalled and wait for the simulator. *)
Definition busy_world : World :=
  mkWorld ∅ (fun _ _ => Raise (IOError "no peer"))
          (mkTables [("PLC1", 1%Z); ("PLC2", 1%Z)] [(1%Z, 41%Z)]) None [].

(** The simulator releases one PLC and advances the clock. *)
Definition release (who : string) (t : Tables) : Tables :=
  mkTables (update_sync 0 who (sync t))
           (map (fun row : Z * Z => (row.1, (row.2 + 1)%Z)) (master_time t)).

(** Two controls and one attack, all on pump P1. *)
Definition open_below : Control :=
  BelowControl (VStr "P1") (VStr "open") (VStr "T1") (VInt 10).
Definition close_above : Control :=
  AboveControl (VStr "P1") (VStr "closed") (VStr "T1") (VInt 20).
Definition force_open : Attack :=
  TimeAttack (VStr "attack1") (VList ["P1"]) (VStr "open") (VInt 5) (VInt 10).

Definition plc1_with_rules : GenericPLC :=
  mkGenericPLC 0 [plc1_data] "PLC1" ["T1"] ["P1"] [open_below; close_above] [force_open].

Definition plc1_two_controls : GenericPLC :=
  mkGenericPLC 0 [plc1_data] "PLC1" ["T1"] ["P1"] [open_below; close_above] [].

(** Conditions that hold whenever they are evaluated. *)
Definition always_control : Control -> GenericPLC -> Observable -> result bool :=
  fun _ _ _ => Ok true.
Definition always_attack : Attack -> GenericPLC -> Observable -> result bool :=
  fun _ _ _ => Ok true.

(** An attack outside its time window: its condition is false. *)
Definition never_attack : Attack -> GenericPLC -> Observable -> result bool :=
  fun _ _ _ => Ok false.

(** Three control entries, the middle one of an unknown type, and two
    attack entries, the first of an unknown type. *)
Definition entry_above : pydict :=
  {[ "type" := VStr "Above"; "actuator" := VStr "P1"; "action" := VStr "closed";
     "dependant" := VStr "T1"; "value" := VInt 20 ]}.
Definition entry_unknown : pydict :=
  {[ "type" := VStr "between"; "actuator" := VStr "P1" ]}.
Definition entry_time : pydict :=
  {[ "type" := VStr "TIME"; "actuator" := VStr "P1"; "action" := VStr "open";
     "value" := VInt 3600 ]}.
Definition attack_unknown : pydict :=
  {[ "type" := VStr "replay"; "name" := VStr "attack0" ]}.
Definition attack_between : pydict :=
  {[ "type" := VStr "Between"; "name" := VStr "attack1"; "actuators" := VList ["P1"];
     "command" := VStr "closed"; "sensor" := VStr "T1";
     "lower_value" := VInt 5; "upper_value" := VInt 15 ]}.

(** A read of T1 that fails, and one that answers a level at a time. *)
Definition timeout : PLC2.input := PLC2.mkInput (Raise (IOError "timed out")) 0.
Definition level (tenths : Z) (at_time : Z) : PLC2.input :=
  PLC2.mkInput (Ok (mkDecimal tenths (-1))) at_time.

End Examples.

(** ** generic_plc.py: tag lists and the constructor's rule set-up *)

Module Setup.
Import GenericPLC.

(** One [for x_tag in xs: if x_tag != "": real_tags.append((x_tag, 1, 'REAL'))]
    loop of [generate_real_tags]. *)
Fixpoint append_real_tags (real_tags : list (string * Z * string))
  (names : list string) : list (string * Z * string) :=
  match names with
  | [] => real_tags
  | tag :: rest =>
      append_real_tags
        (if String.eqb tag EmptyString then real_tags
         else real_tags ++ [(tag, 1%Z, "REAL")])
        rest
  end.

(** [generate_real_tags]: the three loops over the same list, the tuple
    returned as a list. *)
Definition generate_real_tags (sensors dependants actuators : list string)
  : list (string * Z * string) :=
  let real_tags := [] in
  let real_tags := append_real_tags real_tags sensors in
  let real_tags := append_real_tags real_tags dependants in
  append_real_tags real_tags actuators.

(** The loop of [generate_tags]: [if tag and tag != "": tags.append((tag, 1))]. *)
Fixpoint append_tags (tags : list (string * Z)) (taggable : list string)
  : list (string * Z) :=
  match taggable with
  | [] => tags
  | tag :: rest =>
      append_tags
        (if (negb (String.eqb tag EmptyString) && negb (String.eqb tag EmptyString))%bool
         then tags ++ [(tag, 1%Z)] else tags)
        rest
  end.

(** [generate_tags]: [taggable] may be [None]; [if taggable:] skips the
    loop for [None] and for the empty list. *)
Definition generate_tags (taggable : option (list string)) : list (string * Z) :=
  match taggable with
  | Some (tag :: rest) => append_tags [] (tag :: rest)
  | Some [] | None => []
  end.

(** [control["type"] != "Time"]: a value that is not a string differs from
    every string. *)
Definition is_not_Time (v : pyval) : bool :=
  match v with
  | VStr s => negb (String.eqb s "Time")
  | _ => true
  end.

(** The constructor's loop over [self.intermediate_controls] that collects
    the dependant sensors. *)
Fixpoint dependant_sensors_loop (dependant_sensors : list pyval)
  (intermediate_controls : list pydict) : result (list pyval) :=
  match intermediate_controls with
  | [] => mret dependant_sensors
  | control :: rest =>
      type ← getitem control "type";
      dependant_sensors' ←
        (if is_not_Time type then
           dependant ← getitem control "dependant";
           mret (dependant_sensors ++ [dependant])
         else mret dependant_sensors);
      dependant_sensors_loop dependant_sensors' rest
  end.

Definition dependant_sensors (intermediate_controls : list pydict)
  : result (list pyval) :=
  dependant_sensors_loop [] intermediate_controls.

(** The part of the constructor that turns the rule entries of the PLC's
    YAML entry into objects: [create_controls] on the [controls] list,
    [create_attacks] on the [attacks] list when the key is there, then the
    dependant sensors of the controls. The look-up of the database path in
    the top level of the YAML, which lies between, is not part of it. *)
Definition constructor_rules (intermediate_controls : list pydict)
  (attacks_entry : option (list pydict))
  : result (list Control * list Attack * list pyval) :=
  controls ← create_controls intermediate_controls;
  attacks ← match attacks_entry with
            | Some attack_list => create_attacks attack_list
            | None => mret []
            end;
  dependants ← dependant_sensors intermediate_controls;
  mret (controls, attacks, dependants).

(** *** Vocabulary *)

(** The names a tag list is built from: the non-empty ones, in order. *)
Definition named (names : list string) : list string :=
  filter (fun tag => tag <> EmptyString) names.

(** A change of the database by the rest of the testbed that leaves the
    flag a PLC reads for itself as it is, and one that clears it. *)
Definition quiet (who : string) (e : Tables -> Tables) : Prop :=
  forall t, fetchone_0 (sync (e t)) who = fetchone_0 (sync t) who.

Definition clears (who : string) (e : Tables -> Tables) : Prop :=
  forall t z, fetchone_0 (sync t) who = Ok z -> fetchone_0 (sync (e t)) who = Ok 0%Z.

(** A change of the database that leaves the master clock as it is. *)
Definition keeps_clock (e : Tables -> Tables) : Prop :=
  forall t, master_time (e t) = master_time t.

(** The simulator clears the flag of one PLC and leaves the clock. *)
Definition clear_flag (who : string) (t : Tables) : Tables :=
  mkTables (update_sync 0 who (sync t)) (master_time t).

(** The dependant an entry contributes to the constructor's scan. *)
Definition needs_dependant (control : pydict) : bool :=
  match control !! "type" with
  | Some type => is_not_Time type
  | None => false
  end.

(** The keys a rule of a known type is built from, in the order the
    factory looks them up, and the first of some keys that an entry lacks. *)
Definition control_keys (t : string) : list string :=
  if String.eqb t "time" then ["actuator"; "action"; "value"]
  else ["actuator"; "action"; "dependant"; "value"].

Definition attack_keys (t : string) : list string :=
  if String.eqb t "time" then ["name"; "actuators"; "command"; "start"; "end"]
  else if String.eqb t "between"
       then ["name"; "actuators"; "command"; "sensor"; "lower_value"; "upper_value"]
       else ["name"; "actuators"; "command"; "sensor"; "value"].

Fixpoint first_missing (keys : list string) (entry : pydict) : option string :=
  match keys with
  | [] => None
  | k :: rest =>
      match entry !! k with
      | Some _ => first_missing rest entry
      | None => Some k
      end
  end.

End Setup.

(** ** plc2.py: vocabulary for runs of reads and schedules *)

Module Runs.
Import PLC2.

(** The inputs begin with [n] failed reads; the inputs hold [n] failed
    reads in a row somewhere. *)
Definition starts_with_failures (n : nat) (inputs : list input) : Prop :=
  exists fails rest, inputs = fails ++ rest /\ length fails = n /\ Forall failed fails.

Definition has_failure_run (n : nat) (inputs : list input) : Prop :=
  exists before rest, inputs = before ++ rest /\ starts_with_failures n rest.

(** The values a schedule lets the main loop read from T1. *)
Definition read_in (schedule : list move) (v : Decimal) : Prop :=
  Main (Ok v) ∈ schedule.

End Runs.

(** ** Properties of generic_plc.py *)

Import GenericPLC Spec Examples.

(** *** set_tag *)

Lemma owns_py_in self tag :
  owns self tag <->
  (py_in tag (plc_sensors self) || py_in tag (plc_actuators self))%bool = true.
Proof.
  unfold owns, py_in. rewrite orb_true_iff, !bool_decide_eq_true. reflexivity.
Qed.

Lemma not_owns_py_in self tag :
  tag ∉ plc_sensors self -> tag ∉ plc_actuators self ->
  (py_in tag (plc_sensors self) || py_in tag (plc_actuators self))%bool = false.
Proof.
  intros Hs Ha. unfold py_in.
  rewrite (bool_decide_eq_false_2 _ Hs), (bool_decide_eq_false_2 _ Ha). reflexivity.
Qed.

(** [set_tag] first translates the value, then checks ownership. *)
Lemma set_tag_unfold self tag value w :
  set_tag self tag value w =
  match control_value value with
  | None => (Raise (InvalidControlValue value), w)
  | Some v =>
      if (py_in tag (plc_sensors self) || py_in tag (plc_actuators self))%bool
      then (Ok tt, with_tags (insert (tag, 1) (Decimal_of_int v)) w)
      else (Raise (TagDoesNotExist
                     (tag +:+ " cannot be set from " +:+ plc_name self)), w)
  end.
Proof.
  unfold set_tag, control_value, mbind, M_bind, mret, M_ret, raise, set.
  destruct (is_str_lower value "closed"); [ | destruct (is_str_lower value "open") ];
    try reflexivity;
    destruct (py_in tag (plc_sensors self) || py_in tag (plc_actuators self))%bool;
    reflexivity.
Qed.

Lemma control_value_open s : lower s = "open" -> control_value (VStr s) = Some 1.
Proof. intros H. unfold control_value. simpl. rewrite H. reflexivity. Qed.

Lemma control_value_closed s : lower s = "closed" -> control_value (VStr s) = Some 0.
Proof. intros H. unfold control_value. simpl. rewrite H. reflexivity. Qed.

Lemma control_value_other_string s :
  lower s <> "open" -> lower s <> "closed" -> control_value (VStr s) = None.
Proof.
  intros Ho Hc. unfold control_value. simpl.
  destruct (String.eqb_spec (lower s) "closed"); [ contradiction | ].
  destruct (String.eqb_spec (lower s) "open"); [ contradiction | ].
  reflexivity.
Qed.

Lemma control_value_not_string value :
  (forall s, value <> VStr s) -> control_value value = None.
Proof. intros H. destruct value; try reflexivity. exfalso. eapply H. reflexivity. Qed.

(** C1 (as amended). For an actuator tag [t] of the PLC, [set_tag] with a
    string that lowercases to "open" stores 1 under [(t, 1)], with a string
    that lowercases to "closed" stores 0, and leaves every other tag alone;
    every other value fails with [InvalidControlValue] and changes nothing:
    every other string, and every value that is not a string, the binary
    values 0 and 1 among them. *)
Theorem set_tag_symbolic_values_only self t w :
  t ∈ plc_actuators self ->
  (forall s z, (lower s = "open" /\ z = 1 \/ lower s = "closed" /\ z = 0) ->
     let r := set_tag self t (VStr s) w in
     r.1 = Ok tt /\
     tags r.2 !! (t, 1) = Some (Decimal_of_int z) /\
     (forall other, other <> (t, 1) -> tags r.2 !! other = tags w !! other)) /\
  (forall s, lower s <> "open" -> lower s <> "closed" ->
     set_tag self t (VStr s) w = (Raise (InvalidControlValue (VStr s)), w)) /\
  (forall value, (forall s, value <> VStr s) ->
     set_tag self t value w = (Raise (InvalidControlValue value), w)) /\
  (forall z, set_tag self t (VInt z) w = (Raise (InvalidControlValue (VInt z)), w)).
Proof.
  intros Hact.
  assert (Hown : (py_in t (plc_sensors self) || py_in t (plc_actuators self))%bool = true).
  { apply owns_py_in. right. exact Hact. }
  split; [ | split; [ | split ] ].
  - intros s z H r. subst r. rewrite set_tag_unfold.
    assert (Hv : control_value (VStr s) = Some z).
    { destruct H as [[Hs ->] | [Hs ->]];
        [ apply control_value_open | apply control_value_closed ]; exact Hs. }
    rewrite Hv, Hown. simpl. split; [ reflexivity | split ].
    + apply lookup_insert_eq.
    + intros other Hother. apply lookup_insert_ne. congruence.
  - intros s Ho Hc. rewrite set_tag_unfold, control_value_other_string; auto.
  - intros value Hv. rewrite set_tag_unfold, control_value_not_string; auto.
  - intros z. rewrite set_tag_unfold. reflexivity.
Qed.

Lemma set_tag_symbolic_values_only_witness :
  "P1" ∈ plc_actuators plc1 /\
  (set_tag plc1 "P1" (VStr "Open") (quiet_world ∅)).1 = Ok tt /\
  tags (set_tag plc1 "P1" (VStr "Open") (quiet_world ∅)).2 !! ("P1", 1)
    = Some (Decimal_of_int 1) /\
  tags (set_tag plc1 "P1" (VStr "CLOSED") (quiet_world ∅)).2 !! ("P1", 1)
    = Some (Decimal_of_int 0).
Proof.
  assert (Hin : "P1" ∈ plc_actuators plc1) by (vm_compute; left).
  pose proof (set_tag_symbolic_values_only plc1 "P1" (quiet_world ∅) Hin) as [H _].
  split; [ exact Hin | ].
  destruct (H "Open" 1 (or_introl (conj eq_refl eq_refl))) as (H1 & H2 & _).
  destruct (H "CLOSED" 0 (or_intror (conj eq_refl eq_refl))) as (_ & H3 & _).
  auto.
Defined.

(** C1, as stated, fails: a binary value does not have the effect of the
    symbolic one; [set_tag] rejects it. *)
Lemma set_tag_binary_value_rejected :
  set_tag plc1 "P1" (VInt 1) (quiet_world ∅)
    = (Raise (InvalidControlValue (VInt 1)), quiet_world ∅) /\
  ~ (forall self t w, t ∈ plc_actuators self ->
       set_tag self t (VInt 1) w = set_tag self t (VStr "open") w).
Proof.
  split; [ reflexivity | ].
  intros H.
  assert (Hin : "P1" ∈ plc_actuators plc1) by (vm_compute; left).
  specialize (H plc1 "P1" (quiet_world ∅) Hin).
  apply (f_equal fst) in H. vm_compute in H. discriminate H.
Qed.

(** C2 (as amended). For a tag that is in neither of the PLC's lists,
    [set_tag] fails for every value and changes nothing: with
    [TagDoesNotExist] when the value is a string that lowercases to "open"
    or "closed", and with [InvalidControlValue] for every other value. *)
Theorem set_tag_unowned_fails self t value w :
  t ∉ plc_sensors self -> t ∉ plc_actuators self ->
  set_tag self t value w =
  (Raise (match control_value value with
          | Some _ => TagDoesNotExist (t +:+ " cannot be set from " +:+ plc_name self)
          | None => InvalidControlValue value
          end), w).
Proof.
  intros Hs Ha. rewrite set_tag_unfold, (not_owns_py_in _ _ Hs Ha).
  destruct (control_value value); reflexivity.
Qed.

Lemma set_tag_unowned_fails_witness :
  set_tag plc1 "V9" (VStr "closed") (quiet_world ∅) =
  (Raise (TagDoesNotExist "V9 cannot be set from PLC1"), quiet_world ∅).
Proof.
  apply (set_tag_unowned_fails plc1 "V9" (VStr "closed") (quiet_world ∅));
    (apply not_elem_of_cons; split; [ discriminate | apply not_elem_of_nil ]).
Defined.

(** C2, as stated, fails: with a value that is not a control value the
    error is [InvalidControlValue], whoever owns the tag. *)
Lemma set_tag_unowned_invalid_value :
  set_tag plc1 "V9" (VStr "half") (quiet_world ∅)
    = (Raise (InvalidControlValue (VStr "half")), quiet_world ∅) /\
  ~ (forall self t value w,
       t ∉ plc_sensors self -> t ∉ plc_actuators self ->
       exists msg, (set_tag self t value w).1 = Raise (TagDoesNotExist msg)).
Proof.
  split; [ reflexivity | ].
  intros H.
  destruct (H plc1 "V9" (VStr "half") (quiet_world ∅)) as [msg Hmsg].
  - apply not_elem_of_cons. split; [ discriminate | apply not_elem_of_nil ].
  - apply not_elem_of_cons. split; [ discriminate | apply not_elem_of_nil ].
  - vm_compute in Hmsg. discriminate Hmsg.
Qed.

(** *** get_tag *)

(** A tag of the PLC's own lists is read from the local store, without
    any network read. *)
Lemma get_tag_local self tag w :
  owns self tag -> get_tag self tag w = get (tag, 1) w.
Proof.
  intros H. apply owns_py_in in H. unfold get_tag. rewrite H. reflexivity.
Qed.

Lemma get_keeps_world what w : (get what w).2 = w.
Proof. unfold get. destruct (tags w !! what); reflexivity. Qed.

Lemma declares_with_lists tag d w :
  has_lists d -> declares tag d w = (Ok (declares_tag tag d), w).
Proof.
  intros [[ss Hs] [acts Ha]]. unfold declares, declares_tag. rewrite Hs, Ha. simpl.
  destruct (py_in tag ss); reflexivity.
Qed.

(** Over descriptors that carry both lists, the scan answers with one
    network read from the first descriptor that declares the tag, and with
    [TagDoesNotExist] when there is none. *)
Lemma get_tag_scan_first_declaring self tag plcs : forall i w,
  Forall has_lists plcs ->
  get_tag_scan self tag i plcs w =
  match first_declaring (yaml_index self) tag i plcs with
  | Some d => receive (tag, 1) (public_ip d) w
  | None => (Raise (TagDoesNotExist tag), w)
  end.
Proof.
  induction plcs as [ | d rest IH ]; intros i w Hall; simpl.
  - reflexivity.
  - inversion Hall as [ | ? ? Hd Hrest ]; subst.
    destruct (Z.of_nat i =? yaml_index self)%Z; simpl.
    + apply IH. exact Hrest.
    + unfold mbind, M_bind. rewrite (declares_with_lists _ _ _ Hd).
      destruct (declares_tag tag d); [ reflexivity | apply IH; exact Hrest ].
Qed.

(** The resolution order of [get_tag] over a topology whose descriptors
    carry both lists: local tags locally, other tags by exactly one network
    read from the first declaring descriptor, [TagDoesNotExist] otherwise. *)
Lemma get_tag_resolution self tag w :
  Forall has_lists (intermediate_yaml_plcs self) ->
  (owns self tag ->
     get_tag self tag w = get (tag, 1) w /\ (get_tag self tag w).2 = w) /\
  (~ owns self tag ->
     match first_declaring (yaml_index self) tag 0 (intermediate_yaml_plcs self) with
     | Some d =>
         get_tag self tag w =
           (network w (public_ip d) (tag, 1),
            with_event (EvReceive (tag, 1) (public_ip d)) w)
     | None => get_tag self tag w = (Raise (TagDoesNotExist tag), w)
     end).
Proof.
  intros Hall. split.
  - intros Hown. rewrite (get_tag_local _ _ _ Hown). split; [ reflexivity | ].
    apply get_keeps_world.
  - intros Hnot.
    assert (Hb : (py_in tag (plc_sensors self) || py_in tag (plc_actuators self))%bool
                 = false).
    { destruct (py_in tag (plc_sensors self) || py_in tag (plc_actuators self))%bool eqn:E;
        [ | reflexivity ].
      exfalso. apply Hnot. apply owns_py_in. exact E. }
    unfold get_tag. rewrite Hb.
    rewrite (get_tag_scan_first_declaring _ _ _ _ _ Hall).
    destruct (first_declaring _ _ _ _); reflexivity.
Qed.

(** The PLC objects of the examples are what the constructor makes of
    their topologies. *)
Example attach_examples :
  attach [plc1_data; plc2_no_actuators; plc3_data] 0 [] [] = Ok plc1_of_three /\
  attach [plc1_data; plc3_data] 0 [] [] = Ok plc1_of_two.
Proof. split; reflexivity. Qed.

(** The constructor leaves the PLC's own entry with both lists. *)
Lemma attach_own_entry plcs index cs ats self :
  attach plcs index cs ats = Ok self ->
  exists d, intermediate_yaml_plcs self !! index = Some d /\ has_lists d /\
            sensors d = Some (plc_sensors self) /\
            actuators d = Some (plc_actuators self).
Proof.
  unfold attach. destruct (plcs !! index) as [d | ] eqn:Hd; [ | discriminate ].
  intros H. injection H as <-. exists (own_entry d). cbn.
  split; [ apply list_lookup_insert_eq; eapply lookup_lt_Some; exact Hd | ].
  split; [ split; eexists; reflexivity | split; reflexivity ].
Qed.

Example get_tag_remote_example :
  get_tag plc1_of_two "V3" answering_world =
  (Ok (mkDecimal 75 (-1)), with_event (EvReceive ("V3", 1) "10.0.0.3") answering_world).
Proof. reflexivity. Qed.

(** C3: the code at the failing input. PLC3 declares T3, and the entry
    before it has no [actuators] key: the scan stops there with [KeyError],
    no network read is issued. For a tag that no descriptor declares the
    error is [KeyError] as well, not [TagDoesNotExist]. *)
Theorem get_tag_peer_without_actuators :
  first_declaring 0 "T3" 0 (intermediate_yaml_plcs plc1_of_three) = Some plc3_data /\
  get_tag plc1_of_three "T3" answering_world
    = (Raise (KeyError "actuators"), answering_world) /\
  first_declaring 0 "T9" 0 (intermediate_yaml_plcs plc1_of_three) = None /\
  get_tag plc1_of_three "T9" answering_world
    = (Raise (KeyError "actuators"), answering_world).
Proof. repeat split. Qed.

(** *** set_sync *)



Lemma fetchone_0_update_own v who rows :
  fetchone_0 (update_sync v who rows) who =
  match fetchone_0 rows who with
  | Ok _ => Ok v
  | Raise e => Raise e
  end.
Proof.
  unfold fetchone_0, update_sync.
  induction rows as [ | [n f] rest IH ]; [ reflexivity | ].
  simpl. destruct (decide (n = who)) as [-> | Hn]; simpl.
  - rewrite !filter_cons_True by reflexivity. reflexivity.
  - rewrite !filter_cons_False by (simpl; congruence). exact IH.
Qed.

Lemma in_int64_spec v : in_int64 v = true <-> - 2 ^ 63 <= v < 2 ^ 63.
Proof.
  unfold in_int64. rewrite andb_true_iff, Z.leb_le, Z.ltb_lt. reflexivity.
Qed.

(** The world [set_sync] leaves: the UPDATE applied to what the connection
    saw, committed, no transaction open. *)
Lemma set_sync_run self flag v w :
  py_int flag = Ok v ->
  in_int64 v = true ->
  set_sync self flag w =
  (Ok tt,
   mkWorld (tags w) (network w)
     (mkTables (update_sync v (plc_name self) (sync (view w))) (master_time (view w)))
     None
     ((trace w ++ [EvExecuteUpdateSync v (plc_name self)]) ++ [EvCommit])).
Proof.
  intros Hint Hrange. unfold set_sync. rewrite Hint.
  unfold mbind, M_bind, execute_update_sync. rewrite Hrange. reflexivity.
Qed.





(** *** The wait for release *)

Lemma get_sync_unfold self w :
  get_sync self w =
  match fetchone_0 (sync (view w)) (plc_name self) with
  | Ok flag => (Ok (negb (flag =? 0)%Z), with_event (EvGetSync (negb (flag =? 0)%Z)) w)
  | Raise e => (Raise e, w)
  end.
Proof. reflexivity. Qed.

Lemma bind_unfold {A B} (m : M A) (f : A -> M B) w :
  (m ≫= f) w =
  match m w with
  | (Ok a, w') => f a w'
  | (Raise e, w') => (Raise e, w')
  end.
Proof. reflexivity. Qed.

(** One turn of the polling loop. *)
Lemma wait_for_release_cons self e env' w :
  wait_for_release self (e :: env') w =
  let w0 := with_db (e (db w)) (txn w) w in
  match fetchone_0 (sync (view w0)) (plc_name self) with
  | Ok flag =>
      if (flag =? 0)%Z then (Ok (Some env'), with_event (EvGetSync false) w0)
      else wait_for_release self env'
             (with_event (EvSleep 10) (with_event (EvGetSync true) w0))
  | Raise err => (Raise err, w0)
  end.
Proof.
  cbn [wait_for_release]. rewrite bind_unfold. unfold interfere.
  rewrite bind_unfold, get_sync_unfold. cbn zeta.
  destruct (fetchone_0 _ _) as [flag | err]; [ | reflexivity ].
  destruct (flag =? 0)%Z; reflexivity.
Qed.

(** What [wait_for_release] does: [k] polls that read the flag as set, each
    followed by a sleep of 10 ms, and then either a poll that reads 0, on
    which it returns, or nothing more. Tags are not touched. *)
Lemma wait_for_release_polls self env : forall w,
  let r := wait_for_release self env w in
  tags r.2 = tags w /\
  exists k, (k <= length env)%nat /\
    match r.1 with
    | Ok (Some env') =>
        trace r.2 = trace w ++ polls k ++ [EvGetSync false] /\
        fetchone_0 (sync (view r.2)) (plc_name self) = Ok 0 /\
        (length env' + k + 1 = length env)%nat
    | Ok None => trace r.2 = trace w ++ polls k /\ k = length env
    | Raise _ => trace r.2 = trace w ++ polls k
    end.
Proof.
  induction env as [ | e env' IH ]; intros w; cbn zeta.
  - simpl. split; [ reflexivity | ]. exists 0%nat. simpl.
    rewrite app_nil_r. auto.
  - rewrite wait_for_release_cons. cbn zeta.
    set (w0 := with_db (e (db w)) (txn w) w).
    destruct (fetchone_0 (sync (view w0)) (plc_name self)) as [flag | err] eqn:Hf.
    + destruct (flag =? 0)%Z eqn:Hz.
      * apply Z.eqb_eq in Hz. subst flag. simpl.
        split; [ reflexivity | ]. exists 0%nat. simpl.
        split; [ lia | ]. split; [ reflexivity | ]. split; [ exact Hf | lia ].
      * set (w1 := with_event (EvSleep 10) (with_event (EvGetSync true) w0)).
        specialize (IH w1). cbn zeta in IH.
        assert (Htr : trace w1 = trace w ++ [EvGetSync true; EvSleep 10]).
        { subst w1 w0. simpl. rewrite <- app_assoc. reflexivity. }
        destruct (wait_for_release self env' w1) as [res w2].
        cbn [fst snd] in IH |- *. destruct IH as [Htags [k [Hk Hm]]].
        split; [ rewrite Htags; reflexivity | ].
        exists (S k). split; [ simpl; lia | ].
        rewrite Htr in Hm.
        destruct res as [[rest | ] | err]; cbn [polls app length];
          rewrite <- app_assoc in Hm; cbn [app] in Hm.
        -- destruct Hm as (H1 & H2 & H3). split; [ exact H1 | ].
           split; [ exact H2 | simpl; lia ].
        -- destruct Hm as (H1 & H2). split; [ exact H1 | simpl; lia ].
        -- exact Hm.
    + simpl. split; [ reflexivity | ]. exists 0%nat. simpl.
      rewrite app_nil_r. split; [ lia | reflexivity ].
Qed.

(** *** Rule application *)

Lemma set_tag_trace self tag value w : trace (set_tag self tag value w).2 = trace w.
Proof.
  rewrite set_tag_unfold. destruct (control_value value); [ | reflexivity ].
  destruct (py_in tag (plc_sensors self) || py_in tag (plc_actuators self))%bool;
    reflexivity.
Qed.

(** A [set_tag] that returns has stored the binary value of its argument. *)
Lemma set_tag_ok self tag value w w' :
  set_tag self tag value w = (Ok tt, w') ->
  exists v, control_value value = Some v /\ owns self tag /\
            w' = with_tags (insert (tag, 1) (Decimal_of_int v)) w.
Proof.
  rewrite set_tag_unfold. destruct (control_value value) as [v | ]; [ | discriminate ].
  destruct (py_in tag (plc_sensors self) || py_in tag (plc_actuators self))%bool eqn:E;
    [ | discriminate ].
  intros H. injection H as <-. exists v. split; [ reflexivity | ].
  split; [ apply owns_py_in; exact E | reflexivity ].
Qed.

Section WriteAll.

Variable self : GenericPLC.
Variable command : pyval.

Lemma write_all_trace targets : forall w, trace (for_each targets (fun actuator => set_tag self actuator command) w).2 = trace w.
Proof.
  induction targets as [ | t rest IH ]; intros w; [ reflexivity | ].
  cbn [for_each]. rewrite bind_unfold.
  pose proof (set_tag_trace self t command w) as Ht.
  destruct (set_tag self t command w) as [[[] | e] w1]; simpl in Ht |- *.
  - rewrite IH. exact Ht.
  - exact Ht.
Qed.

(** After all writes, an actuator among the targets holds the value of
    the command; one that already held it keeps it. *)
Lemma write_all_value targets A v : forall w w',
  for_each targets (fun actuator => set_tag self actuator command) w = (Ok tt, w') ->
  control_value command = Some v ->
  A ∈ targets \/ tags w !! (A, 1) = Some (Decimal_of_int v) ->
  tags w' !! (A, 1) = Some (Decimal_of_int v).
Proof.
  induction targets as [ | t rest IH ]; intros w w' Hrun Hv Hin.
  - injection Hrun as <-. destruct Hin as [Hin | Hin]; [ | exact Hin ].
    apply elem_of_nil in Hin. contradiction.
  - cbn [for_each] in Hrun. rewrite bind_unfold in Hrun.
    destruct (set_tag self t command w) as [[[] | e] w1] eqn:Hset; [ | discriminate ].
    apply set_tag_ok in Hset. destruct Hset as (v' & Hv' & _ & ->).
    assert (v' = v) by congruence. subst v'.
    apply (IH _ _ Hrun Hv).
    destruct (decide (A = t)) as [-> | Hne].
    + right. simpl. apply lookup_insert_eq.
    + destruct Hin as [Hin | Hin].
      * left. apply elem_of_cons in Hin. destruct Hin; [ contradiction | assumption ].
      * right. simpl. rewrite lookup_insert_ne by congruence. exact Hin.
Qed.

(** Writes to other actuators leave this one alone. *)
Lemma write_all_frame targets A : forall w w',
  for_each targets (fun actuator => set_tag self actuator command) w = (Ok tt, w') ->
  A ∉ targets ->
  tags w' !! (A, 1) = tags w !! (A, 1).
Proof.
  induction targets as [ | t rest IH ]; intros w w' Hrun Hnot.
  - injection Hrun as <-. reflexivity.
  - cbn [for_each] in Hrun. rewrite bind_unfold in Hrun.
    destruct (set_tag self t command w) as [[[] | e] w1] eqn:Hset; [ | discriminate ].
    apply set_tag_ok in Hset. destruct Hset as (v' & _ & _ & ->).
    apply not_elem_of_cons in Hnot. destruct Hnot as [Hne Hrest].
    rewrite (IH _ _ Hrun Hrest). simpl. apply lookup_insert_ne. congruence.
Qed.

(** The writes all succeed when the command is a control value and the
    PLC owns every target. *)
Lemma write_all_returns targets v : forall w,
  control_value command = Some v ->
  (forall t, t ∈ targets -> owns self t) ->
  exists w', for_each targets (fun actuator => set_tag self actuator command) w = (Ok tt, w').
Proof.
  induction targets as [ | t rest IH ]; intros w Hv Hown.
  - eexists. reflexivity.
  - cbn [for_each]. rewrite bind_unfold, set_tag_unfold, Hv.
    assert (Ht : owns self t) by (apply Hown; left).
    apply owns_py_in in Ht. rewrite Ht.
    apply IH; [ exact Hv | ]. intros t' Ht'. apply Hown. right. exact Ht'.
Qed.

End WriteAll.

Section RuleEngineFacts.

Variable cc : Control -> GenericPLC -> Observable -> result bool.
Variable ac : Attack -> GenericPLC -> Observable -> result bool.
Variable self : GenericPLC.

Lemma control_apply_unfold c w :
  control_apply cc c self w =
  match cc c self (observe w) with
  | Ok true =>
      match control_actuator c with
      | VStr actuator => set_tag self actuator (control_action c) w
      | _ => (Raise TypeError, w)
      end
  | Ok false => (Ok tt, w)
  | Raise e => (Raise e, w)
  end.
Proof.
  unfold control_apply. rewrite bind_unfold.
  destruct (cc c self (observe w)) as [[ | ] | e]; try reflexivity.
  destruct (control_actuator c); reflexivity.
Qed.

Lemma attack_apply_unfold a w :
  attack_apply ac a self w =
  match ac a self (observe w) with
  | Ok true =>
      match attack_targets a with
      | Ok targets =>
          for_each targets (fun t => set_tag self t (attack_command a)) w
      | Raise e => (Raise e, w)
      end
  | Ok false => (Ok tt, w)
  | Raise e => (Raise e, w)
  end.
Proof.
  unfold attack_apply. rewrite bind_unfold.
  destruct (ac a self (observe w)) as [[ | ] | e]; reflexivity.
Qed.

Lemma control_apply_trace c w : trace (control_apply cc c self w).2 = trace w.
Proof.
  rewrite control_apply_unfold.
  destruct (cc c self (observe w)) as [[ | ] | e]; try reflexivity.
  destruct (control_actuator c); try reflexivity. apply set_tag_trace.
Qed.

Lemma attack_apply_trace a w : trace (attack_apply ac a self w).2 = trace w.
Proof.
  rewrite attack_apply_unfold.
  destruct (ac a self (observe w)) as [[ | ] | e]; try reflexivity.
  destruct (attack_targets a); try reflexivity. apply write_all_trace.
Qed.

Lemma apply_controls_cons c cs w :
  apply_controls cc self (c :: cs) w =
  match control_apply cc c self (with_event (EvControl c) w) with
  | (Ok _, w') => apply_controls cc self cs w'
  | (Raise e, w') => (Raise e, w')
  end.
Proof. reflexivity. Qed.

Lemma apply_attacks_cons a ats w :
  apply_attacks ac self (a :: ats) w =
  match attack_apply ac a self (with_event (EvAttack a) w) with
  | (Ok _, w') => apply_attacks ac self ats w'
  | (Raise e, w') => (Raise e, w')
  end.
Proof. reflexivity. Qed.

(** The calls made by the first loop: the controls, in list order, up to
    the one that raised, all of them when the loop returns. *)
Lemma apply_controls_trace cs : forall w,
  exists j, (j <= length cs)%nat /\
    trace (apply_controls cc self cs w).2 = trace w ++ map EvControl (take j cs) /\
    (forall u, (apply_controls cc self cs w).1 = Ok u -> j = length cs).
Proof.
  induction cs as [ | c rest IH ]; intros w.
  - exists 0%nat. simpl. rewrite app_nil_r. auto.
  - rewrite apply_controls_cons.
    pose proof (control_apply_trace c (with_event (EvControl c) w)) as Ht.
    destruct (control_apply cc c self (with_event (EvControl c) w)) as [[[] | e] w1];
      simpl in Ht.
    + destruct (IH w1) as (j & Hj & Htr & Hok). exists (S j).
      split; [ simpl; lia | ]. split.
      * rewrite Htr, Ht, <- app_assoc. reflexivity.
      * intros u Hu. simpl. f_equal. eapply Hok. exact Hu.
    + exists 1%nat. split; [ simpl; lia | ]. split.
      * cbn [take map]. destruct rest; exact Ht.
      * intros u Hu. discriminate Hu.
Qed.

Lemma apply_attacks_trace ats : forall w,
  exists j, (j <= length ats)%nat /\
    trace (apply_attacks ac self ats w).2 = trace w ++ map EvAttack (take j ats) /\
    (forall u, (apply_attacks ac self ats w).1 = Ok u -> j = length ats).
Proof.
  induction ats as [ | a rest IH ]; intros w.
  - exists 0%nat. simpl. rewrite app_nil_r. auto.
  - rewrite apply_attacks_cons.
    pose proof (attack_apply_trace a (with_event (EvAttack a) w)) as Ht.
    destruct (attack_apply ac a self (with_event (EvAttack a) w)) as [[[] | e] w1];
      simpl in Ht.
    + destruct (IH w1) as (j & Hj & Htr & Hok). exists (S j).
      split; [ simpl; lia | ]. split.
      * rewrite Htr, Ht, <- app_assoc. reflexivity.
      * intros u Hu. simpl. f_equal. eapply Hok. exact Hu.
    + exists 1%nat. split; [ simpl; lia | ]. split.
      * cbn [take map]. destruct rest; exact Ht.
      * intros u Hu. discriminate Hu.
Qed.

(** Controls that name other actuators leave this one alone. *)
Lemma apply_controls_frame A cs : forall w w',
  apply_controls cc self cs w = (Ok tt, w') ->
  (forall c, c ∈ cs -> ~ control_writes c A) ->
  tags w' !! (A, 1) = tags w !! (A, 1).
Proof.
  induction cs as [ | c rest IH ]; intros w w' Hrun Hnot.
  - injection Hrun as <-. reflexivity.
  - rewrite apply_controls_cons, control_apply_unfold in Hrun.
    assert (Hc : ~ control_writes c A) by (apply Hnot; left).
    assert (Hrest : forall c', c' ∈ rest -> ~ control_writes c' A)
      by (intros c' Hc'; apply Hnot; right; exact Hc').
    destruct (cc c self _) as [[ | ] | e]; try discriminate.
    + unfold control_writes in Hc.
      destruct (control_actuator c) as [ | | | | actuator | ]; try discriminate.
      destruct (set_tag self actuator _ _) as [[[] | e] w1] eqn:Hset;
        [ | discriminate ].
      apply set_tag_ok in Hset. destruct Hset as (v & _ & _ & ->).
      rewrite (IH _ _ Hrun Hrest). simpl. apply lookup_insert_ne. congruence.
    + rewrite (IH _ _ Hrun Hrest). reflexivity.
Qed.

(** Attacks on other actuators leave this one alone. *)
Lemma apply_attacks_frame A ats : forall w w',
  apply_attacks ac self ats w = (Ok tt, w') ->
  (forall a, a ∈ ats -> ~ attack_writes a A) ->
  tags w' !! (A, 1) = tags w !! (A, 1).
Proof.
  induction ats as [ | a rest IH ]; intros w w' Hrun Hnot.
  - injection Hrun as <-. reflexivity.
  - rewrite apply_attacks_cons, attack_apply_unfold in Hrun.
    assert (Ha : ~ attack_writes a A) by (apply Hnot; left).
    assert (Hrest : forall a', a' ∈ rest -> ~ attack_writes a' A)
      by (intros a' Ha'; apply Hnot; right; exact Ha').
    destruct (ac a self _) as [[ | ] | e]; try discriminate.
    + destruct (attack_targets a) as [targets | e] eqn:Ht; [ | discriminate ].
      destruct (for_each targets _ _) as [[[] | e] w1] eqn:Hw; [ | discriminate ].
      rewrite (IH _ _ Hrun Hrest).
      rewrite (write_all_frame self (attack_command a) targets A _ _ Hw).
      * reflexivity.
      * intros Hin. apply Ha. exists targets. split; [ exact Ht | exact Hin ].
    + rewrite (IH _ _ Hrun Hrest). reflexivity.
Qed.

Lemma apply_controls_app cs1 cs2 : forall w,
  apply_controls cc self (cs1 ++ cs2) w =
  match apply_controls cc self cs1 w with
  | (Ok _, w') => apply_controls cc self cs2 w'
  | (Raise e, w') => (Raise e, w')
  end.
Proof.
  induction cs1 as [ | c rest IH ]; intros w; [ reflexivity | ].
  rewrite <- app_comm_cons, !apply_controls_cons.
  destruct (control_apply cc c self _) as [[[] | e] w1]; [ apply IH | reflexivity ].
Qed.

Lemma apply_attacks_app ats1 ats2 : forall w,
  apply_attacks ac self (ats1 ++ ats2) w =
  match apply_attacks ac self ats1 w with
  | (Ok _, w') => apply_attacks ac self ats2 w'
  | (Raise e, w') => (Raise e, w')
  end.
Proof.
  induction ats1 as [ | a rest IH ]; intros w; [ reflexivity | ].
  rewrite <- app_comm_cons, !apply_attacks_cons.
  destruct (attack_apply ac a self _) as [[[] | e] w1]; [ apply IH | reflexivity ].
Qed.

Lemma apply_rules_unfold w :
  apply_rules cc ac self w =
  match apply_controls cc self (controls self) w with
  | (Ok _, w') => apply_attacks ac self (attacks self) w'
  | (Raise e, w') => (Raise e, w')
  end.
Proof. reflexivity. Qed.

End RuleEngineFacts.

(** *** The order of the rules and who writes last *)

Section RuleCalls.

Variable cc : Control -> GenericPLC -> Observable -> result bool.
Variable ac : Attack -> GenericPLC -> Observable -> result bool.
Variable self : GenericPLC.

Lemma rule_calls_cons r rest w :
  rule_calls cc ac self (r :: rest) w =
  match rule_call cc ac self r w with
  | (Ok _, w') => rule_calls cc ac self rest w'
  | (Raise e, w') => (Raise e, w')
  end.
Proof. reflexivity. Qed.

Lemma rule_calls_app rs1 rs2 : forall w,
  rule_calls cc ac self (rs1 ++ rs2) w =
  match rule_calls cc ac self rs1 w with
  | (Ok _, w') => rule_calls cc ac self rs2 w'
  | (Raise e, w') => (Raise e, w')
  end.
Proof.
  induction rs1 as [ | r rest IH ]; intros w; [ reflexivity | ].
  rewrite <- app_comm_cons, !rule_calls_cons.
  destruct (rule_call cc ac self r w) as [[[] | e] w1]; [ apply IH | reflexivity ].
Qed.

Lemma rule_calls_controls cs : forall w,
  rule_calls cc ac self (map OfControl cs) w = apply_controls cc self cs w.
Proof.
  induction cs as [ | c rest IH ]; intros w; [ reflexivity | ].
  cbn [map]. rewrite rule_calls_cons, apply_controls_cons.
  change (rule_call cc ac self (OfControl c) w)
    with (control_apply cc c self (with_event (EvControl c) w)).
  destruct (control_apply cc c self _) as [[[] | e] w1]; [ apply IH | reflexivity ].
Qed.

Lemma rule_calls_attacks ats : forall w,
  rule_calls cc ac self (map OfAttack ats) w = apply_attacks ac self ats w.
Proof.
  induction ats as [ | a rest IH ]; intros w; [ reflexivity | ].
  cbn [map]. rewrite rule_calls_cons, apply_attacks_cons.
  change (rule_call cc ac self (OfAttack a) w)
    with (attack_apply ac a self (with_event (EvAttack a) w)).
  destruct (attack_apply ac a self _) as [[[] | e] w1]; [ apply IH | reflexivity ].
Qed.

(** The two loops of a pass are the calls of the rules, controls first. *)
Lemma apply_rules_as_calls w :
  apply_rules cc ac self w = rule_calls cc ac self (rules_of self) w.
Proof.
  unfold rules_of. rewrite apply_rules_unfold, rule_calls_app, rule_calls_controls.
  destruct (apply_controls cc self (controls self) w) as [[[] | e] w1];
    [ | reflexivity ].
  symmetry. apply rule_calls_attacks.
Qed.

(** One call, by the value of the rule's condition. *)
Lemma rule_call_unfold r w :
  rule_call cc ac self r w =
  let w0 := with_event (rule_event r) w in
  match rule_condition cc ac self r w with
  | Ok true =>
      match r with
      | OfControl c =>
          match control_actuator c with
          | VStr actuator => set_tag self actuator (control_action c) w0
          | _ => (Raise TypeError, w0)
          end
      | OfAttack a =>
          match attack_targets a with
          | Ok targets => for_each targets (fun t => set_tag self t (attack_command a)) w0
          | Raise e => (Raise e, w0)
          end
      end
  | Ok false => (Ok tt, w0)
  | Raise e => (Raise e, w0)
  end.
Proof.
  destruct r as [c | a]; cbn zeta.
  - change (rule_call cc ac self (OfControl c) w)
      with (control_apply cc c self (with_event (EvControl c) w)).
    rewrite control_apply_unfold. reflexivity.
  - change (rule_call cc ac self (OfAttack a) w)
      with (attack_apply ac a self (with_event (EvAttack a) w)).
    rewrite attack_apply_unfold. reflexivity.
Qed.

Lemma rule_call_trace r w :
  trace (rule_call cc ac self r w).2 = trace w ++ [rule_event r].
Proof.
  destruct r as [c | a].
  - change (rule_call cc ac self (OfControl c) w)
      with (control_apply cc c self (with_event (EvControl c) w)).
    rewrite control_apply_trace. reflexivity.
  - change (rule_call cc ac self (OfAttack a) w)
      with (attack_apply ac a self (with_event (EvAttack a) w)).
    rewrite attack_apply_trace. reflexivity.
Qed.

(** A rule that fires leaves its value on the actuators it writes. *)
Lemma rule_call_fires r A v w w' :
  rule_condition cc ac self r w = Ok true ->
  rule_writes r A ->
  control_value (rule_value r) = Some v ->
  rule_call cc ac self r w = (Ok tt, w') ->
  tags w' !! (A, 1) = Some (Decimal_of_int v).
Proof.
  intros Hfire Hwrites Hv. rewrite rule_call_unfold, Hfire. cbn zeta.
  destruct r as [c | a]; cbn [rule_writes rule_value rule_event] in *.
  - unfold control_writes in Hwrites. rewrite Hwrites. intros Hset.
    apply set_tag_ok in Hset. destruct Hset as (v' & Hv' & _ & ->).
    assert (v' = v) by congruence. subst v'. simpl. apply lookup_insert_eq.
  - destruct Hwrites as (targets & Ht & Hin). rewrite Ht. intros Hw.
    apply (write_all_value self (attack_command a) targets A v _ _ Hw Hv).
    left. exact Hin.
Qed.

(** A rule that does not fire on an actuator leaves it as it is. *)
Lemma rule_call_frame r A w w' :
  (rule_writes r A -> rule_condition cc ac self r w <> Ok true) ->
  rule_call cc ac self r w = (Ok tt, w') ->
  tags w' !! (A, 1) = tags w !! (A, 1).
Proof.
  intros Hquiet. rewrite rule_call_unfold. cbn zeta.
  destruct (rule_condition cc ac self r w) as [[ | ] | e] eqn:Hcond;
    [ | intros H; injection H as <-; reflexivity | discriminate ].
  assert (Hnot : ~ rule_writes r A) by (intros Hw; apply (Hquiet Hw); reflexivity).
  destruct r as [c | a]; cbn [rule_writes rule_event] in *.
  - unfold control_writes in Hnot.
    destruct (control_actuator c) as [ | | | | actuator | ]; try discriminate.
    intros Hset. apply set_tag_ok in Hset. destruct Hset as (v & _ & _ & ->).
    simpl. apply lookup_insert_ne. congruence.
  - destruct (attack_targets a) as [targets | e] eqn:Ht; [ | discriminate ].
    intros Hw.
    rewrite (write_all_frame self (attack_command a) targets A _ _ Hw); [ reflexivity | ].
    intros Hin. apply Hnot. exists targets. split; [ exact Ht | exact Hin ].
Qed.

(** A well-configured rule whose condition evaluates returns. *)
Lemma rule_call_returns r w :
  well_configured self r ->
  (exists b, rule_condition cc ac self r w = Ok b) ->
  exists w', rule_call cc ac self r w = (Ok tt, w').
Proof.
  intros [[v Hv] Hconf] [b Hb]. rewrite rule_call_unfold, Hb. cbn zeta.
  destruct b; [ | eexists; reflexivity ].
  destruct r as [c | a]; cbn [rule_value rule_event] in *.
  - destruct Hconf as (actuator & Hwrites & Hown). unfold control_writes in Hwrites.
    rewrite Hwrites, set_tag_unfold, Hv. apply owns_py_in in Hown. rewrite Hown.
    eexists. reflexivity.
  - destruct Hconf as (targets & Ht & Hown). rewrite Ht.
    apply (write_all_returns self (attack_command a) targets v _ Hv Hown).
Qed.

(** The calls of a loop that returns: every rule, in list order. *)
Lemma rule_calls_trace rs : forall w w',
  rule_calls cc ac self rs w = (Ok tt, w') ->
  trace w' = trace w ++ map rule_event rs.
Proof.
  induction rs as [ | r rest IH ]; intros w w' Hrun.
  - injection Hrun as <-. simpl. rewrite app_nil_r. reflexivity.
  - rewrite rule_calls_cons in Hrun.
    pose proof (rule_call_trace r w) as Ht.
    destruct (rule_call cc ac self r w) as [[[] | e] w1]; [ | discriminate ].
    rewrite (IH _ _ Hrun). simpl in Ht. rewrite Ht, <- app_assoc. reflexivity.
Qed.

(** Rules none of which fires on an actuator leave it as it is. *)
Lemma rule_calls_frame A rs : forall w w',
  rule_calls cc ac self rs w = (Ok tt, w') ->
  (forall mid r rest wm,
     rs = mid ++ r :: rest ->
     rule_writes r A ->
     rule_calls cc ac self mid w = (Ok tt, wm) ->
     rule_condition cc ac self r wm <> Ok true) ->
  tags w' !! (A, 1) = tags w !! (A, 1).
Proof.
  induction rs as [ | r rest IH ]; intros w w' Hrun Hquiet.
  - injection Hrun as <-. reflexivity.
  - rewrite rule_calls_cons in Hrun.
    destruct (rule_call cc ac self r w) as [[[] | e] w1] eqn:Hcall; [ | discriminate ].
    rewrite (IH _ _ Hrun).
    + apply (rule_call_frame r A w w1); [ | exact Hcall ].
      intros Hw. apply (Hquiet [] r rest w eq_refl Hw). reflexivity.
    + intros mid r' rest' wm Hsplit Hw Hmid.
      apply (Hquiet (r :: mid) r' rest' wm); [ rewrite Hsplit; reflexivity | exact Hw | ].
      rewrite rule_calls_cons, Hcall. exact Hmid.
Qed.

(** Well-configured rules whose conditions evaluate all return. *)
Lemma rule_calls_return rs : forall w,
  (forall r, r ∈ rs -> well_configured self r) ->
  (forall r w', r ∈ rs -> exists b, rule_condition cc ac self r w' = Ok b) ->
  exists w', rule_calls cc ac self rs w = (Ok tt, w').
Proof.
  induction rs as [ | r rest IH ]; intros w Hconf Hcond.
  - eexists. reflexivity.
  - rewrite rule_calls_cons.
    destruct (rule_call_returns r w) as [w1 Hw1].
    { apply Hconf. left. }
    { apply Hcond. left. }
    rewrite Hw1. apply IH.
    + intros r' Hin. apply Hconf. right. exact Hin.
    + intros r' w' Hin. apply Hcond. right. exact Hin.
Qed.

(** One pass of the loop body: the wait, then the rules in their order,
    then the own flag set. *)
Lemma main_loop_iteration_unfold env w :
  main_loop_iteration cc ac self env w =
  match wait_for_release self env w with
  | (Ok (Some env'), w1) =>
      match rule_calls cc ac self (rules_of self) w1 with
      | (Ok _, w2) =>
          match set_sync self (OfInt 1) w2 with
          | (Ok _, w3) => (Ok (Some env'), w3)
          | (Raise e, w3) => (Raise e, w3)
          end
      | (Raise e, w2) => (Raise e, w2)
      end
  | (Ok None, w1) => (Ok None, w1)
  | (Raise e, w1) => (Raise e, w1)
  end.
Proof.
  unfold main_loop_iteration. rewrite bind_unfold.
  destruct (wait_for_release self env w) as [[[env' | ] | e] w1]; try reflexivity.
  rewrite bind_unfold, apply_rules_as_calls.
  destruct (rule_calls cc ac self (rules_of self) w1) as [[[] | e] w2];
    [ | reflexivity ].
  rewrite bind_unfold.
  destruct (set_sync self (OfInt 1) w2) as [[[] | e] w3]; reflexivity.
Qed.

End RuleCalls.

Lemma rule_events_are_calls rules :
  List.filter is_rule_call (map rule_event rules) = map rule_event rules.
Proof.
  induction rules as [ | r rest IH ]; [ reflexivity | ].
  cbn [map List.filter]. destruct r; cbn [rule_event is_rule_call]; rewrite IH;
    reflexivity.
Qed.

(** C4. One pass of [main_loop], once the wait is over, calls every
    control, in the order of [self.controls], then every attack, in the
    order of [self.attacks], each in the world the call before it left, and
    then sets the own flag. Hence the last rule that fires on an actuator
    decides its value at the end of the pass: when a rule fires and writes
    an actuator, and every later rule that writes this actuator finds its
    condition not true when it is evaluated, the actuator holds that rule's
    value. So an attack that fires overrides every control, and of two
    controls that fire the later one decides, also when an attack that
    names the actuator is not active. The pass returns whenever the rules
    are well configured and their conditions evaluate. The order is stated
    on the calls of the rules that the pass records, whatever else a rule
    does between them. *)
Theorem rules_in_order_last_write_wins
  (cc : Control -> GenericPLC -> Observable -> result bool)
  (ac : Attack -> GenericPLC -> Observable -> result bool)
  (self : GenericPLC) (env : list (Tables -> Tables)) (w : World) :
  main_loop_iteration cc ac self env w =
    match wait_for_release self env w with
    | (Ok (Some env'), w1) =>
        match rule_calls cc ac self (rules_of self) w1 with
        | (Ok _, w2) =>
            match set_sync self (OfInt 1) w2 with
            | (Ok _, w3) => (Ok (Some env'), w3)
            | (Raise e, w3) => (Raise e, w3)
            end
        | (Raise e, w2) => (Raise e, w2)
        end
    | (Ok None, w1) => (Ok None, w1)
    | (Raise e, w1) => (Raise e, w1)
    end /\
  (forall env' w',
     main_loop_iteration cc ac self env w = (Ok (Some env'), w') ->
     exists w1 evs,
       wait_for_release self env w = (Ok (Some env'), w1) /\
       trace w' = trace w1 ++ evs
                           ++ [EvExecuteUpdateSync 1 (plc_name self); EvCommit] /\
       List.filter is_rule_call evs =
         map EvControl (controls self) ++ map EvAttack (attacks self)) /\
  (forall env' w1 before r after A v wb wr w2,
     wait_for_release self env w = (Ok (Some env'), w1) ->
     rules_of self = before ++ r :: after ->
     rule_calls cc ac self before w1 = (Ok tt, wb) ->
     rule_condition cc ac self r wb = Ok true ->
     rule_writes r A ->
     control_value (rule_value r) = Some v ->
     rule_call cc ac self r wb = (Ok tt, wr) ->
     rule_calls cc ac self after wr = (Ok tt, w2) ->
     (forall mid r' rest wm,
        after = mid ++ r' :: rest ->
        rule_writes r' A ->
        rule_calls cc ac self mid wr = (Ok tt, wm) ->
        rule_condition cc ac self r' wm <> Ok true) ->
     exists w',
       main_loop_iteration cc ac self env w = (Ok (Some env'), w') /\
       tags w' !! (A, 1) = Some (Decimal_of_int v)) /\
  (forall env' w1,
     wait_for_release self env w = (Ok (Some env'), w1) ->
     (forall r, r ∈ rules_of self -> well_configured self r) ->
     (forall r w', r ∈ rules_of self -> exists b, rule_condition cc ac self r w' = Ok b) ->
     exists w', main_loop_iteration cc ac self env w = (Ok (Some env'), w')).
Proof.
  split; [ apply main_loop_iteration_unfold | ].
  split; [ | split ].
  - intros env' w' Hrun. rewrite main_loop_iteration_unfold in Hrun.
    destruct (wait_for_release self env w) as [[[rest | ] | e] w1]; try discriminate.
    destruct (rule_calls cc ac self (rules_of self) w1) as [[[] | e] w2] eqn:Hcalls;
      [ | discriminate ].
    rewrite (set_sync_run self (OfInt 1) 1 w2 eq_refl eq_refl) in Hrun.
    injection Hrun as <- <-. exists w1, (map rule_event (rules_of self)).
    split; [ reflexivity | ]. split.
    + cbn [trace]. rewrite (rule_calls_trace cc ac self _ _ _ Hcalls).
      rewrite <- !app_assoc. reflexivity.
    + rewrite rule_events_are_calls. unfold rules_of.
      rewrite map_app, !map_map. reflexivity.
  - intros env' w1 before r after A v wb wr w2 Hwait Hsplit Hpre Hfire Hwrites Hv
      Hcall Hafter Hquiet.
    rewrite main_loop_iteration_unfold, Hwait, Hsplit, rule_calls_app, Hpre.
    rewrite rule_calls_cons, Hcall, Hafter.
    rewrite (set_sync_run self (OfInt 1) 1 w2 eq_refl eq_refl).
    eexists. split; [ reflexivity | ]. cbn [tags].
    rewrite (rule_calls_frame cc ac self A after wr w2 Hafter Hquiet).
    apply (rule_call_fires cc ac self r A v wb wr Hfire Hwrites Hv Hcall).
  - intros env' w1 Hwait Hconf Hcond.
    rewrite main_loop_iteration_unfold, Hwait.
    destruct (rule_calls_return cc ac self (rules_of self) w1 Hconf Hcond) as [w2 Hw2].
    rewrite Hw2, (set_sync_run self (OfInt 1) 1 w2 eq_refl eq_refl).
    eexists. reflexivity.
Qed.

Lemma rules_in_order_last_write_wins_witness :
  (exists w',
     main_loop_iteration always_control always_attack plc1_with_rules
       [release "PLC1"] busy_world = (Ok (Some []), w') /\
     tags w' !! ("P1", 1) = Some (Decimal_of_int 1)) /\
  (exists w',
     main_loop_iteration always_control never_attack plc1_with_rules
       [release "PLC1"] busy_world = (Ok (Some []), w') /\
     tags w' !! ("P1", 1) = Some (Decimal_of_int 0)).
Proof.
  split.
  - pose proof (rules_in_order_last_write_wins always_control always_attack
                  plc1_with_rules [release "PLC1"] busy_world) as (_ & _ & Hlast & _).
    eapply (Hlast [] _ [OfControl open_below; OfControl close_above]
              (OfAttack force_open) [] "P1" 1).
    + reflexivity.
    + reflexivity.
    + reflexivity.
    + reflexivity.
    + exists ["P1"]. split; [ reflexivity | left ].
    + reflexivity.
    + reflexivity.
    + reflexivity.
    + intros mid r' rest wm Hsplit. destruct mid; discriminate Hsplit.
  - pose proof (rules_in_order_last_write_wins always_control never_attack
                  plc1_with_rules [release "PLC1"] busy_world) as (_ & _ & Hlast & _).
    eapply (Hlast [] _ [OfControl open_below] (OfControl close_above)
              [OfAttack force_open] "P1" 0).
    + reflexivity.
    + reflexivity.
    + reflexivity.
    + reflexivity.
    + reflexivity.
    + reflexivity.
    + reflexivity.
    + reflexivity.
    + intros mid r' rest wm Hsplit _ _. destruct mid as [ | r0 mid ].
      * injection Hsplit as <- _. discriminate.
      * destruct mid; discriminate Hsplit.
Defined.

(** *** Rules wait for the release *)

Lemma apply_rules_extends_trace cc ac self w :
  exists evs, trace (apply_rules cc ac self w).2 = trace w ++ evs.
Proof.
  rewrite apply_rules_unfold.
  destruct (apply_controls_trace cc self (controls self) w) as (j & _ & Hj & _).
  destruct (apply_controls cc self (controls self) w) as [[[] | e] wc]; simpl in Hj.
  - destruct (apply_attacks_trace ac self (attacks self) wc) as (i & _ & Hi & _).
    rewrite Hi, Hj, <- app_assoc. eexists. reflexivity.
  - eexists. exact Hj.
Qed.

(** A poll after one more change reads what a poll reads in the world
    that change has left. *)
Lemma poll_reads_cons self e changes w w1 :
  db w1 = e (db w) -> txn w1 = txn w ->
  poll_reads self (e :: changes) w = poll_reads self changes w1.
Proof.
  intros Hdb Htxn. unfold poll_reads, after_changes, view. cbn.
  rewrite Hdb, Htxn. reflexivity.
Qed.

(** The wait, poll by poll: the first [k] polls read the flag as set and
    each is followed by the sleep; the wait ends at the first poll that
    reads 0 or fails, and with the last change when there is no such poll. *)
Lemma wait_for_release_first_clear self env : forall w,
  let r := wait_for_release self env w in
  exists k, (k <= length env)%nat /\
    tags r.2 = tags w /\
    (forall j, (j < k)%nat ->
       exists z, poll_reads self (take (S j) env) w = Ok z /\ z <> 0) /\
    ((k = length env /\ r.1 = Ok None /\ trace r.2 = trace w ++ polls k)
     \/
     ((k < length env)%nat /\
      exists e, poll_reads self (take (S k) env) w = Raise e /\
                r.1 = Raise e /\ trace r.2 = trace w ++ polls k)
     \/
     ((k < length env)%nat /\
      poll_reads self (take (S k) env) w = Ok 0 /\
      r.1 = Ok (Some (drop (S k) env)) /\
      trace r.2 = trace w ++ polls k ++ [EvGetSync false] /\
      fetchone_0 (sync (view r.2)) (plc_name self) = Ok 0)).
Proof.
  induction env as [ | e env' IH ]; intros w; cbn zeta.
  - exists 0%nat. simpl. split; [ lia | ]. split; [ reflexivity | ].
    split; [ intros j Hj; lia | ]. left. rewrite app_nil_r. auto.
  - rewrite wait_for_release_cons. cbn zeta.
    set (w0 := with_db (e (db w)) (txn w) w).
    assert (Hfirst : poll_reads self (take 1 (e :: env')) w =
                     fetchone_0 (sync (view w0)) (plc_name self)) by reflexivity.
    destruct (fetchone_0 (sync (view w0)) (plc_name self)) as [flag | err] eqn:Hf.
    + destruct (flag =? 0)%Z eqn:Hz.
      * apply Z.eqb_eq in Hz. subst flag.
        exists 0%nat. simpl. split; [ lia | ]. split; [ reflexivity | ].
        split; [ intros j Hj; lia | ]. right. right.
        split; [ lia | ]. split; [ exact Hfirst | ].
        rewrite drop_0. split; [ reflexivity | ]. split; [ reflexivity | exact Hf ].
      * apply Z.eqb_neq in Hz.
        set (w1 := with_event (EvSleep 10) (with_event (EvGetSync true) w0)).
        assert (Hstep : forall changes,
                  poll_reads self (e :: changes) w = poll_reads self changes w1)
          by (intros changes; apply poll_reads_cons; reflexivity).
        assert (Htr : trace w1 = trace w ++ [EvGetSync true; EvSleep 10]).
        { subst w1 w0. simpl. rewrite <- app_assoc. reflexivity. }
        destruct (IH w1) as (k & Hk & Htags & Hbefore & Hend).
        destruct (wait_for_release self env' w1) as [res w2].
        cbn [fst snd] in Htags, Hend |- *.
        exists (S k). split; [ simpl; lia | ].
        split; [ rewrite Htags; reflexivity | ].
        split.
        { intros [ | j ] Hj.
          - exists flag. split; [ exact Hfirst | exact Hz ].
          - cbn [take]. rewrite Hstep. apply Hbefore. lia. }
        rewrite Htr in Hend. cbn [polls take drop length].
        destruct Hend as [(H1 & H2 & H3) | [(H1 & err & H2 & H3 & H4)
                                           | (H1 & H2 & H3 & H4 & H5)]].
        -- left. split; [ lia | ]. split; [ exact H2 | ].
           rewrite H3, <- app_assoc. reflexivity.
        -- right. left. split; [ lia | ]. exists err.
           rewrite Hstep. split; [ exact H2 | ]. split; [ exact H3 | ].
           rewrite H4, <- app_assoc. reflexivity.
        -- right. right. split; [ lia | ]. rewrite Hstep.
           split; [ exact H2 | ]. split; [ exact H3 | ].
           split; [ | exact H5 ]. rewrite H4, <- app_assoc. reflexivity.
    + exists 0%nat. simpl. split; [ lia | ]. split; [ reflexivity | ].
      split; [ intros j Hj; lia | ]. right. left.
      split; [ lia | ]. exists err. split; [ exact Hfirst | ].
      rewrite app_nil_r. auto.
Qed.

(** C6. One pass of the main loop, run against the changes [env] the rest
    of the testbed makes to the database, polls the own flag after each
    change and sleeps 10 ms after every poll that reads it as set. Let [k]
    be the number of polls that read the flag as set before the first poll
    that does not. If all polls read it as set ([k] is the number of
    changes), the pass has only polled and slept, as often as there were
    changes: no rule was called and no tag written. If the poll after them
    failed (the table has no row of this name), the pass ends with that
    error, again with no rule called. If it read 0, the wait returns there,
    in a database where the own flag is 0, with the later changes left
    over, and only from that world on the rules are applied and the flag is
    set: everything the pass did before is [k] polls and sleeps and the
    poll that read 0. *)
Theorem rules_only_after_release
  (cc : Control -> GenericPLC -> Observable -> result bool)
  (ac : Attack -> GenericPLC -> Observable -> result bool)
  (self : GenericPLC) (env : list (Tables -> Tables)) (w : World) :
  let r := main_loop_iteration cc ac self env w in
  exists k, (k <= length env)%nat /\
    (forall j, (j < k)%nat ->
       exists z, poll_reads self (take (S j) env) w = Ok z /\ z <> 0) /\
    ((k = length env /\
      r.1 = Ok None /\ trace r.2 = trace w ++ polls k /\ tags r.2 = tags w)
     \/
     ((k < length env)%nat /\
      exists e, poll_reads self (take (S k) env) w = Raise e /\
                r.1 = Raise e /\ trace r.2 = trace w ++ polls k /\ tags r.2 = tags w)
     \/
     ((k < length env)%nat /\
      poll_reads self (take (S k) env) w = Ok 0 /\
      exists w1 evs,
        wait_for_release self env w = (Ok (Some (drop (S k) env)), w1) /\
        trace w1 = trace w ++ polls k ++ [EvGetSync false] /\
        tags w1 = tags w /\
        fetchone_0 (sync (view w1)) (plc_name self) = Ok 0 /\
        r = (apply_rules cc ac self;; set_sync self (OfInt 1);;
             mret (Some (drop (S k) env))) w1 /\
        trace r.2 = trace w1 ++ evs)).
Proof.
  intros r. subst r. unfold main_loop_iteration. rewrite bind_unfold.
  destruct (wait_for_release_first_clear self env w) as (k & Hk & Htags & Hbefore & Hend).
  destruct (wait_for_release self env w) as [res w1].
  cbn [fst snd] in Htags, Hend.
  exists k. split; [ exact Hk | ]. split; [ exact Hbefore | ].
  destruct Hend as [(H1 & H2 & H3) | [(H1 & err & H2 & H3 & H4)
                                     | (H1 & H2 & H3 & H4 & H5)]]; subst res.
  - left. simpl. auto.
  - right. left. split; [ exact H1 | ]. exists err. simpl. auto.
  - right. right. split; [ exact H1 | ]. split; [ exact H2 | ].
    destruct (apply_rules_extends_trace cc ac self w1) as [evs Hevs].
    set (rest := (apply_rules cc ac self;; set_sync self (OfInt 1);;
                  mret (Some (drop (S k) env))) w1).
    assert (Hrest : exists evs', trace rest.2 = trace w1 ++ evs').
    { subst rest. rewrite bind_unfold.
      destruct (apply_rules cc ac self w1) as [[[] | e] w2]; simpl in Hevs.
      - rewrite bind_unfold.
        rewrite (set_sync_run self (OfInt 1) 1 w2 eq_refl eq_refl). simpl.
        rewrite Hevs, <- !app_assoc. eexists. reflexivity.
      - simpl. eexists. exact Hevs. }
    destruct Hrest as [evs' Hevs'].
    exists w1, evs'. repeat split; auto.
Qed.

Example main_loop_iteration_released :
  trace (main_loop_iteration always_control always_attack plc1_with_rules
           [id; release "PLC1"; id] busy_world).2 =
  [EvGetSync true; EvSleep 10; EvGetSync false;
   EvControl open_below; EvControl close_above; EvAttack force_open;
   EvExecuteUpdateSync 1 "PLC1"; EvCommit].
Proof. reflexivity. Qed.

Example main_loop_iteration_still_waiting :
  let r := main_loop_iteration always_control always_attack plc1_with_rules
             [id; id] busy_world in
  trace r.2 = [EvGetSync true; EvSleep 10; EvGetSync true; EvSleep 10] /\
  tags r.2 = ∅.
Proof. split; reflexivity. Qed.

(** A sync table without a row of this PLC: the first poll fails and
    the pass ends there. *)
Example main_loop_iteration_no_row :
  main_loop_iteration always_control always_attack plc1_with_rules
    [id; id] (quiet_world ∅) = (Raise TypeError, quiet_world ∅).
Proof. reflexivity. Qed.

(** With [test_break] the loop leaves after its first pass. *)
Lemma main_loop_test_break cc ac n self env w :
  (main_loop cc ac (S n) self true env w).2 = (main_loop_iteration cc ac self env w).2.
Proof.
  cbn [main_loop]. rewrite bind_unfold.
  destruct (main_loop_iteration cc ac self env w) as [[[env' | ] | e] w']; reflexivity.
Qed.

(** *** create_controls and create_attacks *)

Lemma getitem_lookup (d : pydict) k :
  getitem d k = match d !! k with Some v => Ok v | None => Raise (KeyError k) end.
Proof. reflexivity. Qed.

Lemma result_bind_unfold {A B} (m : result A) (f : A -> result B) :
  m ≫= f = match m with Ok a => f a | Raise e => Raise e end.
Proof. reflexivity. Qed.

Lemma not_control_type t :
  t <> "above" -> t <> "below" -> t <> "time" ->
  bool_decide (t ∈ control_types) = false.
Proof.
  intros H1 H2 H3. apply bool_decide_eq_false_2. unfold control_types.
  rewrite !elem_of_cons, elem_of_nil. tauto.
Qed.

Lemma not_attack_type t :
  t <> "time" -> t <> "above" -> t <> "below" -> t <> "between" ->
  bool_decide (t ∈ attack_types) = false.
Proof.
  intros H1 H2 H3 H4. apply bool_decide_eq_false_2. unfold attack_types.
  rewrite !elem_of_cons, elem_of_nil. tauto.
Qed.

Ltac lookups :=
  repeat match goal with
         | |- context [ ?d !! ?k ] =>
             match type of d with
             | gmap string pyval => destruct (d !! k); simpl
             end
         end.

(** What one pass of the loop of [create_controls] does with an entry. *)
Lemma create_controls_body_cases ret entry :
  match type_lower entry with
  | Raise err => create_controls_body ret entry = Raise err
  | Ok t =>
      if bool_decide (t ∈ control_types) then
        match control_of entry with
        | Some c => create_controls_body ret entry = Ok (ret ++ [c])
        | None => exists err, create_controls_body ret entry = Raise err
        end
      else create_controls_body ret entry = Ok ret
  end.
Proof.
  unfold create_controls_body, control_of.
  destruct (type_lower entry) as [t | err]; [ | reflexivity ].
  cbn [mbind result_bind mret result_ret].
  destruct (String.eqb_spec t "above") as [-> | Ha].
  { simpl. rewrite !getitem_lookup. lookups; eauto. }
  destruct (String.eqb_spec t "below") as [-> | Hb].
  { simpl. rewrite !getitem_lookup. lookups; eauto. }
  destruct (String.eqb_spec t "time") as [-> | Ht].
  { simpl. rewrite !getitem_lookup. lookups; eauto. }
  rewrite (not_control_type t Ha Hb Ht). reflexivity.
Qed.

(** What one pass of the loop of [create_attacks] does with an entry. *)
Lemma create_attacks_body_cases ret entry :
  match type_lower entry with
  | Raise err => create_attacks_body ret entry = Raise err
  | Ok t =>
      if bool_decide (t ∈ attack_types) then
        match attack_of entry with
        | Some a => create_attacks_body ret entry = Ok (ret ++ [a])
        | None => exists err, create_attacks_body ret entry = Raise err
        end
      else create_attacks_body ret entry = Ok ret
  end.
Proof.
  unfold create_attacks_body, attack_of.
  destruct (type_lower entry) as [t | err]; [ | reflexivity ].
  cbn [mbind result_bind mret result_ret].
  destruct (String.eqb_spec t "time") as [-> | Ht].
  { simpl. rewrite !getitem_lookup. lookups; eauto. }
  destruct (String.eqb_spec t "above") as [-> | Ha].
  { simpl. rewrite !getitem_lookup. lookups; eauto. }
  destruct (String.eqb_spec t "below") as [-> | Hb].
  { simpl. rewrite !getitem_lookup. lookups; eauto. }
  destruct (String.eqb_spec t "between") as [-> | Hw].
  { simpl. rewrite !getitem_lookup. lookups; eauto. }
  rewrite (not_attack_type t Ht Ha Hb Hw). reflexivity.
Qed.

(** Both factories are the same loop around their body. *)
Section Factory.

Context {R : Type}.
Variable types : list string.
Variable rule_of : pydict -> option R.
Variable body : list R -> pydict -> result (list R).
Variable loop : list R -> list pydict -> result (list R).

Hypothesis loop_nil : forall ret, loop ret [] = Ok ret.
Hypothesis loop_cons : forall ret entry rest,
  loop ret (entry :: rest) =
  match body ret entry with
  | Ok ret' => loop ret' rest
  | Raise err => Raise err
  end.
Hypothesis body_cases : forall ret entry,
  match type_lower entry with
  | Raise err => body ret entry = Raise err
  | Ok t =>
      if bool_decide (t ∈ types) then
        match rule_of entry with
        | Some r => body ret entry = Ok (ret ++ [r])
        | None => exists err, body ret entry = Raise err
        end
      else body ret entry = Ok ret
  end.

(** An entry of another type is passed over. *)
Lemma loop_drops pre entry post t : forall ret,
  type_lower entry = Ok t -> t ∉ types ->
  loop ret (pre ++ entry :: post) = loop ret (pre ++ post).
Proof.
  intros ret Ht Hnot. revert ret.
  induction pre as [ | e pre' IH ]; intros ret.
  - simpl. rewrite loop_cons.
    pose proof (body_cases ret entry) as Hb. rewrite Ht in Hb.
    rewrite (bool_decide_eq_false_2 _ Hnot) in Hb. rewrite Hb. reflexivity.
  - simpl. rewrite !loop_cons. destruct (body ret e); [ apply IH | reflexivity ].
Qed.

(** The rules built are those of the entries of a known type, in the
    order of the entries. *)
Lemma loop_builds entries : forall ret rs,
  loop ret entries = Ok rs ->
  exists built, rs = ret ++ built /\
    Forall2 (fun entry r => rule_of entry = Some r)
            (filter (fun entry => has_type_in types entry = true) entries) built.
Proof.
  induction entries as [ | e rest IH ]; intros ret rs Hrun.
  - rewrite loop_nil in Hrun. injection Hrun as <-.
    exists []. rewrite app_nil_r. split; [ reflexivity | constructor ].
  - rewrite loop_cons in Hrun.
    pose proof (body_cases ret e) as Hb. unfold has_type_in.
    destruct (type_lower e) as [t | err] eqn:Ht.
    + destruct (bool_decide (t ∈ types)) eqn:Hin.
      * rewrite filter_cons_True by (rewrite Ht; exact Hin).
        destruct (rule_of e) as [r | ] eqn:Hr.
        -- rewrite Hb in Hrun. destruct (IH _ _ Hrun) as (built & -> & Hall).
           exists (r :: built). rewrite <- app_assoc. split; [ reflexivity | ].
           constructor; [ exact Hr | exact Hall ].
        -- destruct Hb as [err Hb]. rewrite Hb in Hrun. discriminate.
      * rewrite filter_cons_False by (rewrite Ht, Hin; discriminate).
        rewrite Hb in Hrun. apply IH. exact Hrun.
    + rewrite Hb in Hrun. discriminate.
Qed.

(** The loop returns when every entry has a string type and every entry
    of a known type has the keys its rule needs. *)
Lemma loop_returns entries : forall ret,
  (forall entry, entry ∈ entries ->
     exists t, type_lower entry = Ok t /\ (t ∈ types -> is_Some (rule_of entry))) ->
  exists rs, loop ret entries = Ok rs.
Proof.
  induction entries as [ | e rest IH ]; intros ret Hall.
  - exists ret. apply loop_nil.
  - rewrite loop_cons.
    destruct (Hall e) as (t & Ht & Hsome); [ left | ].
    pose proof (body_cases ret e) as Hb. rewrite Ht in Hb.
    assert (Hrest : forall entry, entry ∈ rest ->
              exists t, type_lower entry = Ok t /\
                        (t ∈ types -> is_Some (rule_of entry)))
      by (intros entry Hin; apply Hall; right; exact Hin).
    destruct (bool_decide (t ∈ types)) eqn:Hin.
    + apply bool_decide_eq_true in Hin. destruct (Hsome Hin) as [r Hr].
      rewrite Hr in Hb. rewrite Hb. apply IH. exact Hrest.
    + rewrite Hb. apply IH. exact Hrest.
Qed.

End Factory.

(** C10. An entry whose lowercased type is none of "above", "below",
    "time" adds nothing to the list [create_controls] builds and raises
    nothing, and likewise for [create_attacks] and "time", "above", "below",
    "between"; the list a factory returns holds exactly the rules of the
    entries of a known type, in the order of the entries; and a factory
    returns whenever each entry has a string type and each entry of a known
    type has the keys of its rule. *)
Theorem factories_keep_known_types_only :
  (forall pre entry post t,
     type_lower entry = Ok t -> t ∉ control_types ->
     create_controls (pre ++ entry :: post) = create_controls (pre ++ post)) /\
  (forall pre entry post t,
     type_lower entry = Ok t -> t ∉ attack_types ->
     create_attacks (pre ++ entry :: post) = create_attacks (pre ++ post)) /\
  (forall entries rs,
     create_controls entries = Ok rs ->
     Forall2 (fun entry c => control_of entry = Some c)
       (filter (fun entry => has_type_in control_types entry = true) entries) rs) /\
  (forall entries rs,
     create_attacks entries = Ok rs ->
     Forall2 (fun entry a => attack_of entry = Some a)
       (filter (fun entry => has_type_in attack_types entry = true) entries) rs) /\
  (forall entries,
     (forall entry, entry ∈ entries ->
        exists t, type_lower entry = Ok t /\
                  (t ∈ control_types -> is_Some (control_of entry))) ->
     exists rs, create_controls entries = Ok rs) /\
  (forall entries,
     (forall entry, entry ∈ entries ->
        exists t, type_lower entry = Ok t /\
                  (t ∈ attack_types -> is_Some (attack_of entry))) ->
     exists rs, create_attacks entries = Ok rs).
Proof.
  assert (Hc : forall ret entry rest,
             create_controls_loop ret (entry :: rest) =
             match create_controls_body ret entry with
             | Ok ret' => create_controls_loop ret' rest
             | Raise err => Raise err
             end) by reflexivity.
  assert (Ha : forall ret entry rest,
             create_attacks_loop ret (entry :: rest) =
             match create_attacks_body ret entry with
             | Ok ret' => create_attacks_loop ret' rest
             | Raise err => Raise err
             end) by reflexivity.
  repeat apply conj.
  - intros pre entry post t Ht Hnot. unfold create_controls.
    apply (loop_drops control_types control_of create_controls_body
             create_controls_loop Hc create_controls_body_cases
             pre entry post t [] Ht Hnot).
  - intros pre entry post t Ht Hnot. unfold create_attacks.
    apply (loop_drops attack_types attack_of create_attacks_body
             create_attacks_loop Ha create_attacks_body_cases
             pre entry post t [] Ht Hnot).
  - intros entries rs Hrun. unfold create_controls in Hrun.
    destruct (loop_builds control_types control_of create_controls_body
                create_controls_loop (fun _ => eq_refl) Hc
                create_controls_body_cases entries [] rs Hrun) as (built & -> & H).
    exact H.
  - intros entries rs Hrun. unfold create_attacks in Hrun.
    destruct (loop_builds attack_types attack_of create_attacks_body
                create_attacks_loop (fun _ => eq_refl) Ha
                create_attacks_body_cases entries [] rs Hrun) as (built & -> & H).
    exact H.
  - intros entries Hall. unfold create_controls.
    apply (loop_returns control_types control_of create_controls_body
             create_controls_loop (fun _ => eq_refl) Hc
             create_controls_body_cases entries [] Hall).
  - intros entries Hall. unfold create_attacks.
    apply (loop_returns attack_types attack_of create_attacks_body
             create_attacks_loop (fun _ => eq_refl) Ha
             create_attacks_body_cases entries [] Hall).
Qed.

Lemma factories_keep_known_types_only_witness :
  create_controls [entry_above; entry_unknown; entry_time]
    = create_controls [entry_above; entry_time] /\
  create_controls [entry_above; entry_unknown; entry_time]
    = Ok [AboveControl (VStr "P1") (VStr "closed") (VStr "T1") (VInt 20);
          TimeControl (VStr "P1") (VStr "open") (VInt 3600)] /\
  create_attacks [attack_unknown; attack_between]
    = create_attacks [attack_between].
Proof.
  pose proof factories_keep_known_types_only as (Hc & Ha & _).
  split; [ | split ].
  - apply (Hc [entry_above] entry_unknown [entry_time] "between").
    + reflexivity.
    + vm_compute. intros H.
      repeat (apply elem_of_cons in H; destruct H as [H | H]; [ discriminate H | ]).
      apply elem_of_nil in H. exact H.
  - vm_compute. reflexivity.
  - apply (Ha [] attack_unknown [attack_between] "replay").
    + reflexivity.
    + vm_compute. intros H.
      repeat (apply elem_of_cons in H; destruct H as [H | H]; [ discriminate H | ]).
      apply elem_of_nil in H. exact H.
Defined.

(** ** More properties of generic_plc.py *)

Import GenericPLC Spec Examples Setup.

(** *** generate_real_tags and generate_tags *)

Lemma append_real_tags_named names : forall real_tags,
  append_real_tags real_tags names =
  real_tags ++ map (fun tag => (tag, 1, "REAL")) (named names).
Proof.
  induction names as [ | tag rest IH ]; intros real_tags.
  - simpl. rewrite app_nil_r. reflexivity.
  - cbn [append_real_tags]. rewrite IH. unfold named.
    destruct (String.eqb_spec tag EmptyString) as [-> | Hne].
    + rewrite filter_cons_False by (intros H; apply H; reflexivity). reflexivity.
    + rewrite filter_cons_True by exact Hne. cbn [map]. rewrite <- app_assoc.
      reflexivity.
Qed.

Lemma append_tags_named names : forall tags,
  append_tags tags names = tags ++ map (fun tag => (tag, 1)) (named names).
Proof.
  induction names as [ | tag rest IH ]; intros tags.
  - simpl. rewrite app_nil_r. reflexivity.
  - cbn [append_tags]. rewrite IH. unfold named.
    destruct (String.eqb_spec tag EmptyString) as [-> | Hne]; cbn [negb andb].
    + rewrite filter_cons_False by (intros H; apply H; reflexivity). reflexivity.
    + rewrite filter_cons_True by exact Hne. cbn [map]. rewrite <- app_assoc.
      reflexivity.
Qed.

Lemma named_app xs ys : named (xs ++ ys) = named xs ++ named ys.
Proof. unfold named. apply filter_app. Qed.

Lemma generate_real_tags_named sensors dependants actuators :
  generate_real_tags sensors dependants actuators =
  map (fun tag => (tag, 1, "REAL")) (named (sensors ++ dependants ++ actuators)).
Proof.
  unfold generate_real_tags. cbn zeta. rewrite !append_real_tags_named.
  rewrite !named_app, !map_app. cbn [app]. rewrite <- app_assoc. reflexivity.
Qed.

Lemma generate_tags_named taggable :
  generate_tags (Some taggable) = map (fun tag => (tag, 1)) (named taggable).
Proof.
  destruct taggable as [ | tag rest ]; [ reflexivity | ].
  unfold generate_tags. rewrite append_tags_named. reflexivity.
Qed.

(** X1. [generate_real_tags] lists the sensors, then the dependants, then
    the actuators, each group in its order, every name as
    [(name, 1, 'REAL')], and leaves out the empty names, nothing else: a name
    that occurs in two groups, or twice in one, is listed each time. *)
Theorem generate_real_tags_lists_nonempty_names sensors dependants actuators :
  generate_real_tags sensors dependants actuators =
    map (fun tag => (tag, 1, "REAL")) (named (sensors ++ dependants ++ actuators)) /\
  (forall tag index type,
     (tag, index, type) ∈ generate_real_tags sensors dependants actuators <->
     tag <> EmptyString /\ index = 1 /\ type = "REAL" /\
     (tag ∈ sensors \/ tag ∈ dependants \/ tag ∈ actuators)) /\
  (length (generate_real_tags sensors dependants actuators) <=
   length sensors + length dependants + length actuators)%nat.
Proof.
  pose proof (generate_real_tags_named sensors dependants actuators) as Heq.
  split; [ exact Heq | ]. split.
  - intros tag index type. rewrite Heq, list_elem_of_fmap. unfold named. split.
    + intros (n & Hn & Hin). injection Hn as -> -> ->.
      apply list_elem_of_filter in Hin. destruct Hin as [Hne Hin].
      rewrite !elem_of_app in Hin. auto.
    + intros (Hne & -> & -> & Hin). exists tag. split; [ reflexivity | ].
      apply list_elem_of_filter. split; [ exact Hne | ].
      rewrite !elem_of_app. exact Hin.
  - rewrite Heq, length_map. unfold named.
    etransitivity; [ apply length_filter | ]. rewrite !length_app. lia.
Qed.

(** X2. [generate_tags] gives no tag for [None] and for the empty list; for
    a list it gives [(name, 1)] for each non-empty name, in order, so
    generating tags again from the names of the result changes nothing; and
    the real tags of a PLC without dependants are its sensor tags followed by
    its actuator tags, each with the type added. *)
Theorem generate_tags_keeps_nonempty_names :
  generate_tags None = [] /\
  generate_tags (Some []) = [] /\
  (forall taggable,
     generate_tags (Some taggable) = map (fun tag => (tag, 1)) (named taggable) /\
     generate_tags (Some (map fst (generate_tags (Some taggable))))
       = generate_tags (Some taggable)) /\
  (forall sensors actuators,
     map fst (generate_real_tags sensors [] actuators) =
     generate_tags (Some sensors) ++ generate_tags (Some actuators)).
Proof.
  split; [ reflexivity | ]. split; [ reflexivity | ]. split.
  - intros taggable. split; [ apply generate_tags_named | ].
    rewrite !generate_tags_named, map_map. cbn [fst]. rewrite map_id.
    f_equal. unfold named. apply list_filter_filter_l.
    intros x Hx. exact Hx.
  - intros sensors actuators.
    rewrite generate_real_tags_named, !generate_tags_named. cbn [app].
    rewrite named_app, map_map, map_app. reflexivity.
Qed.

(** *** get_tag and set_tag together *)

Lemma declares_outcome tag d w :
  (declares tag d w).2 = w /\
  (forall b, (declares tag d w).1 = Ok b -> b = declares_tag tag d).
Proof.
  unfold declares, declares_tag.
  destruct (sensors d) as [ss | ]; [ | split; [ reflexivity | discriminate ] ].
  simpl. destruct (py_in tag ss); simpl.
  - split; [ reflexivity | ]. intros b H. injection H as <-. reflexivity.
  - destruct (actuators d) as [acts | ]; [ | split; [ reflexivity | discriminate ] ].
    simpl. split; [ reflexivity | ]. intros b H. injection H as <-. reflexivity.
Qed.

(** Whatever the topology, the scan either raises and leaves the world as
    it is, or makes one network read, to a descriptor of the list that is
    not at the PLC's own position and declares the tag. *)
Lemma get_tag_scan_outcome self tag plcs : forall i w,
  ((get_tag_scan self tag i plcs w).2 = w /\
   exists e, (get_tag_scan self tag i plcs w).1 = Raise e) \/
  (exists k d, plcs !! k = Some d /\ Z.of_nat (i + k) <> yaml_index self /\
     declares_tag tag d = true /\
     get_tag_scan self tag i plcs w = receive (tag, 1) (public_ip d) w).
Proof.
  induction plcs as [ | d rest IH ]; intros i w.
  - left. split; [ reflexivity | eexists; reflexivity ].
  - cbn [get_tag_scan].
    destruct (Z.eqb_spec (Z.of_nat i) (yaml_index self)) as [Heq | Hne].
    + destruct (IH (S i) w) as [Hl | (k & d' & Hk & Hpos & Hdec & Hrun)];
        [ left; exact Hl | ].
      right. exists (S k), d'. split; [ exact Hk | ].
      split; [ | split; [ exact Hdec | exact Hrun ] ].
      replace (i + S k)%nat with (S i + k)%nat by lia. exact Hpos.
    + rewrite bind_unfold.
      destruct (declares_outcome tag d w) as [Hw Hb].
      destruct (declares tag d w) as [[b | e] w0]; cbn [fst snd] in Hw, Hb; subst w0.
      * rewrite (Hb b eq_refl). destruct (declares_tag tag d) eqn:Hdec.
        -- right. exists 0%nat, d. split; [ reflexivity | ].
           split; [ rewrite Nat.add_0_r; exact Hne | ]. split; [ exact Hdec | reflexivity ].
        -- destruct (IH (S i) w) as [Hl | (k & d' & Hk & Hpos & Hdec' & Hrun)];
             [ left; exact Hl | ].
           right. exists (S k), d'. split; [ exact Hk | ].
           split; [ | split; [ exact Hdec' | exact Hrun ] ].
           replace (i + S k)%nat with (S i + k)%nat by lia. exact Hpos.
      * left. split; [ reflexivity | eexists; reflexivity ].
Qed.

(** X3. [get_tag] only reads. It never changes a tag value or the
    database; it issues no network read for a tag of the PLC's own lists, and
    for any other tag at most one, to a descriptor that is not at the PLC's
    own index and declares the tag, whose answer it returns; whenever it
    does not read from a peer it leaves the world exactly as it was. *)
Theorem get_tag_only_reads self tag w :
  let r := get_tag self tag w in
  tags r.2 = tags w /\ db r.2 = db w /\ txn r.2 = txn w /\
  (owns self tag -> r.2 = w) /\
  (r.2 = w \/
   exists k d,
     intermediate_yaml_plcs self !! k = Some d /\
     Z.of_nat k <> yaml_index self /\
     declares_tag tag d = true /\
     ~ owns self tag /\
     r.1 = network w (public_ip d) (tag, 1) /\
     trace r.2 = trace w ++ [EvReceive (tag, 1) (public_ip d)]).
Proof.
  intros r. subst r. unfold get_tag.
  destruct (py_in tag (plc_sensors self) || py_in tag (plc_actuators self))%bool eqn:Hown.
  - rewrite get_keeps_world. repeat split; auto.
  - assert (Hnot : ~ owns self tag).
    { intros H. apply owns_py_in in H. congruence. }
    destruct (get_tag_scan_outcome self tag (intermediate_yaml_plcs self) 0%nat w)
      as [[Hw _] | (k & d & Hk & Hpos & Hdec & Hrun)].
    + rewrite Hw. repeat split; auto; intros H; contradiction.
    + rewrite Hrun. unfold receive. cbn [fst snd with_event tags db txn trace].
      split; [ reflexivity | ]. split; [ reflexivity | ]. split; [ reflexivity | ].
      split; [ intros H; contradiction | ].
      right. exists k, d. repeat split; auto.
Qed.

(** X4. A value written with [set_tag] is the value [get_tag] returns for
    that tag afterwards, read locally and without touching the world. *)
Theorem get_tag_returns_what_set_tag_stored self tag value w w1 :
  set_tag self tag value w = (Ok tt, w1) ->
  exists v, control_value value = Some v /\
            get_tag self tag w1 = (Ok (Decimal_of_int v), w1).
Proof.
  intros Hset. apply set_tag_ok in Hset. destruct Hset as (v & Hv & Hown & ->).
  exists v. split; [ exact Hv | ].
  rewrite (get_tag_local _ _ _ Hown). unfold get. cbn [tags with_tags].
  rewrite lookup_insert_eq. reflexivity.
Qed.

Lemma get_tag_returns_what_set_tag_stored_witness :
  get_tag plc1 "P1" (set_tag plc1 "P1" (VStr "Open") (quiet_world ∅)).2 =
  (Ok (Decimal_of_int 1), (set_tag plc1 "P1" (VStr "Open") (quiet_world ∅)).2).
Proof.
  destruct (get_tag_returns_what_set_tag_stored plc1 "P1" (VStr "Open")
              (quiet_world ∅) _ eq_refl) as (v & Hv & Hget).
  injection Hv as <-. exact Hget.
Defined.

Lemma with_tags_insert_insert k a b w :
  with_tags (insert k b) (with_tags (insert k a) w) = with_tags (insert k b) w.
Proof. unfold with_tags. cbn. rewrite insert_insert_eq. reflexivity. Qed.

Lemma with_tags_insert_commute k1 k2 a b w :
  k1 <> k2 ->
  with_tags (insert k2 b) (with_tags (insert k1 a) w) =
  with_tags (insert k1 a) (with_tags (insert k2 b) w).
Proof.
  intros Hne. unfold with_tags. cbn. rewrite insert_insert_ne by congruence.
  reflexivity.
Qed.

(** X5. Two calls of [set_tag] with control values: on the same tag the
    second decides alone (also when the tag is not the PLC's: both fail
    alike); on two different tags of the PLC the order of the calls does not
    matter. *)
Theorem set_tag_last_write_and_commute self w t1 t2 value1 value2 v1 v2 :
  control_value value1 = Some v1 ->
  control_value value2 = Some v2 ->
  (set_tag self t1 value1;; set_tag self t1 value2) w = set_tag self t1 value2 w /\
  (owns self t1 -> owns self t2 -> t1 <> t2 ->
     (set_tag self t1 value1;; set_tag self t2 value2) w =
     (set_tag self t2 value2;; set_tag self t1 value1) w).
Proof.
  intros H1 H2. split.
  - rewrite bind_unfold, !set_tag_unfold, H1, H2.
    destruct (py_in t1 (plc_sensors self) || py_in t1 (plc_actuators self))%bool eqn:E;
      [ | reflexivity ].
    rewrite set_tag_unfold, H2. cbn [plc_sensors plc_actuators]. rewrite E.
    rewrite with_tags_insert_insert. reflexivity.
  - intros Ho1 Ho2 Hne. apply owns_py_in in Ho1, Ho2.
    rewrite !bind_unfold, !set_tag_unfold, H1, H2, Ho1, Ho2.
    rewrite !set_tag_unfold, H1, H2, Ho1, Ho2.
    rewrite with_tags_insert_commute by congruence. reflexivity.
Qed.

Lemma set_tag_last_write_and_commute_witness :
  (set_tag plc1 "P1" (VStr "open");; set_tag plc1 "P1" (VStr "closed")) (quiet_world ∅)
    = set_tag plc1 "P1" (VStr "closed") (quiet_world ∅) /\
  (set_tag plc1 "P1" (VStr "open");; set_tag plc1 "T1" (VStr "closed")) (quiet_world ∅)
    = (set_tag plc1 "T1" (VStr "closed");; set_tag plc1 "P1" (VStr "open"))
        (quiet_world ∅).
Proof.
  split.
  - apply (set_tag_last_write_and_commute plc1 (quiet_world ∅) "P1" "P1"
             (VStr "open") (VStr "closed") 1 0 eq_refl eq_refl).
  - apply (set_tag_last_write_and_commute plc1 (quiet_world ∅) "P1" "T1"
             (VStr "open") (VStr "closed") 1 0 eq_refl eq_refl).
    + right. vm_compute. left.
    + left. vm_compute. left.
    + discriminate.
Defined.

(** X6. A tag that a peer declares is read from that peer whenever every
    entry scanned before it carries both lists and does not declare the tag,
    whatever the entries after it look like. The peer needs its [sensors]
    list; its [actuators] list is needed only when the tag is not among the
    sensors. *)
Theorem get_tag_reads_first_declaring_peer self tag before d after ss w :
  ~ owns self tag ->
  intermediate_yaml_plcs self = before ++ d :: after ->
  Z.of_nat (length before) <> yaml_index self ->
  (forall k p, before !! k = Some p ->
     Z.of_nat k = yaml_index self \/ (has_lists p /\ declares_tag tag p = false)) ->
  sensors d = Some ss ->
  (tag ∈ ss \/ exists acts, actuators d = Some acts /\ tag ∈ acts) ->
  get_tag self tag w =
  (network w (public_ip d) (tag, 1), with_event (EvReceive (tag, 1) (public_ip d)) w).
Proof.
  intros Hnot Hsplit Hpos Hbefore Hss Hdecl.
  assert (Hb : (py_in tag (plc_sensors self) || py_in tag (plc_actuators self))%bool
               = false).
  { destruct (py_in tag (plc_sensors self) || py_in tag (plc_actuators self))%bool eqn:E;
      [ | reflexivity ].
    exfalso. apply Hnot. apply owns_py_in. exact E. }
  unfold get_tag. rewrite Hb, Hsplit. clear Hb Hsplit Hnot.
  assert (Hgen : forall i,
            Z.of_nat (i + length before) <> yaml_index self ->
            (forall k p, before !! k = Some p ->
               Z.of_nat (i + k) = yaml_index self \/
               (has_lists p /\ declares_tag tag p = false)) ->
            get_tag_scan self tag i (before ++ d :: after) w =
            receive (tag, 1) (public_ip d) w).
  { clear Hpos Hbefore. induction before as [ | p rest IH ]; intros i Hpos Hbefore.
    - cbn [app get_tag_scan length] in *. rewrite Nat.add_0_r in Hpos.
      destruct (Z.eqb_spec (Z.of_nat i) (yaml_index self)); [ contradiction | ].
      rewrite bind_unfold. unfold declares. rewrite Hss.
      destruct (py_in tag ss) eqn:Hin; [ reflexivity | ].
      destruct Hdecl as [Hs | (acts & Ha & Hin')].
      + apply bool_decide_eq_false in Hin. contradiction.
      + rewrite Ha. unfold py_in. rewrite (bool_decide_eq_true_2 _ Hin'). reflexivity.
    - cbn [app get_tag_scan].
      assert (Hrest : get_tag_scan self tag (S i) (rest ++ d :: after) w =
                      receive (tag, 1) (public_ip d) w).
      { apply IH.
        - cbn [length] in Hpos. replace (S i + length rest)%nat
            with (i + S (length rest))%nat by lia. exact Hpos.
        - intros k q Hk. replace (S i + k)%nat with (i + S k)%nat by lia.
          apply (Hbefore (S k) q). exact Hk. }
      destruct (Z.eqb_spec (Z.of_nat i) (yaml_index self)) as [Heq | Hne];
        [ exact Hrest | ].
      destruct (Hbefore 0%nat p eq_refl) as [Hown | [Hlists Hdec]].
      + rewrite Nat.add_0_r in Hown. contradiction.
      + rewrite bind_unfold, (declares_with_lists _ _ _ Hlists), Hdec. exact Hrest. }
  apply (Hgen 0%nat); [ exact Hpos | exact Hbefore ].
Qed.

Lemma get_tag_reads_first_declaring_peer_witness :
  get_tag plc1_of_three "T2" answering_world =
  (Ok (mkDecimal 75 (-1)), with_event (EvReceive ("T2", 1) "10.0.0.2") answering_world).
Proof.
  apply (get_tag_reads_first_declaring_peer plc1_of_three
           "T2" [plc1_data] plc2_no_actuators [plc3_data] ["T2"] answering_world).
  - intros [H | H]; vm_compute in H;
      (apply elem_of_cons in H; destruct H as [H | H];
       [ discriminate H | apply elem_of_nil in H; exact H ]).
  - reflexivity.
  - discriminate.
  - intros [ | k ] p Hk; [ left; reflexivity | discriminate Hk ].
  - reflexivity.
  - left. left.
Defined.

(** *** The sync flag across calls *)

(** X7. After [set_sync(flag)] with an [int(flag)] of the signed 64-bit
    range, [get_sync] returns [bool(int(flag))] when the sync table has a
    row for this PLC; when it has none, [set_sync] still returns, having
    changed no row, and [get_sync] raises, the row it subscripts being
    [None]. *)
Theorem get_sync_reads_what_set_sync_wrote self flag v w :
  py_int flag = Ok v ->
  - 2 ^ 63 <= v < 2 ^ 63 ->
  let w1 := (set_sync self flag w).2 in
  (forall old, fetchone_0 (sync (view w)) (plc_name self) = Ok old ->
     get_sync self w1 =
       (Ok (negb (v =? 0)%Z), with_event (EvGetSync (negb (v =? 0)%Z)) w1)) /\
  (forall e, fetchone_0 (sync (view w)) (plc_name self) = Raise e ->
     (set_sync self flag w).1 = Ok tt /\
     sync (db w1) = sync (view w) /\
     get_sync self w1 = (Raise TypeError, w1)).
Proof.
  intros Hint Hrange w1. subst w1.
  rewrite (set_sync_run _ _ _ _ Hint (proj2 (in_int64_spec v) Hrange)). cbn [fst snd].
  split.
  - intros old Hold. rewrite get_sync_unfold. cbn [view txn db sync].
    rewrite fetchone_0_update_own, Hold. reflexivity.
  - intros e He. split; [ reflexivity | ].
    assert (Hsame : update_sync v (plc_name self) (sync (view w)) = sync (view w)).
    { revert He. unfold fetchone_0, update_sync.
      induction (sync (view w)) as [ | [n f] rest IH ]; [ reflexivity | ].
      cbn [map fst]. destruct (decide (n = plc_name self)) as [-> | Hn].
      - rewrite filter_cons_True by reflexivity. discriminate.
      - rewrite filter_cons_False by (simpl; congruence). intros H.
        rewrite (IH H). reflexivity. }
    split; [ exact Hsame | ].
    rewrite get_sync_unfold. cbn [view txn db sync].
    rewrite fetchone_0_update_own, He.
    revert He. unfold fetchone_0.
    destruct (filter _ _); [ intros H; injection H as <-; reflexivity | discriminate ].
Qed.

Lemma get_sync_reads_what_set_sync_wrote_witness :
  (get_sync plc1 (set_sync plc1 (OfBool true) idle_world).2).1 = Ok true /\
  (get_sync plc1 (set_sync plc1 (OfInt 1) (quiet_world ∅)).2).1 = Raise TypeError.
Proof.
  split.
  - pose proof (get_sync_reads_what_set_sync_wrote plc1 (OfBool true) 1 idle_world
                  eq_refl ltac:(lia)) as [H _].
    rewrite (H 0 eq_refl). reflexivity.
  - pose proof (get_sync_reads_what_set_sync_wrote plc1 (OfInt 1) 1 (quiet_world ∅)
                  eq_refl ltac:(lia)) as [_ H].
    destruct (H TypeError eq_refl) as (_ & _ & Hget). rewrite Hget. reflexivity.
Defined.

Lemma update_sync_twice a b who rows :
  update_sync b who (update_sync a who rows) = update_sync b who rows.
Proof.
  unfold update_sync. rewrite map_map. apply map_ext. intros [n f]. cbn [fst].
  destruct (decide (n = who)) as [Hn | Hn]; cbn [fst].
  - destruct (decide (n = who)); [ reflexivity | contradiction ].
  - destruct (decide (n = who)); [ contradiction | reflexivity ].
Qed.

(** X8. Of two calls of [set_sync] in a row, both with an [int(flag)] of
    the signed 64-bit range, the second decides the database: it is left as
    the second call alone would leave it, so calling [set_sync] again with
    the same flag changes nothing in the database. *)
Theorem set_sync_second_call_decides self flag1 flag2 v1 v2 w :
  py_int flag1 = Ok v1 -> - 2 ^ 63 <= v1 < 2 ^ 63 ->
  py_int flag2 = Ok v2 -> - 2 ^ 63 <= v2 < 2 ^ 63 ->
  let twice := (set_sync self flag1;; set_sync self flag2) w in
  let once := set_sync self flag2 w in
  twice.1 = Ok tt /\
  db twice.2 = db once.2 /\ txn twice.2 = None /\ tags twice.2 = tags w.
Proof.
  intros H1 Hr1 H2 Hr2 twice once. subst twice once.
  apply in_int64_spec in Hr1, Hr2.
  rewrite bind_unfold, (set_sync_run _ _ _ _ H1 Hr1), !(set_sync_run _ _ _ _ H2 Hr2).
  cbn [fst snd db txn tags view sync master_time].
  rewrite update_sync_twice. repeat split.
Qed.

Lemma set_sync_second_call_decides_witness :
  db ((set_sync plc1 (OfInt 0);; set_sync plc1 (OfBool true)) idle_world).2 =
  db (set_sync plc1 (OfBool true) idle_world).2.
Proof.
  apply (set_sync_second_call_decides plc1 (OfInt 0) (OfBool true) 0 1 idle_world
           eq_refl ltac:(lia) eq_refl ltac:(lia)).
Defined.

(** *** The handshake with the simulator *)

Lemma set_tag_database self tag value w :
  db (set_tag self tag value w).2 = db w /\ txn (set_tag self tag value w).2 = txn w.
Proof.
  rewrite set_tag_unfold. destruct (control_value value); [ | split; reflexivity ].
  destruct (py_in tag (plc_sensors self) || py_in tag (plc_actuators self))%bool;
    split; reflexivity.
Qed.

Lemma write_all_database self command targets : forall w,
  db (for_each targets (fun actuator => set_tag self actuator command) w).2 = db w /\
  txn (for_each targets (fun actuator => set_tag self actuator command) w).2 = txn w.
Proof.
  induction targets as [ | t rest IH ]; intros w; [ split; reflexivity | ].
  cbn [for_each]. rewrite bind_unfold.
  destruct (set_tag_database self t command w) as [Hd Ht].
  destruct (set_tag self t command w) as [[[] | e] w1]; cbn [snd] in Hd, Ht |- *.
  - destruct (IH w1) as [Hd' Ht']. rewrite Hd', Ht'. auto.
  - auto.
Qed.

Lemma apply_controls_database cc self cs : forall w,
  db (apply_controls cc self cs w).2 = db w /\
  txn (apply_controls cc self cs w).2 = txn w.
Proof.
  induction cs as [ | c rest IH ]; intros w; [ split; reflexivity | ].
  rewrite apply_controls_cons, control_apply_unfold.
  set (w0 := with_event (EvControl c) w).
  assert (Hstep : db (match cc c self (observe w0) with
                      | Ok true =>
                          match control_actuator c with
                          | VStr actuator => set_tag self actuator (control_action c) w0
                          | _ => (Raise TypeError, w0)
                          end
                      | Ok false => (Ok tt, w0)
                      | Raise e => (Raise e, w0)
                      end).2 = db w /\
                  txn (match cc c self (observe w0) with
                       | Ok true =>
                           match control_actuator c with
                           | VStr actuator => set_tag self actuator (control_action c) w0
                           | _ => (Raise TypeError, w0)
                           end
                       | Ok false => (Ok tt, w0)
                       | Raise e => (Raise e, w0)
                       end).2 = txn w).
  { destruct (cc c self (observe w0)) as [[ | ] | e]; try (split; reflexivity).
    destruct (control_actuator c); try (split; reflexivity).
    apply (set_tag_database self s (control_action c) w0). }
  destruct (match cc c self (observe w0) with
            | Ok true => _ | Ok false => _ | Raise e => _ end) as [[[] | e] w1];
    cbn [snd] in Hstep |- *.
  - destruct (IH w1) as [Hd Ht]. destruct Hstep as [Hd' Ht'].
    rewrite Hd, Ht, Hd', Ht'. auto.
  - exact Hstep.
Qed.

Lemma apply_attacks_database ac self ats : forall w,
  db (apply_attacks ac self ats w).2 = db w /\
  txn (apply_attacks ac self ats w).2 = txn w.
Proof.
  induction ats as [ | a rest IH ]; intros w; [ split; reflexivity | ].
  rewrite apply_attacks_cons, attack_apply_unfold.
  set (w0 := with_event (EvAttack a) w).
  assert (Hstep : db (match ac a self (observe w0) with
                      | Ok true =>
                          match attack_targets a with
                          | Ok targets =>
                              for_each targets
                                (fun t => set_tag self t (attack_command a)) w0
                          | Raise e => (Raise e, w0)
                          end
                      | Ok false => (Ok tt, w0)
                      | Raise e => (Raise e, w0)
                      end).2 = db w /\
                  txn (match ac a self (observe w0) with
                       | Ok true =>
                           match attack_targets a with
                           | Ok targets =>
                               for_each targets
                                 (fun t => set_tag self t (attack_command a)) w0
                           | Raise e => (Raise e, w0)
                           end
                       | Ok false => (Ok tt, w0)
                       | Raise e => (Raise e, w0)
                       end).2 = txn w).
  { destruct (ac a self (observe w0)) as [[ | ] | e]; try (split; reflexivity).
    destruct (attack_targets a) as [targets | e]; try (split; reflexivity).
    apply (write_all_database self (attack_command a) targets w0). }
  destruct (match ac a self (observe w0) with
            | Ok true => _ | Ok false => _ | Raise e => _ end) as [[[] | e] w1];
    cbn [snd] in Hstep |- *.
  - destruct (IH w1) as [Hd Ht]. destruct Hstep as [Hd' Ht'].
    rewrite Hd, Ht, Hd', Ht'. auto.
  - exact Hstep.
Qed.

(** The rules never touch the database. *)
Lemma apply_rules_database cc ac self w :
  db (apply_rules cc ac self w).2 = db w /\ txn (apply_rules cc ac self w).2 = txn w.
Proof.
  rewrite apply_rules_unfold.
  destruct (apply_controls_database cc self (controls self) w) as [Hd Ht].
  destruct (apply_controls cc self (controls self) w) as [[[] | e] w1];
    cbn [snd] in Hd, Ht |- *; [ | auto ].
  destruct (apply_attacks_database ac self (attacks self) w1) as [Hd' Ht'].
  rewrite Hd', Ht', Hd, Ht. auto.
Qed.

(** While the rest of the testbed leaves the own flag set, the wait goes
    on: one poll and one sleep per change, nothing else. *)
Lemma wait_while_flag_set self env : forall w z,
  txn w = None ->
  fetchone_0 (sync (db w)) (plc_name self) = Ok z -> z <> 0 ->
  Forall (quiet (plc_name self)) env ->
  let r := wait_for_release self env w in
  r.1 = Ok None /\ tags r.2 = tags w /\
  trace r.2 = trace w ++ polls (length env) /\
  txn r.2 = None /\ fetchone_0 (sync (db r.2)) (plc_name self) = Ok z.
Proof.
  induction env as [ | e rest IH ]; intros w z Htxn Hflag Hz Hall; cbn zeta.
  - cbn. rewrite app_nil_r. auto.
  - inversion Hall as [ | ? ? Hq Hrest ]; subst.
    rewrite wait_for_release_cons. cbn zeta.
    set (w0 := with_db (e (db w)) (txn w) w).
    assert (Hview : view w0 = e (db w)) by (unfold view, w0; cbn; rewrite Htxn; reflexivity).
    rewrite Hview, (Hq (db w)), Hflag.
    destruct (Z.eqb_spec z 0) as [Hz0 | _]; [ contradiction | ].
    set (w1 := with_event (EvSleep 10) (with_event (EvGetSync true) w0)).
    destruct (IH w1 z) as (H1 & H2 & H3 & H4 & H5); auto.
    { cbn. rewrite (Hq (db w)). exact Hflag. }
    split; [ exact H1 | ]. split; [ rewrite H2; reflexivity | ].
    split; [ | split; [ exact H4 | exact H5 ] ].
    rewrite H3. cbn. rewrite <- !app_assoc. reflexivity.
Qed.

(** X9. A pass of the main loop that completes leaves the PLC's own flag
    at 1 in the committed database, with no transaction open: [get_sync]
    reads it as set, and as long as the rest of the testbed leaves that flag
    as it is, a further pass only polls and sleeps, without returning from
    the wait, calling a rule or writing a tag. *)
Theorem completed_pass_waits_for_next_release
  (cc : Control -> GenericPLC -> Observable -> result bool)
  (ac : Attack -> GenericPLC -> Observable -> result bool)
  (self : GenericPLC) (env env' : list (Tables -> Tables)) (w w' : World) :
  main_loop_iteration cc ac self env w = (Ok (Some env'), w') ->
  txn w' = None /\
  fetchone_0 (sync (db w')) (plc_name self) = Ok 1 /\
  (get_sync self w').1 = Ok true /\
  (forall env2, Forall (quiet (plc_name self)) env2 ->
     let r := main_loop_iteration cc ac self env2 w' in
     r.1 = Ok None /\ tags r.2 = tags w' /\
     trace r.2 = trace w' ++ polls (length env2)).
Proof.
  intros Hrun. unfold main_loop_iteration in Hrun. rewrite bind_unfold in Hrun.
  pose proof (wait_for_release_polls self env w) as Hwait. cbn zeta in Hwait.
  destruct (wait_for_release self env w) as [[[rest | ] | e] w1];
    [ | discriminate | discriminate ].
  cbn [fst snd] in Hwait. destruct Hwait as (_ & k & _ & _ & Hflag & _).
  rewrite bind_unfold in Hrun.
  destruct (apply_rules_database cc ac self w1) as [Hd Ht].
  destruct (apply_rules cc ac self w1) as [[[] | e] w2]; [ | discriminate ].
  cbn [snd] in Hd, Ht.
  rewrite bind_unfold, (set_sync_run self (OfInt 1) 1 w2 eq_refl eq_refl) in Hrun.
  injection Hrun as _ <-.
  assert (Hview : view w2 = view w1) by (unfold view; rewrite Hd, Ht; reflexivity).
  assert (Hown : fetchone_0 (update_sync 1 (plc_name self) (sync (view w2)))
                   (plc_name self) = Ok 1).
  { rewrite fetchone_0_update_own, Hview, Hflag. reflexivity. }
  split; [ reflexivity | ]. split; [ exact Hown | ]. split.
  - rewrite get_sync_unfold. cbn [view txn db sync]. rewrite Hown. reflexivity.
  - intros env2 Hquiet r. subst r. unfold main_loop_iteration. rewrite bind_unfold.
    match goal with
    | |- context [ wait_for_release self env2 ?w3 ] =>
        destruct (wait_while_flag_set self env2 w3 1 eq_refl Hown ltac:(discriminate)
                    Hquiet) as (H1 & H2 & H3 & _);
        destruct (wait_for_release self env2 w3) as [res w4]
    end.
    cbn [fst snd] in H1, H2, H3. subst res. cbn [fst snd]. auto.
Qed.

Lemma completed_pass_waits_for_next_release_witness :
  fetchone_0
    (sync (db (main_loop_iteration always_control always_attack plc1_with_rules
                 [id; release "PLC1"; id] busy_world).2)) "PLC1" = Ok 1.
Proof.
  apply (completed_pass_waits_for_next_release always_control always_attack
           plc1_with_rules [id; release "PLC1"; id] [id] busy_world _ eq_refl).
Defined.

(** X10. When this connection has no transaction open and the own flag is
    set, the wait sleeps once for each change of the database that leaves
    the flag as it is, and returns at the first poll after a change that
    clears it, with the changes not yet seen left over. *)
Theorem wait_returns_when_flag_cleared self before e after w z :
  txn w = None ->
  fetchone_0 (sync (db w)) (plc_name self) = Ok z -> z <> 0 ->
  Forall (quiet (plc_name self)) before ->
  clears (plc_name self) e ->
  let r := wait_for_release self (before ++ e :: after) w in
  r.1 = Ok (Some after) /\ tags r.2 = tags w /\
  trace r.2 = trace w ++ polls (length before) ++ [EvGetSync false].
Proof.
  revert w. induction before as [ | e0 rest IH ]; intros w Htxn Hflag Hz Hall Hclear;
    cbn zeta.
  - cbn [app]. rewrite wait_for_release_cons. cbn zeta.
    set (w0 := with_db (e (db w)) (txn w) w).
    assert (Hview : view w0 = e (db w)) by (unfold view, w0; cbn; rewrite Htxn; reflexivity).
    rewrite Hview, (Hclear (db w) z Hflag). cbn. auto.
  - inversion Hall as [ | ? ? Hq Hrest ]; subst.
    rewrite <- app_comm_cons, wait_for_release_cons. cbn zeta.
    set (w0 := with_db (e0 (db w)) (txn w) w).
    assert (Hview : view w0 = e0 (db w)) by (unfold view, w0; cbn; rewrite Htxn; reflexivity).
    rewrite Hview, (Hq (db w)), Hflag.
    destruct (Z.eqb_spec z 0) as [Hz0 | _]; [ contradiction | ].
    set (w1 := with_event (EvSleep 10) (with_event (EvGetSync true) w0)).
    destruct (IH w1) as (H1 & H2 & H3); auto.
    { cbn. rewrite (Hq (db w)). exact Hflag. }
    split; [ exact H1 | ]. split; [ rewrite H2; reflexivity | ].
    rewrite H3. cbn. rewrite <- !app_assoc. reflexivity.
Qed.

Lemma wait_returns_when_flag_cleared_witness :
  (wait_for_release plc1 [id; release "PLC1"; id] busy_world).1 = Ok (Some [id]).
Proof.
  apply (wait_returns_when_flag_cleared plc1 [id] (release "PLC1") [id] busy_world 1).
  - reflexivity.
  - reflexivity.
  - discriminate.
  - constructor; [ intros t; reflexivity | constructor ].
  - intros t z Hz. unfold release. cbn [sync]. rewrite fetchone_0_update_own.
    rewrite Hz. reflexivity.
Defined.

(** *** The master clock *)

Lemma wait_for_release_clock self env : forall w,
  txn w = None -> Forall keeps_clock env ->
  txn (wait_for_release self env w).2 = None /\
  master_time (db (wait_for_release self env w).2) = master_time (db w).
Proof.
  induction env as [ | e rest IH ]; intros w Htxn Hall; [ cbn; auto | ].
  inversion Hall as [ | ? ? He Hrest ]; subst.
  rewrite wait_for_release_cons. cbn zeta.
  destruct (fetchone_0 _ _) as [flag | err]; [ | cbn; auto ].
  destruct (flag =? 0)%Z; [ cbn; auto | ].
  match goal with
  | |- context [ wait_for_release self rest ?w1 ] =>
      destruct (IH w1 Htxn Hrest) as [H1 H2]
  end.
  split; [ exact H1 | ]. rewrite H2. cbn. apply He.
Qed.

(** X19. A pass of the main loop never writes the master clock: when this
    connection has no transaction open and the rest of the testbed leaves the
    master_time table alone during the pass, the table is the same after the
    pass as before, whatever the rules do and however the pass ends, and
    [get_master_clock] returns what it returned before. *)
Theorem main_loop_leaves_master_clock
  (cc : Control -> GenericPLC -> Observable -> result bool)
  (ac : Attack -> GenericPLC -> Observable -> result bool)
  (self : GenericPLC) (env : list (Tables -> Tables)) (w : World) :
  txn w = None ->
  Forall keeps_clock env ->
  let w' := (main_loop_iteration cc ac self env w).2 in
  txn w' = None /\
  master_time (db w') = master_time (db w) /\
  (get_master_clock self w').1 = (get_master_clock self w).1.
Proof.
  intros Htxn Hall w'.
  assert (Hmain : txn w' = None /\ master_time (db w') = master_time (db w)).
  { subst w'. unfold main_loop_iteration. rewrite bind_unfold.
    destruct (wait_for_release_clock self env w Htxn Hall) as [H1 H2].
    destruct (wait_for_release self env w) as [[[rest | ] | e] w1];
      cbn [snd] in H1, H2 |- *; auto.
    rewrite bind_unfold.
    destruct (apply_rules_database cc ac self w1) as [Hd Ht].
    destruct (apply_rules cc ac self w1) as [[[] | e] w2]; cbn [snd] in Hd, Ht |- *.
    - rewrite bind_unfold, (set_sync_run self (OfInt 1) 1 w2 eq_refl eq_refl).
      cbn [snd txn db master_time]. split; [ reflexivity | ].
      unfold view. rewrite Ht, H1, Hd. exact H2.
    - rewrite Ht, Hd. auto. }
  destruct Hmain as [H1 H2]. split; [ exact H1 | ]. split; [ exact H2 | ].
  unfold get_master_clock, view. cbn [fst]. rewrite H1, Htxn, H2. reflexivity.
Qed.

Lemma main_loop_leaves_master_clock_witness :
  master_time
    (db (main_loop_iteration always_control always_attack plc1_with_rules
           [id; clear_flag "PLC1"; id] busy_world).2) = [(1, 41)].
Proof.
  apply (main_loop_leaves_master_clock always_control always_attack plc1_with_rules
           [id; clear_flag "PLC1"; id] busy_world eq_refl).
  repeat constructor.
Defined.

(** *** The factories on longer lists, and their errors *)

(** What a pass of a factory's loop appends does not depend on what it
    has collected so far. *)
Lemma create_controls_body_from_empty ret entry :
  create_controls_body ret entry =
  match create_controls_body [] entry with
  | Ok rs => Ok (ret ++ rs)
  | Raise err => Raise err
  end.
Proof.
  unfold create_controls_body.
  destruct (type_lower entry) as [t | err]; [ | reflexivity ].
  cbn [mbind result_bind mret result_ret].
  destruct (String.eqb_spec t "above") as [-> | Ha].
  { simpl. rewrite !getitem_lookup. lookups; reflexivity. }
  destruct (String.eqb_spec t "below") as [-> | Hb].
  { simpl. rewrite !getitem_lookup. lookups; reflexivity. }
  destruct (String.eqb_spec t "time") as [-> | Ht].
  { simpl. rewrite !getitem_lookup. lookups; reflexivity. }
  cbn. rewrite app_nil_r. reflexivity.
Qed.

Lemma create_attacks_body_from_empty ret entry :
  create_attacks_body ret entry =
  match create_attacks_body [] entry with
  | Ok rs => Ok (ret ++ rs)
  | Raise err => Raise err
  end.
Proof.
  unfold create_attacks_body.
  destruct (type_lower entry) as [t | err]; [ | reflexivity ].
  cbn [mbind result_bind mret result_ret].
  destruct (String.eqb_spec t "time") as [-> | Ht].
  { simpl. rewrite !getitem_lookup. lookups; reflexivity. }
  destruct (String.eqb_spec t "above") as [-> | Ha].
  { simpl. rewrite !getitem_lookup. lookups; reflexivity. }
  destruct (String.eqb_spec t "below") as [-> | Hb].
  { simpl. rewrite !getitem_lookup. lookups; reflexivity. }
  destruct (String.eqb_spec t "between") as [-> | Hw].
  { simpl. rewrite !getitem_lookup. lookups; reflexivity. }
  cbn. rewrite app_nil_r. reflexivity.
Qed.

Section FactoryLists.

Context {R : Type}.
Variable body : list R -> pydict -> result (list R).
Variable loop : list R -> list pydict -> result (list R).

Hypothesis loop_nil : forall ret, loop ret [] = Ok ret.
Hypothesis loop_cons : forall ret entry rest,
  loop ret (entry :: rest) =
  match body ret entry with
  | Ok ret' => loop ret' rest
  | Raise err => Raise err
  end.
Hypothesis body_from_empty : forall ret entry,
  body ret entry =
  match body [] entry with
  | Ok rs => Ok (ret ++ rs)
  | Raise err => Raise err
  end.

Lemma loop_from_empty entries : forall ret,
  loop ret entries =
  match loop [] entries with
  | Ok rs => Ok (ret ++ rs)
  | Raise err => Raise err
  end.
Proof.
  induction entries as [ | e rest IH ]; intros ret.
  - rewrite !loop_nil, app_nil_r. reflexivity.
  - rewrite !loop_cons, (body_from_empty ret e).
    destruct (body [] e) as [rs | err]; [ | reflexivity ].
    rewrite (IH (ret ++ rs)), (IH rs).
    destruct (loop [] rest) as [rs' | err]; [ | reflexivity ].
    rewrite app_assoc. reflexivity.
Qed.

Lemma loop_app xs ys :
  loop [] (xs ++ ys) =
  match loop [] xs with
  | Ok r1 => match loop [] ys with
             | Ok r2 => Ok (r1 ++ r2)
             | Raise err => Raise err
             end
  | Raise err => Raise err
  end.
Proof.
  assert (Hgen : forall ret,
            loop ret (xs ++ ys) =
            match loop ret xs with
            | Ok r1 => loop r1 ys
            | Raise err => Raise err
            end).
  { induction xs as [ | x rest IH ]; intros ret.
    - cbn [app]. rewrite loop_nil. reflexivity.
    - rewrite <- app_comm_cons, !loop_cons.
      destruct (body ret x); [ apply IH | reflexivity ]. }
  rewrite Hgen. destruct (loop [] xs) as [r1 | err]; [ | reflexivity ].
  apply loop_from_empty.
Qed.

(** The first entry on which a pass raises decides the exception. *)
Lemma loop_raises pre entry post rs err :
  loop [] pre = Ok rs -> body rs entry = Raise err ->
  loop [] (pre ++ entry :: post) = Raise err.
Proof.
  intros Hpre Hbody. rewrite loop_app, Hpre, loop_cons.
  rewrite body_from_empty in Hbody.
  destruct (body [] entry) as [r | e]; [ discriminate | ].
  injection Hbody as <-. reflexivity.
Qed.

End FactoryLists.

Lemma create_controls_loop_cons ret entry rest :
  create_controls_loop ret (entry :: rest) =
  match create_controls_body ret entry with
  | Ok ret' => create_controls_loop ret' rest
  | Raise err => Raise err
  end.
Proof. reflexivity. Qed.

Lemma create_attacks_loop_cons ret entry rest :
  create_attacks_loop ret (entry :: rest) =
  match create_attacks_body ret entry with
  | Ok ret' => create_attacks_loop ret' rest
  | Raise err => Raise err
  end.
Proof. reflexivity. Qed.

(** X11. A factory run on a list in two parts gives the rules of the second
    part after those of the first, and fails with the exception of the first
    part when that fails, else with that of the second; a list it returns
    is never longer than the list of entries. *)
Theorem factories_distribute_over_append :
  (forall xs ys,
     create_controls (xs ++ ys) =
     (r1 ← create_controls xs; r2 ← create_controls ys; mret (r1 ++ r2))) /\
  (forall xs ys,
     create_attacks (xs ++ ys) =
     (r1 ← create_attacks xs; r2 ← create_attacks ys; mret (r1 ++ r2))) /\
  (forall entries rs,
     create_controls entries = Ok rs -> (length rs <= length entries)%nat) /\
  (forall entries rs,
     create_attacks entries = Ok rs -> (length rs <= length entries)%nat).
Proof.
  split; [ | split; [ | split ] ].
  - intros xs ys. unfold create_controls.
    rewrite (loop_app create_controls_body create_controls_loop (fun _ => eq_refl)
               create_controls_loop_cons create_controls_body_from_empty).
    reflexivity.
  - intros xs ys. unfold create_attacks.
    rewrite (loop_app create_attacks_body create_attacks_loop (fun _ => eq_refl)
               create_attacks_loop_cons create_attacks_body_from_empty).
    reflexivity.
  - intros entries rs Hrun. unfold create_controls in Hrun.
    destruct (loop_builds control_types control_of create_controls_body
                create_controls_loop (fun _ => eq_refl) create_controls_loop_cons
                create_controls_body_cases entries [] rs Hrun) as (built & -> & H).
    cbn [app]. rewrite <- (Forall2_length _ _ _ H). apply length_filter.
  - intros entries rs Hrun. unfold create_attacks in Hrun.
    destruct (loop_builds attack_types attack_of create_attacks_body
                create_attacks_loop (fun _ => eq_refl) create_attacks_loop_cons
                create_attacks_body_cases entries [] rs Hrun) as (built & -> & H).
    cbn [app]. rewrite <- (Forall2_length _ _ _ H). apply length_filter.
Qed.

Lemma type_lower_insert s (entry : pydict) :
  type_lower (<["type" := VStr s]> entry) = Ok (lower s).
Proof. unfold type_lower, getitem. rewrite lookup_insert_eq. reflexivity. Qed.

(** X12. The type of an entry is matched without regard to letter case:
    two spellings of the type with the same lowercase give the same result,
    rule or exception, in both factories. *)
Theorem factories_ignore_case_of_type pre (entry : pydict) post s1 s2 :
  lower s1 = lower s2 ->
  create_controls (pre ++ <["type" := VStr s1]> entry :: post) =
  create_controls (pre ++ <["type" := VStr s2]> entry :: post) /\
  create_attacks (pre ++ <["type" := VStr s1]> entry :: post) =
  create_attacks (pre ++ <["type" := VStr s2]> entry :: post).
Proof.
  intros Hlower.
  assert (Hc : forall ret,
            create_controls_body ret (<["type" := VStr s1]> entry) =
            create_controls_body ret (<["type" := VStr s2]> entry)).
  { intros ret. unfold create_controls_body.
    rewrite !type_lower_insert, Hlower, !getitem_lookup.
    rewrite !lookup_insert_ne by discriminate. reflexivity. }
  assert (Ha : forall ret,
            create_attacks_body ret (<["type" := VStr s1]> entry) =
            create_attacks_body ret (<["type" := VStr s2]> entry)).
  { intros ret. unfold create_attacks_body.
    rewrite !type_lower_insert, Hlower, !getitem_lookup.
    rewrite !lookup_insert_ne by discriminate. reflexivity. }
  split.
  - unfold create_controls. generalize (@nil Control).
    induction pre as [ | p rest IH ]; intros ret.
    + cbn [app]. rewrite !create_controls_loop_cons, Hc. reflexivity.
    + rewrite <- !app_comm_cons, !create_controls_loop_cons.
      destruct (create_controls_body ret p); [ apply IH | reflexivity ].
  - unfold create_attacks. generalize (@nil Attack).
    induction pre as [ | p rest IH ]; intros ret.
    + cbn [app]. rewrite !create_attacks_loop_cons, Ha. reflexivity.
    + rewrite <- !app_comm_cons, !create_attacks_loop_cons.
      destruct (create_attacks_body ret p); [ apply IH | reflexivity ].
Qed.

Lemma factories_ignore_case_of_type_witness :
  create_controls [<["type" := VStr "ABOVE"]> entry_above] =
  create_controls [<["type" := VStr "above"]> entry_above].
Proof.
  apply (factories_ignore_case_of_type [] entry_above [] "ABOVE" "above" eq_refl).
Defined.

(** What a pass raises on an entry of a known type that lacks a key. *)
Lemma create_controls_body_missing ret entry t k :
  type_lower entry = Ok t -> t ∈ control_types ->
  first_missing (control_keys t) entry = Some k ->
  create_controls_body ret entry = Raise (KeyError k).
Proof.
  intros Ht Hin. unfold control_types in Hin.
  rewrite !elem_of_cons, elem_of_nil in Hin.
  unfold create_controls_body. rewrite Ht.
  cbn [mbind result_bind mret result_ret].
  destruct Hin as [-> | [-> | [-> | []]]]; simpl; rewrite !getitem_lookup;
    lookups; intros H; try discriminate H; injection H as <-; reflexivity.
Qed.

Lemma create_attacks_body_missing ret entry t k :
  type_lower entry = Ok t -> t ∈ attack_types ->
  first_missing (attack_keys t) entry = Some k ->
  create_attacks_body ret entry = Raise (KeyError k).
Proof.
  intros Ht Hin. unfold attack_types in Hin.
  rewrite !elem_of_cons, elem_of_nil in Hin.
  unfold create_attacks_body. rewrite Ht.
  cbn [mbind result_bind mret result_ret].
  destruct Hin as [-> | [-> | [-> | [-> | []]]]]; simpl; rewrite !getitem_lookup;
    lookups; intros H; try discriminate H; injection H as <-; reflexivity.
Qed.

(** X13. The first entry a factory cannot turn into a rule decides its
    exception, whatever follows: [KeyError('type')] for an entry without a
    type, [AttributeError] for a type that is not a string, and for an entry
    of a known type [KeyError] of the first key it lacks, in the order of the
    constructor's arguments. *)
Theorem factories_raise_on_first_bad_entry pre entry post :
  (forall cs, create_controls pre = Ok cs ->
     (entry !! "type" = None ->
        create_controls (pre ++ entry :: post) = Raise (KeyError "type")) /\
     (forall v, entry !! "type" = Some v -> (forall s, v <> VStr s) ->
        create_controls (pre ++ entry :: post) = Raise AttributeError) /\
     (forall t k, type_lower entry = Ok t -> t ∈ control_types ->
        first_missing (control_keys t) entry = Some k ->
        create_controls (pre ++ entry :: post) = Raise (KeyError k))) /\
  (forall ats, create_attacks pre = Ok ats ->
     (entry !! "type" = None ->
        create_attacks (pre ++ entry :: post) = Raise (KeyError "type")) /\
     (forall v, entry !! "type" = Some v -> (forall s, v <> VStr s) ->
        create_attacks (pre ++ entry :: post) = Raise AttributeError) /\
     (forall t k, type_lower entry = Ok t -> t ∈ attack_types ->
        first_missing (attack_keys t) entry = Some k ->
        create_attacks (pre ++ entry :: post) = Raise (KeyError k))).
Proof.
  assert (Hnone : entry !! "type" = None -> type_lower entry = Raise (KeyError "type")).
  { intros H. unfold type_lower, getitem. rewrite H. reflexivity. }
  assert (Hattr : forall v, entry !! "type" = Some v -> (forall s, v <> VStr s) ->
                    type_lower entry = Raise AttributeError).
  { intros v H Hv. unfold type_lower, getitem. rewrite H.
    destruct v; try reflexivity. exfalso. eapply Hv. reflexivity. }
  split.
  - intros cs Hpre.
    assert (Hraise : forall err, create_controls_body cs entry = Raise err ->
              create_controls (pre ++ entry :: post) = Raise err).
    { intros err Hb. unfold create_controls.
      apply (loop_raises create_controls_body create_controls_loop (fun _ => eq_refl)
               create_controls_loop_cons create_controls_body_from_empty
               pre entry post cs err Hpre Hb). }
    split; [ | split ].
    + intros H. apply Hraise.
      pose proof (create_controls_body_cases cs entry) as Hb.
      rewrite (Hnone H) in Hb. exact Hb.
    + intros v H Hv. apply Hraise.
      pose proof (create_controls_body_cases cs entry) as Hb.
      rewrite (Hattr v H Hv) in Hb. exact Hb.
    + intros t k Ht Hin Hk. apply Hraise.
      apply (create_controls_body_missing cs entry t k Ht Hin Hk).
  - intros ats Hpre.
    assert (Hraise : forall err, create_attacks_body ats entry = Raise err ->
              create_attacks (pre ++ entry :: post) = Raise err).
    { intros err Hb. unfold create_attacks.
      apply (loop_raises create_attacks_body create_attacks_loop (fun _ => eq_refl)
               create_attacks_loop_cons create_attacks_body_from_empty
               pre entry post ats err Hpre Hb). }
    split; [ | split ].
    + intros H. apply Hraise.
      pose proof (create_attacks_body_cases ats entry) as Hb.
      rewrite (Hnone H) in Hb. exact Hb.
    + intros v H Hv. apply Hraise.
      pose proof (create_attacks_body_cases ats entry) as Hb.
      rewrite (Hattr v H Hv) in Hb. exact Hb.
    + intros t k Ht Hin Hk. apply Hraise.
      apply (create_attacks_body_missing ats entry t k Ht Hin Hk).
Qed.

Lemma factories_raise_on_first_bad_entry_witness :
  create_controls [entry_above; entry_unknown; delete "action" entry_time; ∅]
    = Raise (KeyError "action").
Proof.
  pose proof (factories_raise_on_first_bad_entry [entry_above; entry_unknown]
                (delete "action" entry_time) [∅]) as [H _].
  destruct (H [AboveControl (VStr "P1") (VStr "closed") (VStr "T1") (VInt 20)]
              eq_refl) as (_ & _ & Hk).
  apply (Hk "time" "action").
  - reflexivity.
  - unfold control_types. right. right. left.
  - reflexivity.
Defined.

(** *** The constructor's scan for dependant sensors *)

Lemma type_lower_string entry t :
  type_lower entry = Ok t -> exists s, entry !! "type" = Some (VStr s).
Proof.
  unfold type_lower, getitem. destruct (entry !! "type") as [v | ]; [ | discriminate ].
  cbn. destruct v; try discriminate. intros _. eexists. reflexivity.
Qed.

(** Where [create_controls] returns, every entry has a string type. *)
Lemma create_controls_loop_typed entries : forall ret rs,
  create_controls_loop ret entries = Ok rs ->
  Forall (fun entry => exists s, entry !! "type" = Some (VStr s)) entries.
Proof.
  induction entries as [ | e rest IH ]; intros ret rs Hrun; [ constructor | ].
  rewrite create_controls_loop_cons in Hrun.
  pose proof (create_controls_body_cases ret e) as Hb.
  destruct (type_lower e) as [t | err] eqn:Ht.
  - constructor; [ eapply type_lower_string; exact Ht | ].
    destruct (create_controls_body ret e) as [ret' | err]; [ | discriminate ].
    eapply IH. exact Hrun.
  - rewrite Hb in Hrun. discriminate.
Qed.

Lemma dependant_sensors_loop_cons acc control rest s :
  control !! "type" = Some (VStr s) ->
  dependant_sensors_loop acc (control :: rest) =
  if needs_dependant control then
    match control !! "dependant" with
    | Some d => dependant_sensors_loop (acc ++ [d]) rest
    | None => Raise (KeyError "dependant")
    end
  else dependant_sensors_loop acc rest.
Proof.
  intros Ht. cbn [dependant_sensors_loop]. unfold needs_dependant, getitem.
  rewrite Ht. cbn [mbind result_bind mret result_ret].
  destruct (is_not_Time (VStr s)); [ | reflexivity ].
  destruct (control !! "dependant"); reflexivity.
Qed.

(** The outcome of the scan on entries that all have a string type. *)
Lemma dependant_sensors_loop_cases entries :
  Forall (fun entry : pydict => exists s, entry !! "type" = Some (VStr s)) entries ->
  forall acc,
  (dependant_sensors_loop acc entries = Raise (KeyError "dependant") /\
   exists e, e ∈ entries /\ needs_dependant e = true /\ e !! "dependant" = None) \/
  (exists deps,
     dependant_sensors_loop acc entries = Ok (acc ++ deps) /\
     Forall2 (fun (e : pydict) d => e !! "dependant" = Some d)
       (filter (fun e => needs_dependant e = true) entries) deps /\
     forall e, e ∈ entries -> needs_dependant e = true -> is_Some (e !! "dependant")).
Proof.
  induction 1 as [ | e rest [s Hs] Hrest IH ]; intros acc.
  - right. exists []. cbn. rewrite app_nil_r. split; [ reflexivity | ].
    split; [ constructor | ]. intros e He. apply elem_of_nil in He. contradiction.
  - rewrite (dependant_sensors_loop_cons acc e rest s Hs).
    destruct (needs_dependant e) eqn:Hn.
    + destruct (e !! "dependant") as [d | ] eqn:Hd.
      * destruct (IH (acc ++ [d])) as [(Hr & e' & He' & Hn' & Hd') | (deps & Hr & Hall & Hsome)].
        -- left. split; [ exact Hr | ]. exists e'. split; [ right; exact He' | auto ].
        -- right. exists (d :: deps). rewrite Hr, <- app_assoc. split; [ reflexivity | ].
           split.
           ++ rewrite filter_cons_True by exact Hn. constructor; [ exact Hd | exact Hall ].
           ++ intros e' He' Hn'. apply elem_of_cons in He'.
              destruct He' as [-> | He']; [ rewrite Hd; eexists; reflexivity | ].
              apply Hsome; assumption.
      * left. split; [ reflexivity | ]. exists e. split; [ left | auto ].
    + destruct (IH acc) as [(Hr & e' & He' & Hn' & Hd') | (deps & Hr & Hall & Hsome)].
      * left. split; [ exact Hr | ]. exists e'. split; [ right; exact He' | auto ].
      * right. exists deps. split; [ exact Hr | ]. split.
        -- rewrite filter_cons_False by (rewrite Hn; discriminate). exact Hall.
        -- intros e' He' Hn'. apply elem_of_cons in He'.
           destruct He' as [-> | He']; [ congruence | ].
           apply Hsome; assumption.
Qed.

(** X14. On a list of control entries that [create_controls] accepts, the
    constructor's scan asks a dependant of every entry whose type is not
    spelled exactly "Time": it returns their dependants in order when each
    has one, and raises [KeyError('dependant')] exactly when one has none. So
    a time control whose type is spelled otherwise, say "time", and which
    has no dependant, passes [create_controls] and makes the constructor
    fail. *)
Theorem constructor_asks_dependant_unless_Time controls cs :
  create_controls controls = Ok cs ->
  (dependant_sensors controls = Raise (KeyError "dependant") <->
   exists e, e ∈ controls /\ needs_dependant e = true /\ e !! "dependant" = None) /\
  (forall deps, dependant_sensors controls = Ok deps ->
     Forall2 (fun (e : pydict) d => e !! "dependant" = Some d)
       (filter (fun e => needs_dependant e = true) controls) deps) /\
  ((forall e, e ∈ controls -> needs_dependant e = true -> is_Some (e !! "dependant")) ->
   exists deps, dependant_sensors controls = Ok deps) /\
  (forall e attacks_entry,
     e ∈ controls -> type_lower e = Ok "time" ->
     e !! "type" <> Some (VStr "Time") -> e !! "dependant" = None ->
     (forall attack_list, attacks_entry = Some attack_list ->
        exists ats, create_attacks attack_list = Ok ats) ->
     constructor_rules controls attacks_entry = Raise (KeyError "dependant")).
Proof.
  intros Hcs.
  assert (Htyped := create_controls_loop_typed controls [] cs Hcs).
  pose proof (dependant_sensors_loop_cases controls Htyped []) as Hcases.
  fold (dependant_sensors controls) in Hcases.
  assert (Hmissing : (exists e, e ∈ controls /\ needs_dependant e = true /\
                        e !! "dependant" = None) ->
                     dependant_sensors controls = Raise (KeyError "dependant")).
  { intros (e & He & Hn & Hd).
    destruct Hcases as [[Hr _] | (deps & _ & _ & Hsome)]; [ exact Hr | ].
    destruct (Hsome e He Hn) as [d Hd']. congruence. }
  split; [ | split; [ | split ] ].
  - split; [ | exact Hmissing ].
    intros Hr. destruct Hcases as [[_ He] | (deps & Hr' & _)]; [ exact He | ].
    congruence.
  - intros deps Hr. destruct Hcases as [[Hr' _] | (deps' & Hr' & Hall & _)];
      [ congruence | ].
    rewrite Hr' in Hr. injection Hr as <-. exact Hall.
  - intros Hsome. destruct Hcases as [(_ & e & He & Hn & Hd) | (deps & Hr & _)].
    + destruct (Hsome e He Hn) as [d Hd']. congruence.
    + eexists. exact Hr.
  - intros e attacks_entry He Ht Hspell Hd Hattacks.
    unfold constructor_rules. rewrite Hcs. cbn [mbind result_bind].
    assert (Ha : exists ats, match attacks_entry with
                             | Some attack_list => create_attacks attack_list
                             | None => mret []
                             end = Ok ats).
    { destruct attacks_entry as [l | ]; [ apply Hattacks; reflexivity | ].
      eexists. reflexivity. }
    destruct Ha as [ats ->]. rewrite Hmissing; [ reflexivity | ].
    exists e. split; [ exact He | ]. split; [ | exact Hd ].
    destruct (type_lower_string e _ Ht) as [s Hs].
    unfold needs_dependant. rewrite Hs. cbn.
    destruct (String.eqb_spec s "Time") as [-> | Hne]; [ contradiction | reflexivity ].
Qed.

Lemma constructor_asks_dependant_unless_Time_witness :
  create_controls [entry_above; <["type" := VStr "time"]> entry_time]
    = Ok [AboveControl (VStr "P1") (VStr "closed") (VStr "T1") (VInt 20);
          TimeControl (VStr "P1") (VStr "open") (VInt 3600)] /\
  constructor_rules [entry_above; <["type" := VStr "time"]> entry_time] None
    = Raise (KeyError "dependant") /\
  constructor_rules [entry_above; <["type" := VStr "Time"]> entry_time] None
    = Ok ([AboveControl (VStr "P1") (VStr "closed") (VStr "T1") (VInt 20);
           TimeControl (VStr "P1") (VStr "open") (VInt 3600)], [], [VStr "T1"]).
Proof.
  split; [ reflexivity | ]. split; [ | reflexivity ].
  assert (Hcs : create_controls [entry_above; <["type" := VStr "time"]> entry_time]
                = Ok [AboveControl (VStr "P1") (VStr "closed") (VStr "T1") (VInt 20);
                      TimeControl (VStr "P1") (VStr "open") (VInt 3600)])
    by reflexivity.
  destruct (constructor_asks_dependant_unless_Time _ _ Hcs) as (_ & _ & _ & H).
  apply (H (<["type" := VStr "time"]> entry_time)).
  - right. left.
  - reflexivity.
  - discriminate.
  - reflexivity.
  - intros l Hl. discriminate Hl.
Defined.

(** ** Properties of plc2.py *)

Import PLC2.

(** *** The retry counter *)

Lemma iteration_failed i p e :
  state p = Running -> at_point p = AtGet -> read i = Raise e ->
  main_loop_iteration i p =
  let counter := get_error_counter p + 1 in
  if (counter <? get_error_counter_limit)%Z then set_loop counter AtGet p
  else set_state (Exited 0)
         (print "PLC process encountered errors, aborting process"
            (set_loop counter AtGet p)).
Proof.
  intros Hs Ha Hr. unfold main_loop_iteration, step. rewrite Hr, Hs, Ha. reflexivity.
Qed.

Lemma iteration_succeeded i p v :
  state p = Running -> at_point p = AtGet -> read i = Ok v ->
  main_loop_iteration i p =
  mkProcess (local_time p + 1) (reader p)
    (saved_tank_levels p ++ [[CInt (local_time p + 1); CDatetime (now i); CDecimal v]])
    (Some v) 0 AtGet (sigint_handler_installed p) (sigterm_handler_installed p)
    (stdout p) (files p) Running.
Proof.
  intros Hs Ha Hr. unfold main_loop_iteration. rewrite Hr.
  assert (H1 : step i p =
               mkProcess (local_time p) (reader p) (saved_tank_levels p) (Some v)
                 (get_error_counter p) AtIncrement (sigint_handler_installed p)
                 (sigterm_handler_installed p) (stdout p) (files p) (state p))
    by (unfold step; rewrite Hs, Ha, Hr; reflexivity).
  rewrite H1. unfold step. simpl. rewrite Hs. reflexivity.
Qed.

Lemma set_loop_same p :
  set_loop (get_error_counter p) (at_point p) p = p.
Proof. destruct p. reflexivity. Qed.

(** Fewer failures than the ceiling allows only count. *)
Lemma failures_below_limit fails : forall p,
  Forall failed fails ->
  state p = Running -> at_point p = AtGet ->
  get_error_counter p + Z.of_nat (length fails) < get_error_counter_limit ->
  main_loop_from fails p =
  set_loop (get_error_counter p + Z.of_nat (length fails)) AtGet p.
Proof.
  induction fails as [ | i rest IH ]; intros p Hall Hs Ha Hlt.
  - simpl. rewrite Z.add_0_r, <- Ha. symmetry. apply set_loop_same.
  - inversion Hall as [ | ? ? [e He] Hrest ]; subst.
    cbn [main_loop_from]. rewrite (iteration_failed _ _ _ Hs Ha He). cbn zeta.
    cbn [length] in Hlt. rewrite Nat2Z.inj_succ in Hlt.
    destruct (Z.ltb_spec (get_error_counter p + 1) get_error_counter_limit); [ | lia ].
    rewrite IH; try assumption; try reflexivity.
    + cbn [get_error_counter set_loop length]. rewrite Nat2Z.inj_succ.
      replace (get_error_counter p + 1 + Z.of_nat (length rest))
        with (get_error_counter p + Z.succ (Z.of_nat (length rest))) by lia.
      destruct p. reflexivity.
    + cbn [get_error_counter set_loop]. lia.
Qed.

Lemma stopped_stays inputs : forall p,
  state p <> Running -> main_loop_from inputs p = p.
Proof.
  induction inputs as [ | i rest IH ]; intros p Hs; [ reflexivity | ].
  cbn [main_loop_from].
  assert (Hstep : forall j, step j p = p).
  { intros j. unfold step. destruct (state p); [ contradiction | reflexivity .. ]. }
  assert (Hit : main_loop_iteration i p = p).
  { unfold main_loop_iteration. destruct (read i); rewrite ?Hstep; reflexivity. }
  rewrite Hit. apply IH. exact Hs.
Qed.

Lemma main_loop_from_app xs ys p :
  main_loop_from (xs ++ ys) p = main_loop_from ys (main_loop_from xs p).
Proof. revert p. induction xs as [ | x xs IH ]; intros p; [ reflexivity | apply IH ]. Qed.

(** C5. Around the read of the main loop: after fewer failures in a row
    than the ceiling of 100 the process still runs, with the failures
    counted, and a successful read then leaves the counter at 0 (so after
    one failure, and after 99); the hundredth failure in a row prints the
    aborting message and ends the process with no file written, whatever
    would have followed. *)
Theorem retry_counter_resets_and_aborts p fails ok v :
  state p = Running ->
  Forall failed fails ->
  read ok = Ok v ->
  ((Z.of_nat (length fails) < 100 ->
      state (main_loop fails p) = Running /\
      get_error_counter (main_loop fails p) = Z.of_nat (length fails) /\
      state (main_loop (fails ++ [ok]) p) = Running /\
      get_error_counter (main_loop (fails ++ [ok]) p) = 0) /\
   (Z.of_nat (length fails) = 100 ->
      forall later,
        state (main_loop (fails ++ later) p) = Exited 0 /\
        stdout (main_loop (fails ++ later) p) =
          stdout p ++ ["PLC process encountered errors, aborting process"] /\
        files (main_loop (fails ++ later) p) = files p /\
        saved_tank_levels (main_loop (fails ++ later) p) = saved_tank_levels p)).
Proof.
  intros Hs Hall Hok. unfold main_loop.
  set (p0 := set_loop 0 AtGet p).
  assert (Hs0 : state p0 = Running) by exact Hs.
  assert (Ha0 : at_point p0 = AtGet) by reflexivity.
  assert (Hc0 : get_error_counter p0 = 0) by reflexivity.
  split.
  - intros Hlt.
    assert (Hrun : main_loop_from fails p0 =
                   set_loop (Z.of_nat (length fails)) AtGet p0).
    { rewrite (failures_below_limit fails p0 Hall Hs0 Ha0).
      - rewrite Hc0. reflexivity.
      - rewrite Hc0. unfold get_error_counter_limit. lia. }
    rewrite main_loop_from_app, Hrun. cbn [main_loop_from].
    rewrite (iteration_succeeded ok _ v); auto.
  - intros Hlen later.
    destruct fails as [ | i rest _ ] using rev_ind; [ simpl in Hlen; lia | ].
    apply Forall_app in Hall. destruct Hall as [Hrest Hi].
    inversion Hi as [ | ? ? [e He] _ ]; subst.
    rewrite length_app in Hlen. cbn [length] in Hlen.
    assert (Hrun : main_loop_from rest p0 = set_loop 99 AtGet p0).
    { rewrite (failures_below_limit rest p0 Hrest Hs0 Ha0).
      - rewrite Hc0. f_equal. lia.
      - rewrite Hc0. unfold get_error_counter_limit. lia. }
    rewrite !main_loop_from_app, Hrun. cbn [main_loop_from].
    rewrite (iteration_failed i _ e); auto.
    cbn zeta. cbn [get_error_counter set_loop].
    change (99 + 1 <? get_error_counter_limit)%Z with false. cbv iota.
    rewrite stopped_stays by (cbn; discriminate).
    repeat split.
Qed.

Lemma retry_counter_resets_and_aborts_witness :
  get_error_counter (main_loop [timeout; level 125 7] (entered ∅ (mkDecimal 120 (-1)))) = 0 /\
  state (main_loop (replicate 99 timeout ++ [level 125 7]) (entered ∅ (mkDecimal 120 (-1))))
    = Running /\
  state (main_loop (replicate 100 timeout ++ [level 125 7]) (entered ∅ (mkDecimal 120 (-1))))
    = Exited 0.
Proof.
  assert (Hfail : forall n, Forall failed (replicate n timeout)).
  { intros n. apply Forall_replicate. eexists. reflexivity. }
  split; [ | split ].
  - pose proof (retry_counter_resets_and_aborts (entered ∅ (mkDecimal 120 (-1)))
                  [timeout] (level 125 7) (mkDecimal 125 (-1)) eq_refl (Hfail 1%nat)
                  eq_refl) as [H _].
    apply H. vm_compute. reflexivity.
  - pose proof (retry_counter_resets_and_aborts (entered ∅ (mkDecimal 120 (-1)))
                  (replicate 99 timeout) (level 125 7) (mkDecimal 125 (-1)) eq_refl
                  (Hfail 99%nat) eq_refl) as [H _].
    apply H. vm_compute. reflexivity.
  - pose proof (retry_counter_resets_and_aborts (entered ∅ (mkDecimal 120 (-1)))
                  (replicate 100 timeout) (level 125 7) (mkDecimal 125 (-1)) eq_refl
                  (Hfail 100%nat) eq_refl) as [_ H].
    apply H. vm_compute. reflexivity.
Defined.

(** *** Shutdown on a signal *)





Lemma step_stopped i p : state p <> Running -> step i p = p.
Proof. intros H. unfold step. destruct (state p); [ contradiction | reflexivity .. ]. Qed.



(** Complete passes add exactly the rows of their successful reads. *)
Lemma main_loop_from_telemetry inputs : forall p,
  state p = Running -> at_point p = AtGet ->
  state (main_loop_from inputs p) = Running ->
  saved_tank_levels (main_loop_from inputs p) =
    saved_tank_levels p ++ telemetry (local_time p) inputs /\
  stdout (main_loop_from inputs p) = stdout p.
Proof.
  induction inputs as [ | i rest IH ]; intros p Hs Ha Hrun.
  - cbn. rewrite app_nil_r. auto.
  - cbn [main_loop_from telemetry] in *.
    destruct (read i) as [v | e] eqn:Hr.
    + rewrite (iteration_succeeded i p v Hs Ha Hr) in Hrun |- *.
      match type of Hrun with
      | state (main_loop_from rest ?q) = _ =>
          destruct (IH q eq_refl eq_refl Hrun) as [H1 H2]
      end.
      rewrite H1, H2. cbn. rewrite <- app_assoc. auto.
    + rewrite (iteration_failed i p e Hs Ha Hr) in Hrun |- *. cbn zeta in *.
      destruct (get_error_counter p + 1 <? get_error_counter_limit)%Z.
      * destruct (IH (set_loop (get_error_counter p + 1) AtGet p) Hs eq_refl Hrun)
          as [H1 H2].
        rewrite H1, H2. auto.
      * rewrite stopped_stays in Hrun by (cbn; discriminate). discriminate Hrun.
Qed.




(** *** The lock *)

Lemma lock_discipline_step m s : lock_discipline s -> lock_discipline (thread_step m s).
Proof.
  intros (Hno & Hheld & Hacc).
  assert (Hsender : match lock s with
                    | Some MainLoop | None => True
                    | Some SendSystemState => False
                    end).
  { destruct (lock s) as [[ | ] | ]; auto. }
  destruct m as [answer | ]; cbn.
  - unfold main_step. destruct (main_at s) eqn:Hm.
    + destruct (lock s) eqn:Hl.
      * split; [ congruence | ]. split; [ | exact Hacc ].
        rewrite Hm. intros [H | H]; discriminate H.
      * split; [ cbn; discriminate | ]. split; [ reflexivity | exact Hacc ].
    + specialize (Hheld (or_introl eq_refl)).
      destruct answer as [v | e].
      * split; [ exact Hno | ]. split; [ intros _; exact Hheld | ].
        cbn. apply Forall_app. split; [ exact Hacc | ].
        constructor; [ | constructor ]. cbn. unfold guarded. cbn. rewrite Hheld.
        reflexivity.
      * split; [ cbn; discriminate | ]. split; [ | exact Hacc ].
        cbn. intros [H | H]; discriminate H.
    + split; [ cbn; discriminate | ]. split; [ | exact Hacc ].
      cbn. intros [H | H]; discriminate H.
    + split; [ exact Hno | ]. split; [ cbn; intros [H | H]; discriminate H | ].
      cbn. apply Forall_app. split; [ exact Hacc | ]. constructor; [ | constructor ].
      cbn. exact I.
  - unfold sender_step. destruct (sender_at s).
    + split; [ exact Hno | ]. split; [ exact Hheld | exact Hacc ].
    + split; [ exact Hno | ]. split; [ exact Hheld | ].
      cbn. apply Forall_app. split; [ exact Hacc | ].
      constructor; [ | constructor ]. cbn. unfold guarded. cbn.
      destruct (lock s) as [[ | ] | ]; [ reflexivity | contradiction | reflexivity ].
Qed.

Lemma lock_discipline_interleave schedule : forall s,
  lock_discipline s -> lock_discipline (interleave schedule s).
Proof.
  induction schedule as [ | m rest IH ]; intros s Hs; [ exact Hs | ].
  cbn. apply IH. apply lock_discipline_step. exact Hs.
Qed.

(** C9: the code under a failing schedule. The main loop takes the lock;
    before it has assigned the new value, [send_system_state] reads
    [self.t1] and publishes it, without the lock, which the main loop still
    holds. Under no schedule does the sender hold the lock at an access,
    while every write of the main loop is under the lock. *)
Theorem sender_reads_without_lock :
  (let s := interleave [Main (Ok (mkDecimal 125 (-1))); Sender; Sender]
              (started (mkDecimal 120 (-1))) in
   lock s = Some MainLoop /\
   main_at s = MAssign /\
   accesses s = [mkAccess SendSystemState ReadT1 (Some MainLoop)] /\
   sent s = [mkDecimal 120 (-1)] /\
   Forall (fun a => guarded a = false) (accesses s)) /\
  (forall schedule v0,
     Forall (fun a => match by_thread a, kind a with
                      | MainLoop, WriteT1 => guarded a = true
                      | MainLoop, ReadT1 => True
                      | SendSystemState, _ => guarded a = false
                      end)
            (accesses (interleave schedule (started v0)))).
Proof.
  split.
  - cbn. repeat split. constructor; [ reflexivity | constructor ].
  - intros schedule v0.
    apply (lock_discipline_interleave schedule (started v0)).
    repeat split; cbn; try discriminate; try constructor.
    intros [H | H]; discriminate H.
Qed.

(** ** More properties of plc2.py *)

Import PLC2 Runs.

(** *** The loop over many reads *)

Lemma telemetry_length n m inputs :
  length (telemetry n inputs) = length (telemetry m inputs).
Proof.
  revert n m. induction inputs as [ | i rest IH ]; intros n m; [ reflexivity | ].
  cbn [telemetry]. destruct (read i); cbn [length]; [ f_equal | ]; apply IH.
Qed.

(** At the top of the loop. *)
Lemma passes_at_loop_top inputs : forall p,
  state p = Running -> at_point p = AtGet ->
  0 <= get_error_counter p < 100 -> is_Some (t1 p) ->
  let q := main_loop_from inputs p in
  (state q = Running \/ state q = Exited 0) /\
  (state q = Running ->
     at_point q = AtGet /\ 0 <= get_error_counter q < 100 /\ is_Some (t1 q) /\
     reader q = reader p /\
     local_time q = local_time p + Z.of_nat (length (telemetry 0 inputs))) /\
  (state q = Exited 0 -> get_error_counter q = 100 /\ files q = files p).
Proof.
  induction inputs as [ | i rest IH ]; intros p Hs Ha Hc Ht; cbn zeta.
  - cbn. rewrite Z.add_0_r. split; [ left; exact Hs | ].
    split; [ auto | ]. intros H. congruence.
  - cbn [main_loop_from telemetry].
    destruct (read i) as [v | e] eqn:Hr.
    + rewrite (iteration_succeeded i p v Hs Ha Hr).
      match goal with
      | |- context [ main_loop_from rest ?q ] =>
          destruct (IH q eq_refl eq_refl ltac:(cbn; lia) ltac:(cbn; eauto))
            as (H1 & H2 & H3)
      end.
      cbn [reader local_time files length] in H2, H3.
      split; [ exact H1 | ]. split; [ | exact H3 ].
      intros Hq. destruct (H2 Hq) as (Ha' & Hc' & Ht' & Hrd & Hl).
      repeat split; auto; try lia. rewrite Hl. cbn [length].
      rewrite Nat2Z.inj_succ, (telemetry_length (0 + 1) 0). lia.
    + rewrite (iteration_failed i p e Hs Ha Hr). cbn zeta.
      unfold get_error_counter_limit.
      destruct (Z.ltb_spec (get_error_counter p + 1) 100) as [Hlt | Hge].
      * destruct (IH (set_loop (get_error_counter p + 1) AtGet p) Hs eq_refl
                    ltac:(cbn; lia) Ht) as (H1 & H2 & H3).
        cbn [reader local_time files set_loop] in H2, H3.
        split; [ exact H1 | ]. split; [ exact H2 | exact H3 ].
      * rewrite stopped_stays by (cbn; discriminate). cbn.
        split; [ right; reflexivity | ]. split; [ discriminate | ].
        intros _. split; [ lia | reflexivity ].
Qed.

(** X15. However the reads turn out, the process that has entered the main
    loop is either running or has exited with code 0 at the ceiling of 100
    failures, without having touched a file. While it runs, between two
    passes the failure counter is below 100 and [local_time] is the number
    of passes whose read succeeded. *)
Theorem main_loop_counts_within_bounds fs v0 inputs :
  let q := main_loop inputs (pre_loop (Ok v0) (boot fs)) in
  (state q = Running \/ state q = Exited 0) /\
  (state q = Running ->
     0 <= get_error_counter q < get_error_counter_limit /\
     local_time q = Z.of_nat (length (telemetry 0 inputs)) /\
     Z.of_nat (length (saved_tank_levels q)) = 1 + local_time q) /\
  (state q = Exited 0 ->
     get_error_counter q = get_error_counter_limit /\ files q = fs).
Proof.
  intros q. subst q. unfold main_loop. fold (entered fs v0).
  destruct (passes_at_loop_top inputs (entered fs v0) eq_refl eq_refl
              ltac:(cbn; lia) ltac:(cbn; eauto)) as (H1 & H2 & H3).
  cbn zeta in *. split; [ exact H1 | ]. split; [ | exact H3 ].
  intros Hq. destruct (H2 Hq) as (_ & Hc & _ & _ & Hl).
  cbn [local_time entered set_loop pre_loop boot print] in Hl.
  split; [ exact Hc | ]. split; [ rewrite Hl; lia | ].
  destruct (main_loop_from_telemetry inputs (entered fs v0) eq_refl eq_refl Hq)
    as [Hsaved _].
  rewrite Hsaved, length_app, Hl. cbn. lia.
Qed.

Lemma failed_not_ok i v : read i = Ok v -> ~ failed i.
Proof. intros Hr [e He]. congruence. Qed.

Lemma starts_zero inputs : starts_with_failures 0 inputs.
Proof. exists [], inputs. repeat split. constructor. Qed.

Lemma starts_cons_failed n i rest :
  failed i ->
  (starts_with_failures (S n) (i :: rest) <-> starts_with_failures n rest).
Proof.
  intros Hi. split.
  - intros (fails & post & Heq & Hlen & Hall).
    destruct fails as [ | f fails' ]; [ discriminate Hlen | ].
    injection Heq as <- ->. inversion Hall; subst.
    exists fails', post. repeat split; auto.
  - intros (fails & post & -> & Hlen & Hall).
    exists (i :: fails), post. repeat split; cbn; auto.
Qed.

Lemma starts_cons_ok n i rest v :
  read i = Ok v -> ~ starts_with_failures (S n) (i :: rest).
Proof.
  intros Hr (fails & post & Heq & Hlen & Hall).
  destruct fails as [ | f fails' ]; [ discriminate Hlen | ].
  injection Heq as <- ->. inversion Hall; subst.
  eapply failed_not_ok; eauto.
Qed.

Lemma starts_fewer n m inputs :
  starts_with_failures n inputs -> (m <= n)%nat -> starts_with_failures m inputs.
Proof.
  intros (fails & post & -> & Hlen & Hall) Hle.
  exists (take m fails), (drop m fails ++ post). split.
  - rewrite app_assoc, take_drop. reflexivity.
  - split; [ rewrite length_take; lia | apply Forall_take; exact Hall ].
Qed.

Lemma run_cons n i rest :
  has_failure_run n (i :: rest) <->
  starts_with_failures n (i :: rest) \/ has_failure_run n rest.
Proof.
  split.
  - intros (before & tail & Heq & Hstarts).
    destruct before as [ | b before' ].
    + left. cbn in Heq. subst tail. exact Hstarts.
    + right. injection Heq as <- ->. exists before', tail. auto.
  - intros [Hstarts | (before & tail & -> & Hstarts)].
    + exists [], (i :: rest). auto.
    + exists (i :: before), tail. auto.
Qed.

(** From the top of the loop with [r] failures to go to the ceiling. *)
Lemma abort_iff_run inputs : forall p (r : nat),
  state p = Running -> at_point p = AtGet ->
  (1 <= r <= 100)%nat -> get_error_counter p = 100 - Z.of_nat r ->
  (state (main_loop_from inputs p) = Exited 0 <->
   starts_with_failures r inputs \/ has_failure_run 100 inputs).
Proof.
  induction inputs as [ | i rest IH ]; intros p r Hs Ha Hr Hc.
  - cbn. split; [ congruence | ].
    intros [(fails & post & Heq & Hlen & _) | (before & tail & Heq & fails & post & -> & Hlen & _)].
    + symmetry in Heq. apply app_eq_nil in Heq. destruct Heq as [-> _].
      cbn in Hlen. lia.
    + symmetry in Heq. apply app_eq_nil in Heq. destruct Heq as [_ Heq].
      apply app_eq_nil in Heq. destruct Heq as [-> _]. cbn in Hlen. lia.
  - cbn [main_loop_from]. rewrite run_cons.
    destruct (read i) as [v | e] eqn:Hread.
    + rewrite (iteration_succeeded i p v Hs Ha Hread).
      match goal with
      | |- context [ main_loop_from rest ?q ] =>
          rewrite (IH q 100%nat eq_refl eq_refl ltac:(lia) eq_refl)
      end.
      split.
      * intros [H | H]; [ | auto ]. right. right. exists [], rest. auto.
      * intros [H | [H | H]].
        -- destruct r as [ | r' ]; [ lia | ].
           exfalso. eapply starts_cons_ok; eauto.
        -- exfalso. eapply (starts_cons_ok 99); eauto.
        -- auto.
    + assert (Hi : failed i) by (eexists; exact Hread).
      rewrite (iteration_failed i p e Hs Ha Hread). cbn zeta.
      unfold get_error_counter_limit.
      destruct r as [ | r' ]; [ lia | ].
      destruct (Z.ltb_spec (get_error_counter p + 1) 100) as [Hlt | Hge].
      * rewrite (IH (set_loop (get_error_counter p + 1) AtGet p) r' Hs eq_refl
                   ltac:(lia) ltac:(cbn; lia)).
        rewrite (starts_cons_failed r' i rest Hi), (starts_cons_failed 99 i rest Hi).
        split.
        -- intros [H | H]; auto.
        -- intros [H | [H | H]]; auto.
           left. apply (starts_fewer 99); [ exact H | lia ].
      * rewrite stopped_stays by (cbn; discriminate). cbn.
        split; [ | reflexivity ]. intros _. left.
        assert (r' = 0%nat) by lia. subst r'.
        apply starts_cons_failed; [ exact Hi | apply starts_zero ].
Qed.

(** X16. The process in the main loop exits exactly when 100 reads in a
    row have failed somewhere in the sequence of reads; otherwise it is
    still running. *)
Theorem main_loop_exits_iff_hundred_failures_in_a_row fs v0 inputs :
  let q := main_loop inputs (pre_loop (Ok v0) (boot fs)) in
  (state q = Exited 0 <-> has_failure_run 100 inputs) /\
  (state q = Running <-> ~ has_failure_run 100 inputs).
Proof.
  intros q. subst q. unfold main_loop. fold (entered fs v0).
  pose proof (abort_iff_run inputs (entered fs v0) 100%nat eq_refl eq_refl
                ltac:(lia) eq_refl) as Hiff.
  assert (Hrun : starts_with_failures 100 inputs \/ has_failure_run 100 inputs <->
                 has_failure_run 100 inputs).
  { split; [ | auto ]. intros [H | H]; [ | exact H ]. exists [], inputs. auto. }
  rewrite Hrun in Hiff. split; [ exact Hiff | ].
  destruct (passes_at_loop_top inputs (entered fs v0) eq_refl eq_refl
              ltac:(cbn; lia) ltac:(cbn; eauto)) as ([H | H] & _).
  - split.
    + intros _ Hhas. apply Hiff in Hhas. congruence.
    + intros _. exact H.
  - split.
    + intros Hq. congruence.
    + intros Hnot. exfalso. apply Hnot. apply Hiff. exact H.
Qed.

(** *** The table only grows *)

Lemma occur_grows o p :
  exists rows lines,
    saved_tank_levels (occur o p) = saved_tank_levels p ++ rows /\
    stdout (occur o p) = stdout p ++ lines /\
    local_time p <= local_time (occur o p).
Proof.
  assert (Hsame : exists rows lines,
            saved_tank_levels p = saved_tank_levels p ++ rows /\
            stdout p = stdout p ++ lines /\ local_time p <= local_time p).
  { exists [], []. rewrite !app_nil_r. (split; [ reflexivity | split; [ reflexivity | cbn; lia ] ]). }
  destruct o as [i | s d at_]; cbn [occur].
  - unfold step. destruct (state p); try exact Hsame.
    destruct (at_point p).
    + destruct (read i).
      * exists [], []. cbn. rewrite !app_nil_r. (split; [ reflexivity | split; [ reflexivity | cbn; lia ] ]).
      * destruct (get_error_counter p + 1 <? get_error_counter_limit)%Z.
        -- exists [], []. cbn. rewrite !app_nil_r. (split; [ reflexivity | split; [ reflexivity | cbn; lia ] ]).
        -- eexists [], _. cbn. (split; [ rewrite app_nil_r; reflexivity | split; [ reflexivity | lia ] ]).
    + exists [], []. cbn. rewrite !app_nil_r. (split; [ reflexivity | split; [ reflexivity | cbn; lia ] ]).
    + destruct (t1 p).
      * eexists _, []. cbn. (split; [ reflexivity | split; [ rewrite app_nil_r; reflexivity | lia ] ]).
      * exists [], []. cbn. rewrite !app_nil_r. (split; [ reflexivity | split; [ reflexivity | cbn; lia ] ]).
    + exists [], []. cbn. rewrite !app_nil_r. (split; [ reflexivity | split; [ reflexivity | cbn; lia ] ]).
  - unfold deliver. destruct (state p) eqn:Hs; try exact Hsame.
    destruct (match s with
              | SIGINT => sigint_handler_installed p
              | SIGTERM => sigterm_handler_installed p
              end);
      [ | exists [], []; cbn; rewrite !app_nil_r;
          (split; [ reflexivity | split; [ reflexivity | cbn; lia ] ]) ].
    destruct d, at_ as [ | [v | ]]; destruct (at_point p) eqn:Ha;
      cbn; rewrite ?Hs, ?Ha; cbn; unfold step; cbn; rewrite ?Hs, ?Ha; cbn;
      try destruct (get_error_counter p + 1 <? get_error_counter_limit)%Z;
      eexists [], _; cbn; rewrite <- ?app_assoc;
      (split; [ rewrite app_nil_r; reflexivity | split; [ reflexivity | lia ] ]).
Qed.

(** X17. Whatever happens to the process (statements of the loop, signals,
    in any order), the telemetry table and the output only grow at the end
    and [local_time] never decreases: a row once appended is never changed
    or removed. *)
Theorem telemetry_table_only_grows os p :
  exists rows lines,
    saved_tank_levels (run os p) = saved_tank_levels p ++ rows /\
    stdout (run os p) = stdout p ++ lines /\
    local_time p <= local_time (run os p).
Proof.
  revert p. induction os as [ | o rest IH ]; intros p.
  - exists [], []. cbn. rewrite !app_nil_r. (split; [ reflexivity | split; [ reflexivity | cbn; lia ] ]).
  - cbn [run fold_left]. fold (run rest (occur o p)).
    destruct (occur_grows o p) as (rows1 & lines1 & Hs1 & Ho1 & Hl1).
    destruct (IH (occur o p)) as (rows2 & lines2 & Hs2 & Ho2 & Hl2).
    exists (rows1 ++ rows2), (lines1 ++ lines2).
    rewrite Hs2, Ho2, Hs1, Ho1, <- !app_assoc. (split; [ reflexivity | split; [ reflexivity | cbn; lia ] ]).
Qed.

(** *** A shutdown the file system refuses *)

(** X20. When the handler is installed and [open] or the write fails, a
    signal does not make the process exit through the handler: the table
    stays as it is in memory, the file is left untouched (or, when the
    write failed after [open], with only a part of the table), and the
    error surfaces where the signal landed. Inside the [try] block it
    counts as one more failed read: the loop goes on, or exits at the
    limit of failures like after any failed read. Anywhere else the
    process ends with the error. *)
Theorem signal_with_failing_write_surfaces sig d at_ p :
  refused d = true ->
  state p = Running ->
  sigint_handler_installed p = true ->
  sigterm_handler_installed p = true ->
  let q := deliver sig d at_ p in
  saved_tank_levels q = saved_tank_levels p /\
  local_time q = local_time p /\
  files q = match d with
            | WriteFails _ => <[output_path := PartOf (saved_tank_levels p)]> (files p)
            | _ => files p
            end /\
  match at_, at_point p with
  | InTry _, AtGet =>
      get_error_counter q = get_error_counter p + 1 /\
      if (get_error_counter p + 1 <? get_error_counter_limit)%Z
      then state q = Running /\ at_point q = AtGet /\
           stdout q = stdout p ++ ["DEBUG plc2 shutdown"]
      else state q = Exited 0 /\
           stdout q = stdout p ++ ["DEBUG plc2 shutdown";
                                   "PLC process encountered errors, aborting process"]
  | _, _ => state q = Aborted /\ stdout q = stdout p ++ ["DEBUG plc2 shutdown"]
  end.
Proof.
  intros Hd Hs Hi Ht q. subst q. unfold deliver. rewrite Hs.
  destruct sig; rewrite ?Hi, ?Ht;
    (destruct d as [ | msg | msg ]; [ discriminate Hd | | ]);
    destruct at_ as [ | [v | ]]; destruct (at_point p) eqn:Ha;
    cbn; rewrite ?Hs, ?Ha; cbn; unfold step; cbn; rewrite ?Hs, ?Ha; cbn;
    try destruct (get_error_counter p + 1 <? get_error_counter_limit)%Z;
    cbn; rewrite <- ?app_assoc; repeat split; exact Hs.
Qed.

Lemma signal_with_failing_write_surfaces_witness :
  state (deliver SIGINT (WriteFails "No space left on device") (InTry None)
           (entered ∅ (mkDecimal 120 (-1)))) = Running /\
  files (deliver SIGINT (WriteFails "No space left on device") (InTry None)
           (entered ∅ (mkDecimal 120 (-1)))) = {[ output_path := PartOf [header] ]}.
Proof.
  pose proof (signal_with_failing_write_surfaces SIGINT
                (WriteFails "No space left on device") (InTry None)
                (entered ∅ (mkDecimal 120 (-1)))
                eq_refl eq_refl eq_refl eq_refl)
    as (_ & _ & Hfiles & _ & Hstate & _).
  split; [ exact Hstate | rewrite Hfiles; reflexivity ].
Defined.

(** *** What the sender publishes *)

Lemma interleave_snoc schedule m s :
  interleave (schedule ++ [m]) s = thread_step m (interleave schedule s).
Proof. unfold interleave. rewrite fold_left_app. reflexivity. Qed.

(** X18. Under every schedule, each value [send_system_state] has
    published is the value [pre_loop] read or one that a read of the main
    loop returned; and whenever the main loop is about to enter its [with]
    block the lock is free, so the main loop never waits for it. *)
Theorem sender_publishes_values_read schedule v0 :
  let s := interleave schedule (started v0) in
  Forall (fun v => v = v0 \/ read_in schedule v) (sent s) /\
  (shared_t1 s = v0 \/ read_in schedule (shared_t1 s)) /\
  (main_at s = MEnter -> lock s = None) /\
  (forall answer, main_at (main_step answer s) <> main_at s).
Proof.
  cbn zeta.
  assert (Hinv : Forall (fun v => v = v0 \/ read_in schedule v)
                        (sent (interleave schedule (started v0))) /\
                 (shared_t1 (interleave schedule (started v0)) = v0 \/
                  read_in schedule (shared_t1 (interleave schedule (started v0)))) /\
                 (main_at (interleave schedule (started v0)) = MEnter \/
                  main_at (interleave schedule (started v0)) = MAfter ->
                  lock (interleave schedule (started v0)) = None)).
  { induction schedule as [ | m rest IH ] using rev_ind.
    - cbn. split; [ constructor | ]. split; [ left; reflexivity | reflexivity ].
    - rewrite interleave_snoc. destruct IH as (Hsent & Ht1 & Hlock).
      set (s := interleave rest (started v0)) in *.
      assert (Hweak : forall v, v = v0 \/ read_in rest v ->
                        v = v0 \/ read_in (rest ++ [m]) v).
      { intros v [H | H]; [ left; exact H | right ].
        unfold read_in in *. apply elem_of_app. left. exact H. }
      assert (Hsent' : Forall (fun v => v = v0 \/ read_in (rest ++ [m]) v) (sent s)).
      { eapply Forall_impl; [ exact Hsent | exact Hweak ]. }
      destruct m as [answer | ]; cbn [thread_step].
      + unfold main_step. destruct (main_at s) eqn:Hm.
        * rewrite (Hlock (or_introl eq_refl)). cbn.
          split; [ exact Hsent' | ]. split; [ apply Hweak; exact Ht1 | ].
          intros [H | H]; discriminate H.
        * destruct answer as [v | e]; cbn.
          -- split; [ exact Hsent' | ]. split.
             ++ right. unfold read_in. apply elem_of_app. right. left.
             ++ intros [H | H]; discriminate H.
          -- split; [ exact Hsent' | ]. split; [ apply Hweak; exact Ht1 | reflexivity ].
        * cbn. split; [ exact Hsent' | ]. split; [ apply Hweak; exact Ht1 | reflexivity ].
        * cbn. split; [ exact Hsent' | ]. split; [ apply Hweak; exact Ht1 | ].
          intros _. apply Hlock. right. reflexivity.
      + unfold sender_step. destruct (sender_at s); cbn.
        * split; [ exact Hsent' | ]. split; [ apply Hweak; exact Ht1 | exact Hlock ].
        * split; [ | split; [ apply Hweak; exact Ht1 | exact Hlock ] ].
          apply Forall_app. split; [ exact Hsent' | ].
          constructor; [ apply Hweak; exact Ht1 | constructor ]. }
  destruct Hinv as (Hsent & Ht1 & Hlock).
  split; [ exact Hsent | ]. split; [ exact Ht1 | ].
  split; [ intros H; apply Hlock; left; exact H | ].
  intros answer. unfold main_step.
  destruct (main_at (interleave schedule (started v0))) eqn:Hm.
  - rewrite (Hlock (or_introl eq_refl)). cbn. discriminate.
  - destruct answer; cbn; discriminate.
  - cbn. discriminate.
  - cbn. discriminate.
Qed.
